(** * The cellular-automaton engine of the Cellular Automata Art Studio

    A shallow embedding of the simulation code of [src/main.js]: the step
    computed by the web worker ([workerCode], [self.onmessage]), its
    main-thread twin inside [computeNextGeneration], the single-cell edits
    of the canvas handlers, and the pattern stamp [applyPattern].

    Numbers.  Ages, coordinates and rule bounds are JavaScript numbers
    holding integers; they are modelled in [Z].  So are the cell states
    that the engine and the canvas handlers write.  The only place where
    the code leaves the integers is the quotient [stateSum / neighbors] of
    the birth rule, modelled in [Q]; for operands below 2^26 the double
    nearest to the quotient rounds, under [Math.round], to the same
    integer as the exact quotient.  A cell state can moreover become [NaN]
    (from [0 / 0]), and [importPattern] assigns whatever number the file
    holds: [JSON.parse] reads [1e999] as [Infinity].  [NaN], [Infinity]
    and [-Infinity] are the numbers that
    [JSON.parse(JSON.stringify(...))] does not give back: they become
    [null].  All of these are part of [jsval]; numbers with a fractional
    part, and the strings, booleans and arrays that a file can hold as
    well, are not.

    Exceptions.  The source has no [throw]; the one exception it can raise
    is the [TypeError] of a property access on [undefined], when a grid is
    smaller than [gridSize].  Fallible code returns [option], [None] being
    that uncaught [TypeError]. *)

From Stdlib Require Import ZArith QArith Qround Lqa String Lia.
From stdpp Require Import base numbers option list list_numbers.

Close Scope Q_scope.
Local Open Scope Z_scope.

(** ** Data model *)

(** What a [state] property can hold: an integer, [NaN], [Infinity],
    [-Infinity], [null], or nothing at all ([undefined]). *)
Inductive jsval : Type :=
  | JNum (z : Z)
  | JNaN
  | JInfinity
  | JNegInfinity
  | JNull
  | JUndefined.

Global Instance jsval_eq_dec : EqDecision jsval.
Proof. solve_decision. Defined.

(** A number above 0: an integer or [Infinity].  The states of the living
    cells and their sums are such numbers. *)
Inductive num : Type :=
  | Fin (z : Z)
  | Inf.

Global Instance num_eq_dec : EqDecision num.
Proof. solve_decision. Defined.

(** The cell objects built by [initializeGrid]. *)
Record Cell : Type := mkCell {
  state : jsval;
  age : Z;
  previousStates : list Z;
  changed : bool
}.

Global Instance Cell_eq_dec : EqDecision Cell.
Proof. solve_decision. Defined.

Abbreviation Grid := (list (list Cell)).

Record GridSize : Type := mkGridSize { cols : Z; rows : Z }.

Inductive Neighborhood : Type := Moore | VonNeumann.

Record Rules : Type := mkRules {
  surviveMin : Z;
  surviveMax : Z;
  birthMin : Z;
  birthMax : Z;
  states : Z;
  neighborhood : Neighborhood;
  wrapping : bool
}.

Record ColorScheme : Type := mkColorScheme {
  background : string;
  cellColors : list string;
  trailEffect : bool;
  trailLength : Z;
  fadeEffect : bool
}.

(** An entry [{ x, y }] of [changedCells]. *)
Record Pos : Type := mkPos { px : Z; py : Z }.

(** The message posted to the worker, and its answer. *)
Record Msg : Type := mkMsg {
  msg_grid : Grid;
  msg_rules : Rules;
  msg_gridSize : GridSize;
  msg_colorScheme : ColorScheme
}.

Record Response : Type := mkResponse {
  newGrid : Grid;
  changedCells : list Pos
}.

Definition set_state (v : jsval) (c : Cell) : Cell :=
  mkCell v (age c) (previousStates c) (changed c).
Definition set_age (a : Z) (c : Cell) : Cell :=
  mkCell (state c) a (previousStates c) (changed c).
Definition set_changed (b : bool) (c : Cell) : Cell :=
  mkCell (state c) (age c) (previousStates c) b.

(** ** JavaScript primitives used by the engine *)

(** [v > 0], keeping the number when the test succeeds: [Infinity > 0]
    is true; [NaN > 0], [-Infinity > 0], [null > 0] and [undefined > 0]
    are all false. *)
Definition positive (v : jsval) : option num :=
  match v with
  | JNum z => if 0 <? z then Some (Fin z) else None
  | JInfinity => Some Inf
  | _ => None
  end.

(** [a + b] on numbers above 0. *)
Definition num_add (a b : num) : num :=
  match a, b with
  | Fin x, Fin y => Fin (x + y)
  | _, _ => Inf
  end.

(** [Math.min(s + 1, states)]: [Infinity + 1] is [Infinity]. *)
Definition next_state (s : num) (states : Z) : Z :=
  match s with
  | Fin z => Z.min (z + 1) states
  | Inf => states
  end.

(** [n !== s]. *)
Definition differs_from (n : Z) (s : num) : bool :=
  match s with
  | Fin z => negb (n =? z)
  | Inf => true
  end.

(** [Math.round]: the nearest integer, ties towards +Infinity. *)
Definition Math_round (q : Q) : Z := Qfloor (q + (1 # 2))%Q.

(** [Math.max(1, Math.min(Math.round(stateSum / neighbors), states))].
    [0 / 0] is [NaN], which [Math.round], [Math.min] and [Math.max] all
    propagate; [s / 0] is +Infinity or -Infinity by the sign of [s]; and
    [Infinity / n] is [Infinity] for every count [n >= 0], which
    [Math.round] keeps and [Math.min] cuts down to [states]. *)
Definition birth_average (stateSum : num) (neighbors states : Z) : jsval :=
  match stateSum with
  | Fin stateSum =>
    if neighbors =? 0 then
      if stateSum =? 0 then JNaN
      else if 0 <? stateSum then JNum (Z.max 1 states)
      else JNum 1
    else
      JNum (Z.max 1 (Z.min (Math_round (inject_Z stateSum / inject_Z neighbors)%Q) states))
  | Inf => JNum (Z.max 1 states)
  end.

(** What [JSON.parse(JSON.stringify(v))] makes of a property value:
    [NaN], [Infinity] and [-Infinity] are written as [null]; an
    [undefined] property is dropped, and reads as [undefined] again. *)
Definition JSON_val (v : jsval) : jsval :=
  match v with
  | JNum z => JNum z
  | JNaN | JInfinity | JNegInfinity => JNull
  | JNull => JNull
  | JUndefined => JUndefined
  end.

Definition JSON_cell (c : Cell) : Cell :=
  mkCell (JSON_val (state c)) (age c) (previousStates c) (changed c).

(** [JSON.parse(JSON.stringify(grid))]: a deep copy. *)
Definition JSON_copy (g : Grid) : Grid :=
  (λ row : list Cell, JSON_cell <$> row) <$> g.

(** [(currentState + 1) % (states + 1)] of [handleCanvasClick]; [%] is the
    truncated remainder, [null + 1] is [1], a zero modulus gives [NaN],
    and so does an infinite dividend. *)
Definition cycle_state (v : jsval) (states : Z) : jsval :=
  let next :=
    match v with
    | JNum s => Some (s + 1)
    | JNull => Some 1
    | JNaN | JInfinity | JNegInfinity | JUndefined => None
    end in
  match next with
  | Some n => if states + 1 =? 0 then JNaN else JNum (Z.rem n (states + 1))
  | None => JNaN
  end.

(** [currentState === 0 ? 1 : 0]. *)
Definition toggle_state (v : jsval) : jsval :=
  match v with
  | JNum 0 => JNum 1
  | _ => JNum 0
  end.

(** ** Arrays *)

(** [a[i]]: [None] stands for [undefined]. *)
Definition at_index {A : Type} (l : list A) (i : Z) : option A :=
  if decide (0 ≤ i) then l !! Z.to_nat i else None.

(** The cell object [grid[y][x]]; [None] when evaluating a property of it
    throws. *)
Definition grid_get (g : Grid) (y x : Z) : option Cell :=
  row ← at_index g y; at_index row x.

(** Assignments to properties of [grid[y][x]]; the object is updated in
    place, [None] when it does not exist. *)
Definition grid_update (g : Grid) (y x : Z) (f : Cell → Cell) : option Grid :=
  row ← at_index g y;
  c ← at_index row x;
  Some (<[Z.to_nat y := <[Z.to_nat x := f c]> row]> g).

(** ** Loops *)

(** [for (const i of l) body], threading the mutable state [s]; an
    exception in the body leaves the loop. *)
Fixpoint for_each {I S : Type} (l : list I) (body : I → S → option S) (s : S)
  : option S :=
  match l with
  | [] => Some s
  | i :: l' => s' ← body i s; for_each l' body s'
  end.

(** [for (let i = 0; i < n; i++) body]. *)
Definition for_range {S : Type} (n : Z) (body : Z → S → option S) (s : S)
  : option S :=
  for_each (seqZ 0 n) body s.

(** ** Neighbour counting (lines 96-121 and, word for word, 375-400) *)

Definition directions (n : Neighborhood) : list (Z * Z) :=
  match n with
  | Moore => [(-1,-1); (-1,0); (-1,1); (0,-1); (0,1); (1,-1); (1,0); (1,1)]
  | VonNeumann => [(-1,0); (0,-1); (0,1); (1,0)]
  end.

(** [if (grid[ny][nx].state > 0) { neighbors++; stateSum += ... }]. *)
Definition tally (c : Cell) (acc : Z * num) : Z * num :=
  match positive (state c) with
  | Some s => (fst acc + 1, num_add (snd acc) s)
  | None => acc
  end.

(** One turn of the loop over [directions].  [Z.rem] is JavaScript's [%];
    the loop body only runs with [rows > 0] and [cols > 0], where
    [ny + rows >= 0], so the sign conventions never matter. *)
Definition visit (gs : GridSize) (r : Rules) (grid : Grid) (y x : Z)
    (d : Z * Z) (acc : Z * num) : option (Z * num) :=
  let ny := y + fst d in
  let nx := x + snd d in
  if wrapping r then
    let ny := Z.rem (ny + rows gs) (rows gs) in
    let nx := Z.rem (nx + cols gs) (cols gs) in
    c ← grid_get grid ny nx; Some (tally c acc)
  else if (ny <? 0) || (rows gs <=? ny) || (nx <? 0) || (cols gs <=? nx) then
    Some acc
  else
    c ← grid_get grid ny nx; Some (tally c acc).

(** The pair [(neighbors, stateSum)] after the loop. *)
Definition count_neighbors (gs : GridSize) (r : Rules) (grid : Grid) (y x : Z)
  : option (Z * num) :=
  for_each (directions (neighborhood r)) (visit gs r grid y x) (0, Fin 0).

(** ** The worker: [self.onmessage] (lines 84-183) *)

(** "Apply rules": the values of [cellChanged], [newState] and [newAge]
    when the branches are through. *)
Definition apply_rules (r : Rules) (cs : ColorScheme) (cell : Cell)
    (neighbors : Z) (stateSum : num) : bool * jsval * Z :=
  match positive (state cell) with
  | Some s =>
    if (surviveMin r <=? neighbors) && (neighbors <=? surviveMax r) then
      let '(newState, cellChanged) :=
        if 1 <? states r then
          let nextState := next_state s (states r) in
          if differs_from nextState s then (JNum nextState, true)
          else (state cell, false)
        else (state cell, false) in
      let newAge := age cell + 1 in
      (cellChanged || negb (age cell =? newAge), newState, newAge)
    else if trailEffect cs then
      let newAge := age cell + 1 in
      if trailLength cs <? newAge then (true, JNum 0, 0)
      else (true, state cell, newAge)
    else (true, JNum 0, 0)
  | None =>
    if (birthMin r <=? neighbors) && (neighbors <=? birthMax r) then
      let newState :=
        if 1 <? states r then birth_average stateSum neighbors (states r)
        else JNum 1 in
      (true, newState, 0)
    else (false, state cell, age cell)
  end.

(** The body of the two nested loops, for the cell [(y, x)]; the mutable
    state is [newGrid] and [changedCells]. *)
Definition worker_body (gs : GridSize) (r : Rules) (cs : ColorScheme)
    (grid : Grid) (y x : Z) (st : Grid * list Pos) : option (Grid * list Pos) :=
  cell ← grid_get grid y x;
  '(neighbors, stateSum) ← count_neighbors gs r grid y x;
  let '(cellChanged, newState, newAge) :=
    apply_rules r cs cell neighbors stateSum in
  if cellChanged then
    ng ← grid_update st.1 y x
           (λ c, set_changed true (set_age newAge (set_state newState c)));
    Some (ng, st.2 ++ [mkPos x y])
  else
    ng ← grid_update st.1 y x (set_changed false);
    Some (ng, st.2).

Definition worker_loop (gs : GridSize) (r : Rules) (cs : ColorScheme)
    (grid : Grid) : option (Grid * list Pos) :=
  for_range (rows gs) (λ y,
    for_range (cols gs) (λ x, worker_body gs r cs grid y x))
    (JSON_copy grid, []).

Definition worker_onmessage (m : Msg) : option Response :=
  st ← worker_loop (msg_gridSize m) (msg_rules m) (msg_colorScheme m) (msg_grid m);
  Some (mkResponse st.1 st.2).

(** ** The main-thread fallback of [computeNextGeneration] (lines 366-454)

    The same rules, written against [newGrid] directly: the branches
    assign to, and read back from, the properties of [newGrid[y][x]]. *)

Definition clear_cell (c : Cell) : Cell := set_age 0 (set_state (JNum 0) c).

Definition fallback_body (gs : GridSize) (r : Rules) (cs : ColorScheme)
    (grid : Grid) (y x : Z) (ng : Grid) : option Grid :=
  cell ← grid_get grid y x;
  '(neighbors, stateSum) ← count_neighbors gs r grid y x;
  '(ng, cellChanged) ←
    match positive (state cell) with
    | Some s =>
      if (surviveMin r <=? neighbors) && (neighbors <=? surviveMax r) then
        '(ng, cellChanged) ←
          (if 1 <? states r then
             let nextState := next_state s (states r) in
             if differs_from nextState s then
               ng ← grid_update ng y x (set_state (JNum nextState));
               Some (ng, true)
             else Some (ng, false)
           else Some (ng, false));
        (* newGrid[y][x].age += 1 *)
        ng ← grid_update ng y x (λ c, set_age (age c + 1) c);
        c' ← grid_get ng y x;
        Some (ng, cellChanged || negb (age cell =? age c'))
      else
        ng ←
          (if trailEffect cs then
             ng ← grid_update ng y x (set_age (age cell + 1));
             c' ← grid_get ng y x;
             if trailLength cs <? age c' then grid_update ng y x clear_cell
             else Some ng
           else grid_update ng y x clear_cell);
        Some (ng, true)
    | None =>
      if (birthMin r <=? neighbors) && (neighbors <=? birthMax r) then
        let newState :=
          if 1 <? states r then birth_average stateSum neighbors (states r)
          else JNum 1 in
        ng ← grid_update ng y x (λ c, set_age 0 (set_state newState c));
        Some (ng, true)
      else Some (ng, false)
    end;
  grid_update ng y x (set_changed cellChanged).

Definition fallback_loop (gs : GridSize) (r : Rules) (cs : ColorScheme)
    (grid : Grid) : option Grid :=
  for_range (rows gs) (λ y,
    for_range (cols gs) (λ x, fallback_body gs r cs grid y x))
    (JSON_copy grid).

(** [computeNextGeneration]: the grid handed to [setGrid], by the worker's
    answer when there is a worker ([workerRef.current]), by the fallback
    otherwise. *)
Definition computeNextGeneration (hasWorker : bool) (gs : GridSize) (r : Rules)
    (cs : ColorScheme) (grid : Grid) : option Grid :=
  if hasWorker then newGrid <$> worker_onmessage (mkMsg grid r gs cs)
  else fallback_loop gs r cs grid.

(** ** Grid creation and edits *)

(** [initializeGrid] (lines 54-65). *)
Definition blank : Cell := mkCell (JNum 0) 0 [] false.

Definition initializeGrid (gs : GridSize) : Grid :=
  replicate (Z.to_nat (rows gs)) (replicate (Z.to_nat (cols gs)) blank).

Definition in_bounds (gs : GridSize) (y x : Z) : bool :=
  (0 <=? x) && (x <? cols gs) && (0 <=? y) && (y <? rows gs).

(** [handleCanvasClick] (lines 494-510), from the grid coordinates that
    [screenToGrid] returned: the grid afterwards. *)
Definition handleCanvasClick (isPanning : bool) (gs : GridSize) (r : Rules)
    (grid : Grid) (x y : Z) : option Grid :=
  if isPanning then Some grid
  else if in_bounds gs y x then
    grid_update grid y x
      (λ c, set_changed true (set_age 0 (set_state (cycle_state (state c) (states r)) c)))
  else Some grid.

(** [handleCanvasMouseDown] (lines 513-542); [panGesture] is
    [e.button === 2 || e.ctrlKey]. *)
Definition handleCanvasMouseDown (panGesture isRunning : bool) (gs : GridSize)
    (grid : Grid) (x y : Z) : option Grid :=
  if panGesture then Some grid
  else if isRunning then Some grid
  else if in_bounds gs y x then
    grid_update grid y x
      (λ c, set_changed true (set_age 0 (set_state (toggle_state (state c)) c)))
  else Some grid.

(** [patterns.glider] (lines 623-627). *)
Definition glider : list (list jsval) :=
  [ [JNum 0; JNum 1; JNum 0];
    [JNum 0; JNum 0; JNum 1];
    [JNum 1; JNum 1; JNum 1] ].

(** The body of the loops of [applyPattern], for the pattern cell
    [(y, x)]; a row shorter than the first one reads as [undefined]. *)
Definition applyPattern_body (gs : GridSize) (pattern : list (list jsval))
    (centerY centerX : Z) (y x : Z) (ng : Grid) : option Grid :=
  let gridY := centerY + y in
  let gridX := centerX + x in
  if (0 <=? gridY) && (gridY <? rows gs) && (0 <=? gridX) && (gridX <? cols gs) then
    prow ← at_index pattern y;
    grid_update ng gridY gridX
      (λ c, set_age 0 (set_state (default JUndefined (at_index prow x)) c))
  else Some ng.

(** [applyPattern] (lines 744-763): the grid handed to [setGrid].
    [pattern[0].length] throws on an empty pattern. *)
Definition applyPattern (gs : GridSize) (grid : Grid)
    (pattern : list (list jsval)) : option Grid :=
  row0 ← pattern !! 0%nat;
  let centerY := rows gs / 2 - Z.of_nat (length pattern) / 2 in
  let centerX := cols gs / 2 - Z.of_nat (length row0) / 2 in
  for_range (Z.of_nat (length pattern)) (λ y,
    for_range (Z.of_nat (length row0)) (λ x,
      applyPattern_body gs pattern centerY centerX y x))
    (JSON_copy grid).

(** [rulePresets.gameOfLife] and [rulePresets.multicolor] merged into the
    initial [rules], with the edges clipped. *)
Definition gameOfLife : Rules := mkRules 2 3 3 3 1 Moore false.
Definition multicolor : Rules := mkRules 2 3 3 3 5 Moore false.

(** The initial [colorScheme], and the same with a trail of [n]. *)
Definition defaultColors : ColorScheme :=
  mkColorScheme "#000000"
    ["#4ade80"; "#2563eb"; "#ec4899"; "#f59e0b"; "#8b5cf6"]%string
    false 5 false.
Definition withTrail (n : Z) : ColorScheme :=
  mkColorScheme (background defaultColors) (cellColors defaultColors) true n false.

(** ** The step as a transition on grids

    The reading of the step that the loops are checked against: every cell
    of the next grid is a function of the cell and of its neighbours in
    the grid the step started from. *)

(** A grid of [rows] rows of [cols] cells. *)
Definition wf_grid (gs : GridSize) (g : Grid) : Prop :=
  0 ≤ rows gs ∧ 0 ≤ cols gs ∧
  length g = Z.to_nat (rows gs) ∧
  Forall (λ row, length row = Z.to_nat (cols gs)) g.

Global Instance wf_grid_dec gs g : Decision (wf_grid gs g).
Proof. unfold wf_grid. apply _. Defined.

(** Where the neighbour at offset [d] of [(y, x)] lives: modulo the grid
    size on a torus, nowhere when the edges clip it. *)
Definition neighbor_at (gs : GridSize) (r : Rules) (y x : Z) (d : Z * Z)
  : option (Z * Z) :=
  let ny := y + d.1 in
  let nx := x + d.2 in
  if wrapping r then Some (ny `mod` rows gs, nx `mod` cols gs)
  else if in_bounds gs ny nx then Some (ny, nx)
  else None.

(** The state of the live neighbour at offset [d], if there is one. *)
Definition live_neighbor (gs : GridSize) (r : Rules) (grid : Grid) (y x : Z)
    (d : Z * Z) : option num :=
  p ← neighbor_at gs r y x d; c ← grid_get grid p.1 p.2; positive (state c).

(** The states of the live neighbours of [(y, x)]. *)
Definition neighbor_states (gs : GridSize) (r : Rules) (grid : Grid) (y x : Z)
  : list num :=
  omap (live_neighbor gs r grid y x) (directions (neighborhood r)).

Definition neighborCount (gs : GridSize) (r : Rules) (grid : Grid) (y x : Z) : Z :=
  Z.of_nat (length (neighbor_states gs r grid y x)).

Definition neighborSum (gs : GridSize) (r : Rules) (grid : Grid) (y x : Z) : num :=
  foldr num_add (Fin 0) (neighbor_states gs r grid y x).

(** The cell of the next grid, from the outcome of the rules. *)
Definition write_back (cell : Cell) (res : bool * jsval * Z) : Cell :=
  let '(cellChanged, newState, newAge) := res in
  if cellChanged then mkCell newState newAge (previousStates cell) true
  else set_changed false (JSON_cell cell).

(** Where the two implementations part.  The worker assigns [newState],
    which starts as the [cell.state] it read in [grid] (line 125); the
    fallback assigns a state only where the rules compute a new one, and
    otherwise leaves the state of the copy in [newGrid].  The two differ
    for the one living state that the copy does not keep: where the worker
    writes [Infinity] back, the fallback has the [null] of the copy. *)
Definition lose_infinity (c : Cell) : Cell :=
  match state c with
  | JInfinity => set_state JNull c
  | _ => c
  end.

Definition as_written (hasWorker : bool) (c : Cell) : Cell :=
  if hasWorker then c else lose_infinity c.

(** The cell of Grid(t+1) at [(y, x)], by the worker ([hasWorker]) or by
    the fallback. *)
Definition next_cell (hasWorker : bool) (gs : GridSize) (r : Rules)
    (cs : ColorScheme) (grid : Grid) (y x : Z) (cell : Cell) : Cell :=
  as_written hasWorker
    (write_back cell
       (apply_rules r cs cell (neighborCount gs r grid y x) (neighborSum gs r grid y x))).

(** Grid(t+1): [next_cell] at every cell of Grid(t), all at once. *)
Definition step (hasWorker : bool) (gs : GridSize) (r : Rules) (cs : ColorScheme)
    (grid : Grid) : Grid :=
  imap (λ y row,
    imap (λ x cell, next_cell hasWorker gs r cs grid (Z.of_nat y) (Z.of_nat x) cell) row)
    grid.

(** The cells of a [rows] by [cols] grid, row by row. *)
Definition positions (gs : GridSize) : list (Z * Z) :=
  y ← seqZ 0 (rows gs); x ← seqZ 0 (cols gs); [(y, x)].

(** The [{ x, y }] of the cells flagged [changed], row by row. *)
Definition changed_positions (gs : GridSize) (g : Grid) : list Pos :=
  omap (λ p, c ← grid_get g p.1 p.2;
             if changed c then Some (mkPos p.2 p.1) else None)
       (positions gs).

(** [n] ticks. *)
Definition ticks (hasWorker : bool) (gs : GridSize) (r : Rules) (cs : ColorScheme)
    (n : nat) (grid : Grid) : Grid :=
  Nat.iter n (step hasWorker gs r cs) grid.

(** ** Grids as two-dimensional arrays *)

(** The grid with the cell object at [(y, x)] replaced. *)
Definition grid_put (g : Grid) (y x : Z) (v : Cell) : Grid :=
  if decide (0 ≤ y ∧ 0 ≤ x) then
    alter (λ row : list Cell, <[Z.to_nat x := v]> row) (Z.to_nat y) g
  else g.

(** The lengths of the rows. *)
Definition shape (g : Grid) : list nat := length <$> g.

(** The cells of [l] have not been written yet: [ng] still holds the
    copies made from [g] there. *)
Definition untouched (g : Grid) (l : list (Z * Z)) (ng : Grid) : Prop :=
  ∀ p cell c, p ∈ l → grid_get g p.1 p.2 = Some cell →
              grid_get ng p.1 p.2 = Some c → c = JSON_cell cell.

(** The entry of [changedCells] for the cell [p] of [g], if it is flagged. *)
Definition changed_entry (g : Grid) (p : Z * Z) : option Pos :=
  c ← grid_get g p.1 p.2; if changed c then Some (mkPos p.2 p.1) else None.

(** [newGrid] once the cells of [done] are through, in either
    implementation, and the state of the worker's loops. *)
Definition loop_inv (hasWorker : bool) (gs : GridSize) (r : Rules)
    (cs : ColorScheme) (g : Grid) (done : list (Z * Z)) (ng : Grid) : Prop :=
  shape ng = shape g ∧
  ∀ y x, grid_get ng y x =
         (if bool_decide ((y, x) ∈ done) then next_cell hasWorker gs r cs g y x
          else JSON_cell) <$> grid_get g y x.

Definition worker_inv (gs : GridSize) (r : Rules) (cs : ColorScheme) (g : Grid)
    (done : list (Z * Z)) (st : Grid * list Pos) : Prop :=
  loop_inv true gs r cs g done st.1 ∧
  st.2 = omap (changed_entry (step true gs r cs g)) done.

(** ** Running the engine *)

(** [n] ticks of the scheduler: each one hands the grid to
    [computeNextGeneration] and keeps what [setGrid] receives. *)
Fixpoint run (hasWorker : bool) (gs : GridSize) (r : Rules) (cs : ColorScheme)
    (n : nat) (g : Grid) : option Grid :=
  match n with
  | O => Some g
  | S n' => g' ← computeNextGeneration hasWorker gs r cs g; run hasWorker gs r cs n' g'
  end.

(** ** The vocabulary of the specification *)

(** [clamp(v, lo, hi)]. *)
Definition clamp (v lo hi : Z) : Z :=
  if v <? lo then lo else if hi <? v then hi else v.

(** The cell invariant: [0 <= state <= states] and [age >= 0]. *)
Definition cell_ok (r : Rules) (c : Cell) : Prop :=
  ∃ z, state c = JNum z ∧ 0 ≤ z ≤ states r ∧ 0 ≤ age c.

Definition grid_ok (r : Rules) (g : Grid) : Prop :=
  ∀ y x c, grid_get g y x = Some c → cell_ok r c.

(** A grid of one dead cell, and rules whose birth range starts at 0. *)
Definition lone_dead : Grid := [[blank]].
Definition one_by_one : GridSize := mkGridSize 1 1.
Definition birth_at_zero : Rules := mkRules 2 3 0 3 2 Moore false.

(** The glider stamped on a blank 8 by 8 grid: it lands on rows and
    columns 3 to 5. *)
Definition eight : GridSize := mkGridSize 8 8.
Definition centered_glider : Grid :=
  default [] (applyPattern eight (initializeGrid eight) glider).

(** A dead cell between a cell in state 1 and a cell in state 3, and rules
    with five states under which two neighbours give birth. *)
Definition one_and_three : Grid :=
  [[mkCell (JNum 1) 0 [] false; blank; mkCell (JNum 3) 0 [] false]].
Definition one_by_three : GridSize := mkGridSize 3 1.
Definition birth_at_two : Rules := mkRules 2 3 2 3 5 Moore false.

(** ** The claims of the specification that the code does not meet *)

(** The neighbour count of [(y, x)] keeps a live cell alive. *)
Definition in_survive_range (gs : GridSize) (r : Rules) (g : Grid) (y x : Z) : Prop :=
  surviveMin r ≤ neighborCount gs r g y x ≤ surviveMax r.

(** Trail decay as the specification has it, for the cell [(y, x)] with
    [g] as Grid(T-1), so that [ticks k g] is Grid(T-1+k): alive at T-1 and
    outside the survive range at tick T, the cell has a nonzero state at
    T+1, T+2 and T+3, the state it had and an age one higher each tick
    while it persists, and state and age 0 at T+4. *)
Definition trail_decay_claim (hasWorker : bool) (gs : GridSize) (r : Rules)
    (cs : ColorScheme) (g : Grid) (y x : Z) : Prop :=
  ∀ c0, grid_get g y x = Some c0 →
    is_Some (positive (state c0)) →
    ¬ in_survive_range gs r g y x →
    (∀ k, (2 ≤ k ≤ 4)%nat →
       ∃ c, grid_get (ticks hasWorker gs r cs k g) y x = Some c ∧
            state c ≠ JNum 0 ∧ state c = state c0 ∧ age c = age c0 + Z.of_nat k) ∧
    (∃ c, grid_get (ticks hasWorker gs r cs 5 g) y x = Some c ∧
          state c = JNum 0 ∧ age c = 0).

(** A grid of one live cell, just born. *)
Definition lone_live : Grid := [[mkCell (JNum 1) 0 [] false]].

(** An uncaught exception. *)
Definition raises {A : Type} (o : option A) : Prop := o = None.

(** Bounds enforcement as the specification has it: an edit outside the
    grid raises an error. *)
Definition out_of_bounds_claim (gs : GridSize) (r : Rules) (g : Grid) (x y : Z)
  : Prop :=
  in_bounds gs y x = false →
  raises (handleCanvasClick false gs r g x y) ∧
  raises (handleCanvasMouseDown false false gs g x y).

(** Where [applyPattern] puts the pattern, and what it reads at the
    pattern cell [(py, px)]. *)
Definition centerY (gs : GridSize) (pattern : list (list jsval)) : Z :=
  rows gs / 2 - Z.of_nat (length pattern) / 2.
Definition centerX (gs : GridSize) (pattern : list (list jsval)) : Z :=
  cols gs / 2 - Z.of_nat (length (default [] (pattern !! 0%nat))) / 2.
Definition pattern_value (pattern : list (list jsval)) (py px : Z) : jsval :=
  default JUndefined (prow ← at_index pattern py; at_index prow px).

(** The pattern covers the grid cell [(y, x)]. *)
Definition covered (gs : GridSize) (pattern : list (list jsval)) (y x : Z) : bool :=
  bool_decide (0 ≤ y - centerY gs pattern < Z.of_nat (length pattern) ∧
               0 ≤ x - centerX gs pattern
                 < Z.of_nat (length (default [] (pattern !! 0%nat)))).

(** Stamping as the specification has it: a numeric pattern value lands
    in the grid clamped to [0, states]. *)
Definition stamp_clamps_claim (r : Rules) (gs : GridSize) (g : Grid)
    (pattern : list (list jsval)) : Prop :=
  ∀ g' y x z c,
    applyPattern gs g pattern = Some g' →
    covered gs pattern y x = true →
    pattern_value pattern (y - centerY gs pattern) (x - centerX gs pattern) = JNum z →
    grid_get g' y x = Some c →
    state c = JNum (clamp z 0 (states r)).

(** What stamping makes of the copied cell [c] at [(y, x)]. *)
Definition stamped (gs : GridSize) (pattern : list (list jsval)) (y x : Z)
    (c : Cell) : Cell :=
  if covered gs pattern y x then
    mkCell (pattern_value pattern (y - centerY gs pattern) (x - centerX gs pattern))
           0 (previousStates c) (changed c)
  else c.

(** The state of the loops of [applyPattern] once the pattern cells of
    [done] are through. *)
Definition stamp_inv (gs : GridSize) (pattern : list (list jsval)) (g : Grid)
    (done : list (Z * Z)) (ng : Grid) : Prop :=
  shape ng = shape g ∧
  ∀ y x, grid_get ng y x =
         (λ c, if bool_decide ((y - centerY gs pattern, x - centerX gs pattern) ∈ done)
               then mkCell (pattern_value pattern (y - centerY gs pattern)
                                                  (x - centerX gs pattern))
                           0 (previousStates c) (changed c)
               else c) <$> (JSON_cell <$> grid_get g y x).

(** The size of a pattern, as a grid size. *)
Definition pattern_size (pattern : list (list jsval)) : GridSize :=
  mkGridSize (Z.of_nat (length (default [] (pattern !! 0%nat))))
             (Z.of_nat (length pattern)).

(** ** Conway's Game of Life on the unbounded plane *)

(** A configuration: which cells of the plane are alive. *)
Definition life_count (f : Z → Z → bool) (a b : Z) : Z :=
  foldr (λ d n, Z.b2z (f (a + d.1) (b + d.2)) + n) 0 (directions Moore).

(** Survive on 2 or 3 neighbours, be born on 3. *)
Definition life (f : Z → Z → bool) (a b : Z) : bool :=
  let n := life_count f a b in
  if f a b then (2 <=? n) && (n <=? 3) else n =? 3.

(** The live cells of [patterns.glider], with its top left corner at the
    origin, and at [(r0, c0)]. *)
Definition glider_shape (a b : Z) : bool :=
  match pattern_value glider a b with JNum 1 => true | _ => false end.

Definition glider_at (r0 c0 : Z) (y x : Z) : bool := glider_shape (y - r0) (x - c0).

(** The grid [g] holds the configuration [f]: state 1 on its live cells,
    state 0 elsewhere. *)
Definition shows (g : Grid) (f : Z → Z → bool) : Prop :=
  ∀ y x c, grid_get g y x = Some c → state c = JNum (Z.b2z (f y x)).

(** The grid [g] displays the configuration [f]: it has its [rows] by
    [cols] cells, each in state 1 where [f] is alive and in state 0 where
    it is not, and [f] has no live cell off the grid. *)
Definition displays (gs : GridSize) (g : Grid) (f : Z → Z → bool) : Prop :=
  wf_grid gs g ∧
  (∀ y x, 0 ≤ y < rows gs → 0 ≤ x < cols gs →
          ∃ c, grid_get g y x = Some c ∧ state c = JNum (Z.b2z (f y x))) ∧
  (∀ y x, f y x = true → 0 ≤ y < rows gs ∧ 0 ≤ x < cols gs).

(** A generation of Life on the board of the grid: the cells off the
    grid stay dead. *)
Definition life_on (gs : GridSize) (f : Z → Z → bool) (a b : Z) : bool :=
  in_bounds gs a b && life f a b.

(** All live cells of [f] have their coordinates between [lo] and [hi]. *)
Definition supported (lo hi : Z) (f : Z → Z → bool) : Prop :=
  ∀ a b, f a b = true → lo ≤ a ≤ hi ∧ lo ≤ b ≤ hi.

(** The square of the cells with coordinates from [lo] to [hi]. *)
Definition box (lo hi : Z) : list (Z * Z) :=
  a ← seqZ lo (hi - lo + 1); b ← seqZ lo (hi - lo + 1); [(a, b)].

(** The glider after [n] generations, with its corner at the origin, and
    at [(r0, c0)]. *)
Definition glider_gen (n : nat) : Z → Z → bool := Nat.iter n life glider_shape.

Definition glider_placed (r0 c0 : Z) (n : nat) (y x : Z) : bool :=
  glider_gen n (y - r0) (x - c0).

(** The two checks run on the cells around the glider: generation [n]
    has no live cell outside the 4 by 4 square at the corner, and
    generation 4 is the first one moved by (1, 1). *)
Definition stays_inside (n : nat) (a b : Z) : bool :=
  implb (glider_gen n a b) ((0 <=? a) && (a <=? 3) && (0 <=? b) && (b <=? 3)).

Definition moved_by_one (a b : Z) : bool :=
  eqb (glider_gen 4 a b) (glider_shape (a - 1) (b - 1)).

(** The check behind [shows], cell by cell. *)
Definition shows_at (g : Grid) (f : Z → Z → bool) (p : Z * Z) : bool :=
  match grid_get g p.1 p.2 with
  | Some c => bool_decide (state c = JNum (Z.b2z (f p.1 p.2)))
  | None => true
  end.

(** * More of [src/main.js] *)

(** ** More vocabulary for the step *)

(** No cell of the grid is alive. *)
Definition all_dead (g : Grid) : Prop :=
  ∀ y x c, grid_get g y x = Some c → positive (state c) = None.

(** The state or the age of the cell differs between [c] and [c']. *)
Definition differs (c c' : Cell) : Prop := state c' ≠ state c ∨ age c' ≠ age c.

(** Every cell of the grid holds an integer state. *)
Definition int_states (g : Grid) : Prop :=
  ∀ y x c, grid_get g y x = Some c → ∃ z, state c = JNum z.

(** No cell of the grid holds the state [Infinity]. *)
Definition no_infinity (g : Grid) : Prop :=
  ∀ y x c, grid_get g y x = Some c → state c ≠ JInfinity.

(** The grid moved cyclically: the cell [(y, x)] of the result is the cell
    [(y + dy, x + dx)] of [g], modulo the grid size. *)
Definition shift_grid (gs : GridSize) (dy dx : Z) (g : Grid) : Grid :=
  imap (λ y row,
    imap (λ x c,
      default c (grid_get g ((Z.of_nat y + dy) `mod` rows gs)
                            ((Z.of_nat x + dx) `mod` cols gs))) row) g.

(** ** Drawing with the mouse *)

(** [currentState === 0 ? 1 : 0] as a number: the argument of
    [setDrawMode] in [handleCanvasMouseDown]. *)
Definition draw_mode_of (v : jsval) : Z :=
  match v with
  | JNum 0 => 1
  | _ => 0
  end.

(** The draw mode after [handleCanvasMouseDown] (lines 513-542). *)
Definition mouseDown_drawMode (panGesture isRunning : bool) (gs : GridSize)
    (grid : Grid) (drawMode : Z) (x y : Z) : Z :=
  if panGesture then drawMode
  else if isRunning then drawMode
  else if in_bounds gs y x then
    match grid_get grid y x with
    | Some c => draw_mode_of (state c)
    | None => drawMode
    end
  else drawMode.

(** [drawMode ? 1 : 0]. *)
Definition draw_target (drawMode : Z) : Z := if drawMode =? 0 then 0 else 1.

(** [handleCanvasMouseMove] (lines 544-577): the grid afterwards.  The
    panning branch calls [constrainPan], which the file never defines: a
    [ReferenceError]. *)
Definition handleCanvasMouseMove (isPanning isDrawing isRunning : bool)
    (gs : GridSize) (grid : Grid) (drawMode : Z) (x y : Z) : option Grid :=
  if isPanning then None
  else if negb isDrawing || isRunning then Some grid
  else if in_bounds gs y x then
    c ← grid_get grid y x;
    if bool_decide (state c = JNum (draw_target drawMode)) then Some grid
    else
      grid_update grid y x
        (λ c, set_changed true (set_age 0 (set_state (JNum (draw_target drawMode)) c)))
  else Some grid.

(** A stroke while the simulation is paused: the button goes down at
    [(x0, y0)], then the pointer moves over [moves] (pairs [(x, y)]), all
    with [isDrawing] set by the mouse-down.  The grid and the draw mode at
    the end. *)
Definition stroke (gs : GridSize) (grid : Grid) (drawMode : Z) (x0 y0 : Z)
    (moves : list (Z * Z)) : option (Grid * Z) :=
  g1 ← handleCanvasMouseDown false false gs grid x0 y0;
  let mode := mouseDown_drawMode false false gs grid drawMode x0 y0 in
  g2 ← for_each moves
         (λ p g, handleCanvasMouseMove false true false gs g mode p.1 p.2) g1;
  Some (g2, mode).

(** [n] clicks on the cell [(x, y)]. *)
Fixpoint clicks (n : nat) (gs : GridSize) (r : Rules) (grid : Grid) (x y : Z)
  : option Grid :=
  match n with
  | O => Some grid
  | S n' => g ← handleCanvasClick false gs r grid x y; clicks n' gs r g x y
  end.

(** What a stroke in mode [m] may have done to the cell [c]: nothing, or
    painted it. *)
Definition painted (m : Z) (c c' : Cell) : Prop :=
  c' = c ∨ c' = mkCell (JNum m) 0 (previousStates c) true.

(** ** Patterns *)

(** A rectangular pattern whose entries are states of the rules [r]. *)
Definition pattern_ok (r : Rules) (pattern : list (list jsval)) : Prop :=
  Forall (λ prow,
    length prow = length (default [] (pattern !! 0%nat)) ∧
    Forall (λ v, ∃ z, v = JNum z ∧ 0 ≤ z ≤ states r) prow) pattern.

(** ** Pattern export and import (lines 875-934) *)

(** [for (let i = lo; i <= hi; i++) body]. *)
Definition for_from_to {S : Type} (lo hi : Z) (body : Z → S → option S) (s : S)
  : option S :=
  for_each (seqZ lo (hi - lo + 1)) body s.

(** [minX], [minY], [maxX] and [maxY] of [exportCurrentPattern]. *)
Record Bounds := mkBounds { minX : Z; minY : Z; maxX : Z; maxY : Z }.

(** The body of the scan (lines 888-893). *)
Definition bounds_body (grid : Grid) (y x : Z) (b : Bounds) : option Bounds :=
  c ← grid_get grid y x;
  Some (match positive (state c) with
        | Some _ => mkBounds (Z.min (minX b) x) (Z.min (minY b) y)
                             (Z.max (maxX b) x) (Z.max (maxY b) y)
        | None => b
        end).

(** The scan for the pattern bounds (lines 880-895). *)
Definition pattern_bounds (gs : GridSize) (grid : Grid) : option Bounds :=
  for_range (rows gs) (λ y, for_range (cols gs) (λ x, bounds_body grid y x))
    (mkBounds (cols gs) (rows gs) 0 0).

(** One [row] of [patternData] (lines 899-902). *)
Definition extract_row (grid : Grid) (lo hi : Z) (y : Z) : option (list jsval) :=
  for_from_to lo hi (λ x row, c ← grid_get grid y x; Some (row ++ [state c])) [].

(** An element of an array through [JSON.parse(JSON.stringify(...))]:
    [NaN], [Infinity], [-Infinity], [null] and [undefined] all come back
    as [null]. *)
Definition JSON_elem (v : jsval) : jsval :=
  match v with
  | JNum z => JNum z
  | JNaN | JInfinity | JNegInfinity | JNull | JUndefined => JNull
  end.

Definition JSON_matrix (p : list (list jsval)) : list (list jsval) :=
  (λ prow : list jsval, JSON_elem <$> prow) <$> p.

(** [exportCurrentPattern]: the content of the downloaded file, as the
    value that [JSON.parse] reads back from it. *)
Definition exportCurrentPattern (gs : GridSize) (grid : Grid)
  : option (list (list jsval)) :=
  b ← pattern_bounds gs grid;
  patternData ← for_from_to (minY b) (maxY b) (λ y patternData,
                  row ← extract_row grid (minX b) (maxX b) y;
                  Some (patternData ++ [row])) [];
  Some (JSON_matrix patternData).

(** [reader.onload] of [importPattern] for a file that holds an array of
    arrays of numbers or [null]: the grid afterwards.  An empty array
    fails the guard of line 926; an exception in [applyPattern] is caught
    at line 929 before [setGrid] was reached. *)
Definition importPattern (gs : GridSize) (grid : Grid)
    (pattern : list (list jsval)) : Grid :=
  match pattern with
  | [] => grid
  | _ => default grid (applyPattern gs grid pattern)
  end.

(** The cell at [(y, x)] exists and is alive ([state > 0]). *)
Definition live_at (g : Grid) (y x : Z) : Prop :=
  ∃ c, grid_get g y x = Some c ∧ is_Some (positive (state c)).

(** [b] is the bounding box of the living cells of [g]: it holds them all
    and each of its four sides touches one. *)
Definition bounding_box (g : Grid) (b : Bounds) : Prop :=
  (∀ y x, live_at g y x → minX b ≤ x ≤ maxX b ∧ minY b ≤ y ≤ maxY b) ∧
  (∃ y, live_at g y (minX b)) ∧ (∃ y, live_at g y (maxX b)) ∧
  (∃ x, live_at g (minY b) x) ∧ (∃ x, live_at g (maxY b) x).

(** The state read at [(y, x)]. *)
Definition state_at (g : Grid) (y x : Z) : jsval :=
  default JUndefined (state <$> grid_get g y x).

(** The states of the cells of the box [b], row by row. *)
Definition box_states (g : Grid) (b : Bounds) : list (list jsval) :=
  (λ y, (λ x, state_at g y x) <$> seqZ (minX b) (maxX b - minX b + 1))
    <$> seqZ (minY b) (maxY b - minY b + 1).

(** What the scan knows once the positions of [done] are through. *)
Definition bounds_inv (gs : GridSize) (g : Grid) (done : list (Z * Z))
    (b : Bounds) : Prop :=
  (∀ y x, (y, x) ∈ done → live_at g y x →
          minX b ≤ x ≤ maxX b ∧ minY b ≤ y ≤ maxY b) ∧
  (minX b = cols gs ∨ ∃ y x, (y, x) ∈ done ∧ live_at g y x ∧ x = minX b) ∧
  (minY b = rows gs ∨ ∃ y x, (y, x) ∈ done ∧ live_at g y x ∧ y = minY b) ∧
  (maxX b = 0 ∨ ∃ y x, (y, x) ∈ done ∧ live_at g y x ∧ x = maxX b) ∧
  (maxY b = 0 ∨ ∃ y x, (y, x) ∈ done ∧ live_at g y x ∧ y = maxY b).

Definition box_width (b : Bounds) : Z := maxX b - minX b + 1.
Definition box_height (b : Bounds) : Z := maxY b - minY b + 1.

(** The file exported from the box [b] of [g], and the grid that importing
    it on a cleared grid gives. *)
Definition exported (g : Grid) (b : Bounds) : list (list jsval) :=
  JSON_matrix (box_states g b).
Definition reimported (gs : GridSize) (g : Grid) (b : Bounds) : Grid :=
  importPattern gs (initializeGrid gs) (exported g b).

(** Where [applyPattern] puts a pattern of the size of [b]. *)
Definition centred_box (gs : GridSize) (b : Bounds) : Bounds :=
  let cx := cols gs / 2 - box_width b / 2 in
  let cy := rows gs / 2 - box_height b / 2 in
  mkBounds cx cy (cx + box_width b - 1) (cy + box_height b - 1).

(** ** Rule presets (lines 766-781) *)

(** The five properties that a preset sets. *)
Record Preset : Type := mkPreset {
  p_surviveMin : Z;
  p_surviveMax : Z;
  p_birthMin : Z;
  p_birthMax : Z;
  p_states : Z
}.

Definition rulePresets : list (string * Preset) :=
  [ ("gameOfLife", mkPreset 2 3 3 3 1);
    ("dayAndNight", mkPreset 3 6 3 6 1);
    ("seeds", mkPreset 0 0 2 2 1);
    ("serviettes", mkPreset 0 0 2 4 1);
    ("coral", mkPreset 4 8 3 3 1);
    ("maze", mkPreset 1 5 3 3 1);
    ("multicolor", mkPreset 2 3 3 3 5) ]%string.

(** [obj[key]] on an object literal. *)
Fixpoint property {A : Type} (obj : list (string * A)) (key : string) : option A :=
  match obj with
  | [] => None
  | (k, v) :: obj' => if String.eqb k key then Some v else property obj' key
  end.

(** [applyRulePreset]: the rules after [{ ...prev, ...rulePresets[preset] }];
    spreading [undefined] adds nothing. *)
Definition applyRulePreset (preset : string) (prev : Rules) : Rules :=
  match property rulePresets preset with
  | Some p => mkRules (p_surviveMin p) (p_surviveMax p) (p_birthMin p)
                      (p_birthMax p) (p_states p)
                      (neighborhood prev) (wrapping prev)
  | None => prev
  end.

(** ** The cell size (lines 208-230) *)

(** [newCellSize] of [handleResize] for a container of [width] by [height]
    pixels; [clientWidth] and [clientHeight] are integers, and for
    integers [Math.floor(a / b)] is the quotient rounded down. *)
Definition newCellSize (gs : GridSize) (width height : Z) : Z :=
  let widthConstraint := width / cols gs in
  let heightConstraint := height / rows gs in
  Z.max 2 (Z.min widthConstraint heightConstraint).

(** ** Drawing (lines 241-349) *)

(** What [drawGrid] paints on the cleared canvas, cell rectangle by cell
    rectangle: [fillRect] on the cell [(x, y)] with [fillStyle] the
    background, or [cellColors[colorIndex]].  The opacity is left out. *)
Inductive DrawOp : Type :=
  | FillBackground (x y : Z)
  | FillCell (x y : Z) (colorIndex : Z).

(** [Math.min(cell.state, colorScheme.cellColors.length) - 1]. *)
Definition colorIndex (cs : ColorScheme) (s : num) : Z :=
  match s with
  | Fin z => Z.min z (Z.of_nat (length (cellColors cs))) - 1
  | Inf => Z.of_nat (length (cellColors cs)) - 1
  end.

(** Lines 273-291: the cell is drawn if it is alive. *)
Definition draw_visible (cs : ColorScheme) (x y : Z) (cell : Cell) : list DrawOp :=
  match positive (state cell) with
  | Some s => [FillCell x y (colorIndex cs s)]
  | None => []
  end.

(** Lines 299-321: a cell flagged [changed] is cleared, then drawn if it
    is alive. *)
Definition draw_changed (cs : ColorScheme) (x y : Z) (cell : Cell) : list DrawOp :=
  if changed cell then FillBackground x y :: draw_visible cs x y cell else [].

(** [for (let i = lo; i < hi; i++) body]. *)
Definition for_from_below {S : Type} (lo hi : Z) (body : Z → S → option S) (s : S)
  : option S :=
  for_each (seqZ lo (hi - lo)) body s.

(** The loops of [drawGrid] over the viewport: the rectangles painted
    after the canvas was cleared and filled with the background. *)
Definition drawGrid (shouldDrawAll : bool) (cs : ColorScheme) (grid : Grid)
    (viewportLeft viewportTop viewportRight viewportBottom : Z)
  : option (list DrawOp) :=
  for_from_below viewportTop viewportBottom (λ y,
    for_from_below viewportLeft viewportRight (λ x ops,
      cell ← grid_get grid y x;
      Some (ops ++ (if shouldDrawAll then draw_visible cs x y cell
                    else draw_changed cs x y cell)))) [].

(** The canvas: the colour index shown at each cell, [None] for the
    background. *)
Definition paint (canvas : Z → Z → option Z) (op : DrawOp) : Z → Z → option Z :=
  λ y x,
    match op with
    | FillBackground x' y' =>
        if bool_decide (x = x' ∧ y = y') then None else canvas y x
    | FillCell x' y' i =>
        if bool_decide (x = x' ∧ y = y') then Some i else canvas y x
    end.

Definition canvas_after (ops : list DrawOp) : Z → Z → option Z :=
  foldl paint (λ _ _, None) ops.

(** The colour index of the living cell at [(y, x)]. *)
Definition shown (cs : ColorScheme) (g : Grid) (y x : Z) : option Z :=
  c ← grid_get g y x; s ← positive (state c); Some (colorIndex cs s).

(** The cells of the viewport, row by row. *)
Definition viewport (left top right bottom : Z) : list (Z * Z) :=
  y ← seqZ top (bottom - top); x ← seqZ left (right - left); [(y, x)].

(** The rectangles painted for one cell, and the canvas once the cells of
    [done] are through. *)
Definition draw_cell (shouldDrawAll : bool) (cs : ColorScheme) (x y : Z)
    (cell : Cell) : list DrawOp :=
  if shouldDrawAll then draw_visible cs x y cell else draw_changed cs x y cell.

Definition pixel (shouldDrawAll : bool) (cs : ColorScheme) (g : Grid) (y x : Z)
  : option Z :=
  c ← grid_get g y x;
  if shouldDrawAll || changed c then s ← positive (state c); Some (colorIndex cs s)
  else None.

Definition draw_inv (shouldDrawAll : bool) (cs : ColorScheme) (g : Grid)
    (done : list (Z * Z)) (ops : list DrawOp) : Prop :=
  ∀ y x, canvas_after ops y x =
         if bool_decide ((y, x) ∈ done) then pixel shouldDrawAll cs g y x else None.

(** No cell of the grid is flagged [changed]. *)
Definition no_flags (g : Grid) : Prop :=
  ∀ y x c, grid_get g y x = Some c → changed c = false.

(** ** Random fill (lines 818-837) *)

(** [randomFill].  For the cell [(y, x)], [random y x] holds the outcome of
    [Math.random() < density] and the value of
    [Math.floor(Math.random() * rules.states)], which is only asked for
    when the first holds and there is more than one state. *)
Definition randomFill_body (r : Rules) (random : Z → Z → bool * Z) (y x : Z)
    (ng : Grid) : option Grid :=
  grid_update ng y x
    (λ c, set_age 0
            (set_state
               (if (random y x).1
                then (if 1 <? states r then JNum ((random y x).2 + 1) else JNum 1)
                else JNum 0) c)).

Definition randomFill (gs : GridSize) (r : Rules) (grid : Grid)
    (random : Z → Z → bool * Z) : option Grid :=
  for_range (rows gs) (λ y,
    for_range (cols gs) (λ x, randomFill_body r random y x))
    (JSON_copy grid).

(** The loops that assign to every cell once, when the cells of [done]
    are through. *)
Definition update_inv (f : Z → Z → Cell → Cell) (g : Grid)
    (done : list (Z * Z)) (ng : Grid) : Prop :=
  shape ng = shape g ∧
  ∀ y x, grid_get ng y x =
         (λ c, if bool_decide ((y, x) ∈ done) then f y x c else c) <$> grid_get g y x.

(** ** More grids and rules to run the definitions on *)

(** The [rules] the component starts with (lines 26-36): Conway's rules on
    the torus. *)
Definition initialRules : Rules := mkRules 2 3 3 3 1 Moore true.

(** A block, the 2 by 2 still life, in the middle of a 4 by 4 grid. *)
Definition four : GridSize := mkGridSize 4 4.
Definition alive : Cell := mkCell (JNum 1) 0 [] false.
Definition block : Grid :=
  [ [blank; blank; blank; blank];
    [blank; alive; alive; blank];
    [blank; alive; alive; blank];
    [blank; blank; blank; blank] ].

(** The grid of the component: 100 by 100 (line 6). *)
Definition hundred : GridSize := mkGridSize 100 100.

(** What importing the file [[[1e999]]] on the blank grid leaves:
    [JSON.parse] reads the number as [Infinity], and [applyPattern] assigns
    it to the cell at (50, 50). *)
Definition lone_infinity : Grid :=
  importPattern hundred (initializeGrid hundred) [[JInfinity]].

(** The same for the file [[[1e999, 1], [1, 1]]]: a block on the rows and
    columns 49 and 50, whose corner at (49, 49) holds [Infinity]. *)
Definition infinity_block : list (list jsval) :=
  [ [JInfinity; JNum 1];
    [JNum 1; JNum 1] ].
Definition imported_infinity : Grid :=
  importPattern hundred (initializeGrid hundred) infinity_block.

(** * Properties *)

(** ** The model on small inputs *)

Example Math_round_half_up : Math_round (5 # 2) = 3 ∧ Math_round (-5 # 2) = -2.
Proof. split; reflexivity. Qed.

Example Math_round_thirds : Math_round (7 # 3) = 2 ∧ Math_round (8 # 3) = 3.
Proof. split; reflexivity. Qed.

Example cycle_state_wraps :
  cycle_state (JNum 0) 2 = JNum 1 ∧ cycle_state (JNum 2) 2 = JNum 0 ∧
  cycle_state JNull 2 = JNum 1 ∧ cycle_state JNaN 2 = JNaN ∧
  cycle_state JInfinity 2 = JNaN.
Proof. repeat split; reflexivity. Qed.

(** The glider in the middle of the 8 by 8 grid, and the cells its first
    step touches: two deaths, two births and three survivors that age. *)
Example centered_glider_states :
  (λ row : list Cell, state <$> row) <$> centered_glider =
  (λ row : list Z, JNum <$> row) <$>
    [ [0;0;0;0;0;0;0;0]; [0;0;0;0;0;0;0;0]; [0;0;0;0;0;0;0;0];
      [0;0;0;0;1;0;0;0]; [0;0;0;0;0;1;0;0]; [0;0;0;1;1;1;0;0];
      [0;0;0;0;0;0;0;0]; [0;0;0;0;0;0;0;0] ].
Proof. reflexivity. Qed.

Example glider_first_step :
  changedCells <$> worker_onmessage (mkMsg centered_glider gameOfLife eight defaultColors)
  = Some [mkPos 4 3; mkPos 3 4; mkPos 5 4; mkPos 3 5; mkPos 4 5; mkPos 5 5; mkPos 4 6].
Proof. reflexivity. Qed.

(** A grid smaller than the announced size: the first access past its
    end throws. *)
Example worker_throws_on_short_grid :
  worker_onmessage (mkMsg lone_dead gameOfLife eight defaultColors) = None.
Proof. reflexivity. Qed.

(** ** Loops *)

Section loops.
Context {I S : Type}.
Implicit Types (l : list I) (body : I → S → option S) (s : S).

Lemma for_each_app l1 l2 body s :
  for_each (l1 ++ l2) body s = s' ← for_each l1 body s; for_each l2 body s'.
Proof.
  revert s. induction l1 as [|i l1 IH]; intros s; simpl; [done|].
  destruct (body i s) as [s'|]; simpl; auto.
Qed.

Lemma for_each_ext l body1 body2 s :
  (∀ i s, i ∈ l → body1 i s = body2 i s) →
  for_each l body1 s = for_each l body2 s.
Proof.
  revert s. induction l as [|i l IH]; intros s Hext; simpl; [done|].
  rewrite Hext by left. destruct (body2 i s) as [s'|]; simpl; [|done].
  apply IH. intros j t Hj. apply Hext. by right.
Qed.

(** A loop invariant indexed by the part of the list already visited. *)
Lemma for_each_invariant (P : list I → S → Prop) l body s :
  P [] s →
  (∀ done i rest s, l = done ++ i :: rest → P done s →
     ∃ s', body i s = Some s' ∧ P (done ++ [i]) s') →
  ∃ s', for_each l body s = Some s' ∧ P l s'.
Proof.
  intros H0 Hstep.
  assert (∀ rest done s, l = done ++ rest → P done s →
            ∃ s', for_each rest body s = Some s' ∧ P l s') as Hgen.
  { induction rest as [|i rest IH]; intros done t Hl Hdone; simpl.
    - exists t. rewrite app_nil_r in Hl. by subst.
    - destruct (Hstep done i rest t Hl Hdone) as (t' & -> & Ht'). simpl.
      apply (IH (done ++ [i])); [|done]. by rewrite <-app_assoc. }
  by apply (Hgen l []).
Qed.
End loops.

(** Two nested loops visit the pairs of the product, row by row. *)
Lemma for_each_nested {I J S : Type} (l : list I) (k : list J)
    (body : I → J → S → option S) (s : S) :
  for_each l (λ i, for_each k (body i)) s =
  for_each (i ← l; j ← k; [(i, j)]) (λ p, body p.1 p.2) s.
Proof.
  revert s. induction l as [|i l IH]; intros s; [done|].
  rewrite bind_cons, for_each_app. simpl.
  assert (∀ t, for_each (j ← k; [(i, j)]) (λ p, body p.1 p.2) t
               = for_each k (body i) t) as ->.
  { clear IH. induction k as [|j k IHk]; intros t; [done|].
    rewrite bind_cons. simpl. destruct (body i j t); simpl; auto. }
  destruct (for_each k (body i) s); simpl; auto.
Qed.

Lemma elem_of_positions gs y x :
  (y, x) ∈ positions gs ↔ 0 ≤ y < rows gs ∧ 0 ≤ x < cols gs.
Proof.
  unfold positions. rewrite list_elem_of_bind. split.
  - intros (y' & Hin & Hy'). apply list_elem_of_bind in Hin as (x' & Hin & Hx').
    apply list_elem_of_singleton in Hin. injection Hin as -> ->.
    apply elem_of_seqZ in Hy', Hx'. lia.
  - intros [Hy Hx]. exists y. split; [|apply elem_of_seqZ; lia].
    apply list_elem_of_bind. exists x. split; [by apply list_elem_of_singleton|].
    apply elem_of_seqZ; lia.
Qed.

Lemma NoDup_positions gs : NoDup (positions gs).
Proof.
  unfold positions. apply NoDup_bind.
  - intros y1 y2 p _ _ Hp1 Hp2.
    apply list_elem_of_bind in Hp1 as (x1 & Hp1 & _), Hp2 as (x2 & Hp2 & _).
    apply list_elem_of_singleton in Hp1, Hp2. congruence.
  - intros y _. apply NoDup_bind.
    + intros x1 x2 p _ _ Hp1 Hp2. apply list_elem_of_singleton in Hp1, Hp2. congruence.
    + intros x _. apply NoDup_singleton.
    + apply NoDup_seqZ.
  - apply NoDup_seqZ.
Qed.

(** ** Arrays and grids *)

Lemma at_index_Some {A} (l : list A) i a :
  at_index l i = Some a ↔ 0 ≤ i ∧ l !! Z.to_nat i = Some a.
Proof. unfold at_index. case_decide; [tauto|]. split; [done|tauto]. Qed.

Lemma at_index_of_nat {A} (l : list A) (n : nat) : at_index l (Z.of_nat n) = l !! n.
Proof. unfold at_index. rewrite decide_True by lia. by rewrite Nat2Z.id. Qed.

Lemma at_index_fmap {A B} (f : A → B) (l : list A) i :
  at_index (f <$> l) i = f <$> at_index l i.
Proof. unfold at_index. case_decide; [apply list_lookup_fmap|done]. Qed.

Lemma grid_get_Some g y x c :
  grid_get g y x = Some c ↔
  0 ≤ y ∧ 0 ≤ x ∧ ∃ row, g !! Z.to_nat y = Some row ∧ row !! Z.to_nat x = Some c.
Proof.
  unfold grid_get. rewrite bind_Some. setoid_rewrite at_index_Some. split.
  - intros (row & [Hy Hrow] & [Hx Hc]). eauto.
  - intros (Hy & Hx & row & Hrow & Hc). eauto.
Qed.

Lemma grid_get_neg g y x : ¬ (0 ≤ y ∧ 0 ≤ x) → grid_get g y x = None.
Proof.
  intros Hneg. destruct (grid_get g y x) as [c|] eqn:Hget; [|done].
  apply grid_get_Some in Hget. lia.
Qed.

Lemma grid_get_of_nat g (i j : nat) :
  grid_get g (Z.of_nat i) (Z.of_nat j) = row ← g !! i; row !! j.
Proof.
  unfold grid_get. rewrite at_index_of_nat.
  destruct (g !! i); simpl; [apply at_index_of_nat|done].
Qed.

Lemma grid_get_JSON_copy g y x :
  grid_get (JSON_copy g) y x = JSON_cell <$> grid_get g y x.
Proof.
  unfold grid_get, JSON_copy. rewrite at_index_fmap.
  destruct (at_index g y); simpl; [apply at_index_fmap|done].
Qed.

Lemma grid_update_Some g y x f c :
  grid_get g y x = Some c → grid_update g y x f = Some (grid_put g y x (f c)).
Proof.
  intros Hget. pose proof Hget as (Hy & Hx & row & Hrow & Hc)%grid_get_Some.
  unfold grid_update, grid_put, at_index.
  rewrite !decide_True by lia. rewrite Hrow. simpl.
  rewrite decide_True by lia. rewrite Hc. simpl. f_equal.
  rewrite list_insert_alter. apply list_alter_ext; [|done].
  intros row' Hrow'. congruence.
Qed.

Lemma grid_update_None g y x f :
  grid_get g y x = None → grid_update g y x f = None.
Proof.
  unfold grid_update, grid_get. destruct (at_index g y); simpl; [|done].
  by intros ->.
Qed.

Lemma grid_get_put_eq g y x v :
  is_Some (grid_get g y x) → grid_get (grid_put g y x v) y x = Some v.
Proof.
  intros [c (Hy & Hx & row & Hrow & Hc)%grid_get_Some].
  apply grid_get_Some. split_and!; [done..|].
  exists (<[Z.to_nat x := v]> row). unfold grid_put. rewrite decide_True by done.
  rewrite list_lookup_alter_eq, Hrow. split; [done|].
  apply list_lookup_insert_eq. by eapply lookup_lt_Some.
Qed.

Lemma grid_get_put_ne g y x v y' x' :
  (y, x) ≠ (y', x') → grid_get (grid_put g y x v) y' x' = grid_get g y' x'.
Proof.
  intros Hne. unfold grid_put. case_decide as Hpos; [|done].
  unfold grid_get, at_index.
  destruct (decide (0 ≤ y')) as [Hy'|]; [|done].
  destruct (decide (0 ≤ x')) as [Hx'|].
  - destruct (decide (Z.to_nat y = Z.to_nat y')) as [Hyy|Hyy].
    + rewrite <-Hyy, list_lookup_alter_eq.
      destruct (g !! Z.to_nat y) as [row|]; simpl; [|done].
      apply list_lookup_insert_ne. intros Hxx. apply Hne. f_equal; lia.
    + by rewrite list_lookup_alter_ne.
  - by destruct (alter _ _ g !! _), (g !! _).
Qed.

Lemma grid_put_put g y x v w :
  grid_put (grid_put g y x v) y x w = grid_put g y x w.
Proof.
  unfold grid_put. case_decide; [|done].
  rewrite list_alter_alter_eq. apply list_alter_ext; [|done].
  intros row _. simpl. apply list_insert_insert_eq.
Qed.

Lemma shape_put g y x v : shape (grid_put g y x v) = shape g.
Proof.
  unfold shape, grid_put. case_decide; [|done].
  apply list_eq. intros i. rewrite !list_lookup_fmap.
  destruct (decide (Z.to_nat y = i)) as [<-|].
  - rewrite list_lookup_alter_eq. destruct (g !! Z.to_nat y); simpl; [|done].
    by rewrite length_insert.
  - by rewrite list_lookup_alter_ne.
Qed.

Lemma shape_JSON_copy g : shape (JSON_copy g) = shape g.
Proof.
  unfold shape, JSON_copy. rewrite <-list_fmap_compose.
  apply list_fmap_ext. intros i row _. simpl. apply length_fmap.
Qed.

(** Two grids of one shape with the same cells are the same grid. *)
Lemma grid_ext (g1 g2 : Grid) :
  shape g1 = shape g2 →
  (∀ y x, grid_get g1 y x = grid_get g2 y x) →
  g1 = g2.
Proof.
  intros Hshape Hget. apply list_eq. intros i.
  assert (length <$> g1 !! i = length <$> g2 !! i) as Hlen.
  { rewrite <-!list_lookup_fmap. unfold shape in Hshape. by rewrite Hshape. }
  specialize (λ j, Hget (Z.of_nat i) (Z.of_nat j)).
  setoid_rewrite grid_get_of_nat in Hget.
  destruct (g1 !! i) as [r1|], (g2 !! i) as [r2|]; simplify_eq/=; [|done].
  f_equal. by apply list_eq.
Qed.

Lemma wf_grid_get gs g y x :
  wf_grid gs g → 0 ≤ y < rows gs → 0 ≤ x < cols gs → is_Some (grid_get g y x).
Proof.
  intros (_ & _ & Hlen & Hrows) Hy Hx.
  destruct (lookup_lt_is_Some_2 g (Z.to_nat y)) as [row Hrow]; [lia|].
  pose proof (proj1 (Forall_lookup _ _) Hrows _ _ Hrow) as Hrow_len. simpl in Hrow_len.
  destruct (lookup_lt_is_Some_2 row (Z.to_nat x)) as [c Hc]; [lia|].
  exists c. apply grid_get_Some. eauto with lia.
Qed.

Lemma wf_grid_get_inv gs g y x c :
  wf_grid gs g → grid_get g y x = Some c → 0 ≤ y < rows gs ∧ 0 ≤ x < cols gs.
Proof.
  intros (_ & _ & Hlen & Hrows) (Hy & Hx & row & Hrow & Hc)%grid_get_Some.
  pose proof (proj1 (Forall_lookup _ _) Hrows _ _ Hrow) as Hrow_len. simpl in Hrow_len.
  apply lookup_lt_Some in Hrow, Hc. lia.
Qed.

(** ** Neighbour counting *)

Lemma directions_near n : Forall (λ d, -1 ≤ d.1 ≤ 1 ∧ -1 ≤ d.2 ≤ 1) (directions n).
Proof. destruct n; repeat constructor; simpl; lia. Qed.

Lemma in_bounds_true gs y x :
  in_bounds gs y x = true ↔ 0 ≤ y < rows gs ∧ 0 ≤ x < cols gs.
Proof. unfold in_bounds. rewrite !andb_true_iff. lia. Qed.

Lemma in_bounds_false gs y x :
  in_bounds gs y x = false ↔ ¬ (0 ≤ y < rows gs ∧ 0 ≤ x < cols gs).
Proof. rewrite <-in_bounds_true. by destruct (in_bounds gs y x). Qed.

(** The clipping test of the loop is the negation of [in_bounds]. *)
Lemma clipped_in_bounds gs ny nx :
  (ny <? 0) || (rows gs <=? ny) || (nx <? 0) || (cols gs <=? nx)
  = negb (in_bounds gs ny nx).
Proof.
  unfold in_bounds.
  destruct (Z.ltb_spec ny 0), (Z.leb_spec (rows gs) ny), (Z.ltb_spec nx 0),
    (Z.leb_spec (cols gs) nx), (Z.leb_spec 0 nx), (Z.ltb_spec nx (cols gs)),
    (Z.leb_spec 0 ny), (Z.ltb_spec ny (rows gs)); simpl; try done; lia.
Qed.

Lemma tally_positive c acc :
  tally c acc =
  match positive (state c) with
  | Some s => (acc.1 + 1, num_add acc.2 s)
  | None => acc
  end.
Proof. done. Qed.

Lemma num_add_0_r a : num_add a (Fin 0) = a.
Proof. destruct a as [z|]; simpl; [|done]. f_equal. lia. Qed.

Lemma num_add_assoc a b c : num_add (num_add a b) c = num_add a (num_add b c).
Proof. destruct a, b, c; simpl; try done. f_equal. lia. Qed.

Section counting.
Context (gs : GridSize) (r : Rules) (g : Grid) (y x : Z).
Hypothesis Hwf : wf_grid gs g.
Hypothesis Hy : 0 ≤ y < rows gs.
Hypothesis Hx : 0 ≤ x < cols gs.

Lemma visit_spec d acc :
  -1 ≤ d.1 ≤ 1 → -1 ≤ d.2 ≤ 1 →
  visit gs r g y x d acc =
  Some (match live_neighbor gs r g y x d with
        | Some s => (acc.1 + 1, num_add acc.2 s)
        | None => acc
        end).
Proof.
  intros Hd1 Hd2. unfold visit, live_neighbor, neighbor_at.
  destruct (wrapping r); simpl.
  - rewrite !Z.rem_mod_nonneg by lia.
    rewrite <-(Z.mul_1_l (rows gs)) at 1. rewrite <-(Z.mul_1_l (cols gs)) at 1.
    rewrite !Z.mod_add by lia.
    destruct (wf_grid_get gs g (Z.modulo (y + d.1) (rows gs))
                (Z.modulo (x + d.2) (cols gs))) as [c Hc];
      [done|apply Z.mod_pos_bound; lia..|].
    rewrite Hc. simpl. by rewrite tally_positive.
  - rewrite clipped_in_bounds.
    destruct (in_bounds gs (y + d.1) (x + d.2)) eqn:Hin; simpl; [|done].
    apply in_bounds_true in Hin.
    destruct (wf_grid_get gs g (y + d.1) (x + d.2)) as [c Hc]; [tauto..|].
    rewrite Hc. simpl. by rewrite tally_positive.
Qed.

Lemma for_each_visit ds acc :
  Forall (λ d, -1 ≤ d.1 ≤ 1 ∧ -1 ≤ d.2 ≤ 1) ds →
  for_each ds (visit gs r g y x) acc =
  Some (acc.1 + Z.of_nat (length (omap (live_neighbor gs r g y x) ds)),
        num_add acc.2 (foldr num_add (Fin 0) (omap (live_neighbor gs r g y x) ds))).
Proof.
  intros Hds. revert acc. induction Hds as [|d ds [Hd1 Hd2] _ IH]; intros acc; simpl.
  - destruct acc; simpl. rewrite num_add_0_r. apply f_equal, pair_equal_spec.
    split; [lia|done].
  - rewrite visit_spec by done. simpl. rewrite IH.
    destruct (live_neighbor gs r g y x d) as [s|]; simpl;
      change (list_omap _ _ ?f ds) with (omap f ds);
      rewrite ?num_add_assoc;
      apply f_equal, pair_equal_spec; (split; [lia|done]).
Qed.

(** The loop over [directions] counts the live neighbours and sums their
    states. *)
Lemma count_neighbors_spec :
  count_neighbors gs r g y x =
  Some (neighborCount gs r g y x, neighborSum gs r g y x).
Proof.
  unfold count_neighbors. rewrite for_each_visit by apply directions_near.
  simpl. unfold neighborSum, neighbor_states.
  by destruct (foldr num_add (Fin 0) _).
Qed.
End counting.

(** ** One turn of the cell loops *)

Lemma grid_update_put g y x v f :
  is_Some (grid_get g y x) →
  grid_update (grid_put g y x v) y x f = Some (grid_put g y x (f v)).
Proof.
  intros Hsome. rewrite (grid_update_Some _ _ _ _ v) by by apply grid_get_put_eq.
  by rewrite grid_put_put.
Qed.

Lemma grid_update_inv g y x f g' :
  grid_update g y x f = Some g' →
  ∃ c, grid_get g y x = Some c ∧ g' = grid_put g y x (f c).
Proof.
  destruct (grid_get g y x) as [c|] eqn:Hget.
  - rewrite (grid_update_Some _ _ _ _ c) by done. intros [= <-]. eauto.
  - by rewrite grid_update_None.
Qed.

Lemma positive_Some v s : positive v = Some (Fin s) ↔ v = JNum s ∧ 0 < s.
Proof.
  destruct v as [z| | | | |]; simpl; try (split; [done|intros [? _]; done]).
  destruct (Z.ltb_spec 0 z); split.
  - intros [= ->]. done.
  - intros [[= ->] _]. done.
  - done.
  - intros [[= ->] ?]. lia.
Qed.

Lemma positive_Inf v : positive v = Some Inf ↔ v = JInfinity.
Proof.
  destruct v as [z| | | | |]; simpl; try done.
  by destruct (0 <? z).
Qed.

Lemma positive_None_JSON_val v : positive v = None → positive (JSON_val v) = None.
Proof. by destruct v. Qed.

(** The copy keeps a living state, unless it is [Infinity]. *)
Lemma JSON_val_positive v s : positive v = Some (Fin s) → JSON_val v = v.
Proof. intros [-> _]%positive_Some. done. Qed.

Lemma JSON_val_not_infinity v : JSON_val v ≠ JInfinity.
Proof. by destruct v. Qed.

Lemma lose_infinity_id c : state c ≠ JInfinity → lose_infinity c = c.
Proof. unfold lose_infinity. by destruct (state c). Qed.

Lemma as_written_id w c : state c ≠ JInfinity → as_written w c = c.
Proof. destruct w; [done|apply lose_infinity_id]. Qed.

Lemma shape_changed_as_written w c :
  changed (as_written w c) = changed c ∧ age (as_written w c) = age c ∧
  previousStates (as_written w c) = previousStates c.
Proof. destruct w; [done|]. unfold as_written, lose_infinity. by destruct (state c). Qed.

Lemma positive_as_written w c s :
  positive (state (as_written w c)) = Some (Fin s) ↔ positive (state c) = Some (Fin s).
Proof.
  destruct w; [done|]. unfold as_written, lose_infinity.
  destruct (state c) eqn:Hc; simpl; rewrite ?Hc; try done.
Qed.

(** The flag [cellChanged] is what ends up in [changed]. *)
Lemma changed_write_back cell res : changed (write_back cell res) = res.1.1.
Proof. destruct res as [[[] ?] ?]; done. Qed.

(** Runs the assignments to the cell [(y, x)] of [newGrid] one after the
    other, given what the cell holds ([Hng]). *)
Ltac run_updates Hng Hsome :=
  repeat (first
    [ rewrite (grid_update_Some _ _ _ _ _ Hng)
    | rewrite grid_update_put by exact Hsome
    | rewrite grid_get_put_eq by exact Hsome ]; simpl).

Section body.
Context (gs : GridSize) (r : Rules) (cs : ColorScheme) (g : Grid) (y x : Z).

(** The worker writes the outcome of the rules over the copied cell. *)
Lemma worker_body_Some ng ch cell n s :
  grid_get g y x = Some cell →
  count_neighbors gs r g y x = Some (n, s) →
  grid_get ng y x = Some (JSON_cell cell) →
  worker_body gs r cs g y x (ng, ch) =
  Some (grid_put ng y x (write_back cell (apply_rules r cs cell n s)),
        ch ++ (if (apply_rules r cs cell n s).1.1 then [mkPos x y] else [])).
Proof.
  intros Hcell Hcount Hng. unfold worker_body. rewrite Hcell, Hcount. simpl.
  destruct (apply_rules r cs cell n s) as [[[] newState] newAge]; simpl;
    rewrite (grid_update_Some _ _ _ _ _ Hng); simpl; [done|].
  by rewrite app_nil_r.
Qed.

(** So does the fallback, one property at a time, except that it leaves
    the [null] of the copy where the worker writes [Infinity] back. *)
Lemma fallback_body_Some ng cell n s :
  grid_get g y x = Some cell →
  count_neighbors gs r g y x = Some (n, s) →
  grid_get ng y x = Some (JSON_cell cell) →
  fallback_body gs r cs g y x ng =
  Some (grid_put ng y x (lose_infinity (write_back cell (apply_rules r cs cell n s)))).
Proof.
  intros Hcell Hcount Hng. unfold fallback_body, apply_rules.
  rewrite Hcell, Hcount. simpl.
  assert (is_Some (grid_get ng y x)) as Hsome by eauto.
  assert ((age cell =? age cell + 1) = false) as Hage by lia.
  destruct (positive (state cell)) as [[st|]|] eqn:Hpos.
  - pose proof (JSON_val_positive _ _ Hpos) as Hjson.
    apply positive_Some in Hpos as [Hst _].
    destruct ((surviveMin r <=? n) && (n <=? surviveMax r)).
    + destruct (1 <? states r); [destruct (differs_from _ _)|];
        simpl; run_updates Hng Hsome; rewrite ?Hage, ?orb_true_r;
        unfold write_back, lose_infinity, set_changed, set_age, set_state, JSON_cell;
        simpl; by rewrite ?Hjson, ?Hst.
    + destruct (trailEffect cs); simpl; run_updates Hng Hsome;
        [destruct (trailLength cs <? age cell + 1); simpl; run_updates Hng Hsome|];
        unfold write_back, lose_infinity, set_changed, set_age, set_state, JSON_cell,
          clear_cell;
        simpl; by rewrite ?Hjson, ?Hst.
  - apply positive_Inf in Hpos as Hst.
    destruct ((surviveMin r <=? n) && (n <=? surviveMax r)).
    + destruct (1 <? states r);
        simpl; run_updates Hng Hsome; rewrite ?Hage, ?orb_true_r;
        unfold write_back, lose_infinity, set_changed, set_age, set_state, JSON_cell;
        simpl; by rewrite ?Hst.
    + destruct (trailEffect cs); simpl; run_updates Hng Hsome;
        [destruct (trailLength cs <? age cell + 1); simpl; run_updates Hng Hsome|];
        unfold write_back, lose_infinity, set_changed, set_age, set_state, JSON_cell,
          clear_cell;
        simpl; by rewrite ?Hst.
  - destruct ((birthMin r <=? n) && (n <=? birthMax r)); simpl;
      run_updates Hng Hsome.
    + unfold write_back, lose_infinity. simpl.
      destruct (1 <? states r); [|done].
      unfold birth_average. destruct s as [s|]; [|done].
      by destruct (n =? 0); [destruct (s =? 0); [|destruct (0 <? s)]|].
    + rewrite lose_infinity_id; [done|]. simpl. apply JSON_val_not_infinity.
Qed.

(** Without a cell object at [(y, x)] the first assignment throws, in
    both versions. *)
Lemma worker_body_None ng ch :
  grid_get ng y x = None → worker_body gs r cs g y x (ng, ch) = None.
Proof.
  intros Hng. unfold worker_body.
  destruct (grid_get g y x) as [cell|]; simpl; [|done].
  destruct (count_neighbors gs r g y x) as [[n s]|]; simpl; [|done].
  destruct (apply_rules r cs cell n s) as [[[] ?] ?]; simpl;
    by rewrite grid_update_None.
Qed.

Lemma fallback_body_None ng :
  grid_get ng y x = None → fallback_body gs r cs g y x ng = None.
Proof.
  intros Hng. unfold fallback_body.
  destruct (grid_get g y x) as [cell|]; simpl; [|done].
  destruct (count_neighbors gs r g y x) as [[n s]|]; simpl; [|done].
  destruct (positive (state cell)) as [st|].
  - destruct ((surviveMin r <=? n) && (n <=? surviveMax r)).
    + destruct (1 <? states r); [destruct (differs_from _ _)|];
        simpl; by rewrite !grid_update_None.
    + destruct (trailEffect cs); simpl; by rewrite grid_update_None.
  - destruct ((birthMin r <=? n) && (n <=? birthMax r)); simpl;
      by rewrite grid_update_None.
Qed.

(** The two bodies agree on a [newGrid] that still holds the copy of the
    cell they are about to write, when that cell is not [Infinity]. *)
Lemma fallback_worker_body ng ch :
  (∀ cell, grid_get g y x = Some cell → state cell ≠ JInfinity) →
  (∀ cell c, grid_get g y x = Some cell → grid_get ng y x = Some c →
             c = JSON_cell cell) →
  fallback_body gs r cs g y x ng = fst <$> worker_body gs r cs g y x (ng, ch).
Proof.
  intros Hfin Hcopy.
  destruct (grid_get ng y x) as [c|] eqn:Hng;
    [|by rewrite worker_body_None, fallback_body_None].
  destruct (grid_get g y x) as [cell|] eqn:Hcell;
    [|unfold fallback_body, worker_body; by rewrite Hcell].
  destruct (count_neighbors gs r g y x) as [[n s]|] eqn:Hcount;
    [|unfold fallback_body, worker_body; by rewrite Hcell, Hcount].
  rewrite (Hcopy cell c) in Hng by done.
  rewrite (worker_body_Some _ _ cell n s), (fallback_body_Some _ cell n s) by done.
  simpl. do 2 f_equal. apply lose_infinity_id.
  specialize (Hfin cell eq_refl).
  unfold write_back, apply_rules.
  destruct (positive (state cell)) as [[st|]|] eqn:Hpos.
  - destruct ((surviveMin r <=? n) && (n <=? surviveMax r)).
    + by destruct (1 <? states r); [destruct (differs_from _ _)|]; simpl;
        rewrite ?orb_true_r;
        destruct (negb (age cell =? age cell + 1)); simpl;
        try apply JSON_val_not_infinity.
    + by destruct (trailEffect cs); [destruct (trailLength cs <? age cell + 1)|].
  - by apply positive_Inf in Hpos.
  - destruct ((birthMin r <=? n) && (n <=? birthMax r)); simpl;
      [|apply JSON_val_not_infinity].
    destruct (1 <? states r); [|done].
    unfold birth_average. destruct s as [s|]; [|done].
    by destruct (n =? 0); [destruct (s =? 0); [|destruct (0 <? s)]|].
Qed.

(** Either body leaves the other cells of [newGrid] alone. *)
Lemma worker_body_frame st st' y' x' :
  worker_body gs r cs g y x st = Some st' → (y, x) ≠ (y', x') →
  grid_get st'.1 y' x' = grid_get st.1 y' x'.
Proof.
  unfold worker_body. intros Hbody Hne.
  destruct (grid_get g y x) as [cell|]; simpl in Hbody; [|done].
  destruct (count_neighbors gs r g y x) as [[n s]|]; simpl in Hbody; [|done].
  destruct (apply_rules r cs cell n s) as [[[] ?] ?]; simpl in Hbody;
    apply bind_Some in Hbody as (ng' & (c & _ & ->)%grid_update_inv & [= <-]);
    simpl; by apply grid_get_put_ne.
Qed.
End body.

(** ** On a grid without [Infinity] the two step loops run in lockstep *)

Lemma worker_loop_positions gs r cs g :
  worker_loop gs r cs g =
  for_each (positions gs) (λ p, worker_body gs r cs g p.1 p.2) (JSON_copy g, []).
Proof. unfold worker_loop, for_range. by rewrite for_each_nested. Qed.

Lemma fallback_loop_positions gs r cs g :
  fallback_loop gs r cs g =
  for_each (positions gs) (λ p, fallback_body gs r cs g p.1 p.2) (JSON_copy g).
Proof. unfold fallback_loop, for_range. by rewrite for_each_nested. Qed.

Section lockstep.
Context (gs : GridSize) (r : Rules) (cs : ColorScheme) (g : Grid).
Hypothesis Hfin : no_infinity g.

Lemma untouched_JSON_copy l : untouched g l (JSON_copy g).
Proof.
  intros p cell c _ Hcell. rewrite grid_get_JSON_copy, Hcell. by intros [= <-].
Qed.

Lemma fallback_worker_for_each l ng ch :
  NoDup l → untouched g l ng →
  for_each l (λ p, fallback_body gs r cs g p.1 p.2) ng =
  fst <$> for_each l (λ p, worker_body gs r cs g p.1 p.2) (ng, ch).
Proof.
  intros Hnodup. revert ng ch.
  induction Hnodup as [|p l Hp _ IH]; intros ng ch Hun; simpl; [done|].
  rewrite (fallback_worker_body _ _ _ _ _ _ _ ch);
    [|intros cell; apply Hfin|intros cell c; apply (Hun p); left].
  destruct (worker_body gs r cs g p.1 p.2 (ng, ch)) as [[ng' ch']|] eqn:Hbody;
    simpl; [|done].
  apply IH. intros q cell c Hq Hcell Hc. apply (Hun q); [by right|done|].
  rewrite <-Hc. symmetry.
  apply (worker_body_frame _ _ _ _ _ _ _ _ _ _ Hbody).
  destruct p, q. simpl. intros [= -> ->]. done.
Qed.

(** Grid or exception, the fallback ends as the worker does. *)
Lemma fallback_worker_loop :
  fallback_loop gs r cs g = fst <$> worker_loop gs r cs g.
Proof.
  rewrite fallback_loop_positions, worker_loop_positions.
  apply fallback_worker_for_each; [apply NoDup_positions|apply untouched_JSON_copy].
Qed.
End lockstep.

(** ** The loops compute [step] *)

Lemma grid_get_step w gs r cs g y x :
  grid_get (step w gs r cs g) y x = next_cell w gs r cs g y x <$> grid_get g y x.
Proof.
  destruct (decide (0 ≤ y ∧ 0 ≤ x)) as [[Hy Hx]|Hneg].
  - rewrite <-(Z2Nat.id y), <-(Z2Nat.id x) by done.
    rewrite !grid_get_of_nat. unfold step. rewrite list_lookup_imap.
    destruct (g !! Z.to_nat y) as [row|]; simpl; [|done].
    by rewrite list_lookup_imap.
  - by rewrite !grid_get_neg.
Qed.

Lemma shape_step w gs r cs g : shape (step w gs r cs g) = shape g.
Proof.
  unfold shape, step. rewrite fmap_imap. rewrite <-(imap_const length g).
  apply imap_ext. intros i row _. simpl. apply length_imap.
Qed.

Lemma wf_step w gs r cs g : wf_grid gs g → wf_grid gs (step w gs r cs g).
Proof.
  intros (Hr & Hc & Hlen & Hrows). split_and!; [done..| |].
  - unfold step. by rewrite length_imap.
  - apply Forall_lookup. intros i row' Hrow'. unfold step in Hrow'.
    apply list_lookup_imap_Some in Hrow' as (row & Hrow & ->).
    rewrite length_imap. by apply (proj1 (Forall_lookup _ _) Hrows i).
Qed.

Section loops_step.
Context (gs : GridSize) (r : Rules) (cs : ColorScheme) (g : Grid).
Hypothesis Hwf : wf_grid gs g.

Lemma loop_inv_init w : loop_inv w gs r cs g [] (JSON_copy g).
Proof.
  split; [apply shape_JSON_copy|].
  intros y x. apply grid_get_JSON_copy.
Qed.

(** Before its turn the cell [(y, x)] of [newGrid] is the copy. *)
Lemma loop_inv_copy w done y x rest ng cell :
  positions gs = done ++ (y, x) :: rest →
  loop_inv w gs r cs g done ng →
  grid_get g y x = Some cell →
  grid_get ng y x = Some (JSON_cell cell).
Proof.
  intros Hpos [_ Hget] Hcell.
  assert ((y, x) ∉ done) as Hfresh.
  { pose proof (NoDup_positions gs) as Hnd. rewrite Hpos in Hnd.
    apply NoDup_app in Hnd as (_ & Hnd & _). intros Hin. apply (Hnd _ Hin). left. }
  rewrite Hget, Hcell. by rewrite bool_decide_eq_false_2.
Qed.

(** Its turn writes [next_cell] there, and nothing elsewhere. *)
Lemma loop_inv_put w done y x ng cell :
  loop_inv w gs r cs g done ng →
  grid_get g y x = Some cell →
  is_Some (grid_get ng y x) →
  loop_inv w gs r cs g (done ++ [(y, x)])
    (grid_put ng y x (next_cell w gs r cs g y x cell)).
Proof.
  intros [Hshape Hget] Hcell Hsome. split.
  - by rewrite shape_put.
  - intros y' x'. destruct (decide ((y, x) = (y', x'))) as [[= <- <-]|Hne].
    + rewrite grid_get_put_eq by done. rewrite Hcell.
      rewrite bool_decide_eq_true_2; [done|]. apply elem_of_app. right. left.
    + rewrite grid_get_put_ne by done. rewrite Hget.
      f_equal. apply (f_equal (λ b : bool, if b then _ else _)).
      apply bool_decide_ext. rewrite elem_of_app, list_elem_of_singleton.
      split; [tauto|]. intros [?|?]; [done|congruence].
Qed.

Lemma loop_inv_final w ng :
  loop_inv w gs r cs g (positions gs) ng → ng = step w gs r cs g.
Proof.
  intros [Hshape Hget]. apply grid_ext; [by rewrite shape_step|].
  intros y x. rewrite Hget, grid_get_step.
  destruct (grid_get g y x) as [cell|] eqn:Hcell; simpl; [|done].
  rewrite bool_decide_eq_true_2; [done|].
  apply elem_of_positions. by eapply wf_grid_get_inv.
Qed.

Lemma worker_inv_body done y x rest st :
  positions gs = done ++ (y, x) :: rest →
  worker_inv gs r cs g done st →
  ∃ st', worker_body gs r cs g y x st = Some st' ∧
         worker_inv gs r cs g (done ++ [(y, x)]) st'.
Proof.
  intros Hpos (Hinv & Hch). destruct st as [ng ch]. simpl in *.
  assert ((y, x) ∈ positions gs) as [Hy Hx]%elem_of_positions.
  { rewrite Hpos. apply elem_of_app. right. left. }
  destruct (wf_grid_get gs g y x) as [cell Hcell]; [done..|].
  pose proof (count_neighbors_spec gs r g y x Hwf Hy Hx) as Hcount.
  pose proof (loop_inv_copy true done y x rest ng cell Hpos Hinv Hcell) as Hng.
  eexists. split; [by apply worker_body_Some|]. split; simpl.
  - apply (loop_inv_put true); [done..|]. by rewrite Hng.
  - rewrite omap_app, Hch. f_equal. simpl. unfold changed_entry. simpl.
    rewrite grid_get_step, Hcell. simpl. unfold next_cell. simpl.
    rewrite changed_write_back. by destruct (apply_rules _ _ _ _ _).1.1.
Qed.

Lemma fallback_inv_body done y x rest ng :
  positions gs = done ++ (y, x) :: rest →
  loop_inv false gs r cs g done ng →
  ∃ ng', fallback_body gs r cs g y x ng = Some ng' ∧
         loop_inv false gs r cs g (done ++ [(y, x)]) ng'.
Proof.
  intros Hpos Hinv.
  assert ((y, x) ∈ positions gs) as [Hy Hx]%elem_of_positions.
  { rewrite Hpos. apply elem_of_app. right. left. }
  destruct (wf_grid_get gs g y x) as [cell Hcell]; [done..|].
  pose proof (count_neighbors_spec gs r g y x Hwf Hy Hx) as Hcount.
  pose proof (loop_inv_copy false done y x rest ng cell Hpos Hinv Hcell) as Hng.
  eexists. split; [by apply fallback_body_Some|].
  apply (loop_inv_put false); [done..|]. by rewrite Hng.
Qed.

(** On a grid of the announced size the worker's loops end, with the
    stepped grid and the list of its flagged cells. *)
Lemma worker_loop_step :
  worker_loop gs r cs g =
  Some (step true gs r cs g, changed_positions gs (step true gs r cs g)).
Proof.
  rewrite worker_loop_positions.
  destruct (for_each_invariant (worker_inv gs r cs g) (positions gs)
              (λ p, worker_body gs r cs g p.1 p.2) (JSON_copy g, []))
    as ([ng ch] & -> & Hinv & Hch).
  - split; [apply loop_inv_init|done].
  - intros done [y x] rest st. apply worker_inv_body.
  - simpl in *. apply loop_inv_final in Hinv as ->. by rewrite Hch.
Qed.

(** So do the fallback's, with its own stepped grid. *)
Lemma fallback_loop_step : fallback_loop gs r cs g = Some (step false gs r cs g).
Proof.
  rewrite fallback_loop_positions.
  destruct (for_each_invariant (loop_inv false gs r cs g) (positions gs)
              (λ p, fallback_body gs r cs g p.1 p.2) (JSON_copy g))
    as (ng & -> & Hinv).
  - apply loop_inv_init.
  - intros done [y x] rest st. apply fallback_inv_body.
  - by apply loop_inv_final in Hinv as ->.
Qed.
End loops_step.

(** ** The engine on a grid of the announced size *)

Lemma worker_onmessage_step gs r cs g :
  wf_grid gs g →
  worker_onmessage (mkMsg g r gs cs) =
  Some (mkResponse (step true gs r cs g) (changed_positions gs (step true gs r cs g))).
Proof. intros Hwf. unfold worker_onmessage. simpl. by rewrite worker_loop_step. Qed.

Lemma computeNextGeneration_worker gs r cs g :
  no_infinity g →
  computeNextGeneration false gs r cs g = computeNextGeneration true gs r cs g.
Proof.
  intros Hfin. unfold computeNextGeneration, worker_onmessage. simpl.
  rewrite fallback_worker_loop by done. by destruct (worker_loop gs r cs g).
Qed.

Lemma computeNextGeneration_step w gs r cs g :
  wf_grid gs g → computeNextGeneration w gs r cs g = Some (step w gs r cs g).
Proof.
  intros Hwf. destruct w; unfold computeNextGeneration;
    [by rewrite worker_onmessage_step|by apply fallback_loop_step].
Qed.

Lemma wf_ticks w gs r cs n g : wf_grid gs g → wf_grid gs (ticks w gs r cs n g).
Proof. intros Hwf. induction n as [|n IH]; simpl; [done|]. by apply wf_step. Qed.

Lemma ticks_S w gs r cs n g :
  ticks w gs r cs (S n) g = step w gs r cs (ticks w gs r cs n g).
Proof. done. Qed.

Lemma ticks_succ_r w gs r cs n g :
  ticks w gs r cs (S n) g = ticks w gs r cs n (step w gs r cs g).
Proof. unfold ticks. apply Nat.iter_succ_r. Qed.

(** The scheduler never sees an exception, and holds [ticks] after [n]
    ticks. *)
Lemma run_ticks w gs r cs n g :
  wf_grid gs g → run w gs r cs n g = Some (ticks w gs r cs n g).
Proof.
  revert g. induction n as [|n IH]; intros g Hwf; [done|].
  rewrite ticks_succ_r. simpl. rewrite computeNextGeneration_step by done.
  simpl. apply IH. by apply wf_step.
Qed.

(** The step makes no [Infinity]: it only keeps the ones there are. *)
Lemma next_cell_no_infinity w gs r cs g y x cell :
  state cell ≠ JInfinity → state (next_cell w gs r cs g y x cell) ≠ JInfinity.
Proof.
  intros Hfin. unfold next_cell.
  assert (state (write_back cell
                   (apply_rules r cs cell (neighborCount gs r g y x)
                      (neighborSum gs r g y x))) ≠ JInfinity) as Hstate.
  { unfold write_back, apply_rules.
    destruct (positive (state cell)) as [[st|]|] eqn:Hpos.
    - destruct ((surviveMin r <=? _) && (_ <=? surviveMax r)).
      + by destruct (1 <? states r); [destruct (differs_from _ _)|]; simpl;
          rewrite ?orb_true_r;
          destruct (negb (age cell =? age cell + 1)); simpl;
          try apply JSON_val_not_infinity.
      + by destruct (trailEffect cs); [destruct (trailLength cs <? age cell + 1)|].
    - by apply positive_Inf in Hpos.
    - destruct ((birthMin r <=? _) && (_ <=? birthMax r)); simpl;
        [|apply JSON_val_not_infinity].
      destruct (1 <? states r); [|done].
      unfold birth_average. destruct (neighborSum gs r g y x) as [s|]; [|done].
      by destruct (_ =? 0); [destruct (s =? 0); [|destruct (0 <? s)]|]. }
  by rewrite as_written_id.
Qed.

Lemma no_infinity_step w gs r cs g : no_infinity g → no_infinity (step w gs r cs g).
Proof.
  intros Hfin y x c. rewrite grid_get_step.
  destruct (grid_get g y x) as [cell|] eqn:Hcell; simpl; [|done].
  intros [= <-]. apply next_cell_no_infinity. by apply (Hfin y x).
Qed.

(** ** C1: the update is simultaneous *)

(** C1.  On every grid of the announced size, and for every rule and trail
    configuration, both step loops (the worker's, and the fallback of
    [computeNextGeneration]) return their [step]: each cell of Grid(t+1)
    is [next_cell] of the cell of Grid(t), with the neighbour count and
    the state sum read in Grid(t), whatever the loops have already written
    to [newGrid]; and [changedCells] lists the cells flagged in the
    result. *)
Theorem step_is_simultaneous gs r cs g :
  wf_grid gs g →
  worker_onmessage (mkMsg g r gs cs) =
    Some (mkResponse (step true gs r cs g)
            (changed_positions gs (step true gs r cs g))) ∧
  computeNextGeneration false gs r cs g = Some (step false gs r cs g) ∧
  ∀ w y x cell, grid_get g y x = Some cell →
    grid_get (step w gs r cs g) y x =
    Some (as_written w
            (write_back cell
               (apply_rules r cs cell (neighborCount gs r g y x)
                  (neighborSum gs r g y x)))).
Proof.
  intros Hwf. split_and!.
  - by apply worker_onmessage_step.
  - by apply computeNextGeneration_step.
  - intros w y x cell Hcell. by rewrite grid_get_step, Hcell.
Qed.

(** ** C10: the worker and the fallback on a state [Infinity] *)

(** C10.  The code at the failing input: the component as it starts (the
    100 by 100 grid, Conway's rules on the torus, no trail) after the
    import of the file [[[1e999, 1], [1, 1]]].  The cell at (49, 49) holds
    [Infinity], is alive and has three live neighbours: it survives.  The
    worker writes the state it read, [Infinity], back with the new age;
    the fallback only advances the age, and leaves the [null] of the copy.
    The two implementations hand different grids to [setGrid]. *)
Lemma fallback_differs_from_worker :
  (state <$> grid_get imported_infinity 49 49) = Some JInfinity ∧
  neighborCount hundred initialRules imported_infinity 49 49 = 3 ∧
  (g ← computeNextGeneration true hundred initialRules defaultColors imported_infinity;
   grid_get g 49 49) = Some (mkCell JInfinity 1 [] true) ∧
  (g ← computeNextGeneration false hundred initialRules defaultColors imported_infinity;
   grid_get g 49 49) = Some (mkCell JNull 1 [] true) ∧
  computeNextGeneration false hundred initialRules defaultColors imported_infinity
  ≠ computeNextGeneration true hundred initialRules defaultColors imported_infinity.
Proof.
  split_and!; [by vm_compute..|].
  intros Heq.
  assert ((g ← computeNextGeneration false hundred initialRules defaultColors
                 imported_infinity; grid_get g 49 49)
          = (g ← computeNextGeneration true hundred initialRules defaultColors
                   imported_infinity; grid_get g 49 49)) as Hcell
    by (by rewrite Heq).
  vm_compute in Hcell. discriminate Hcell.
Qed.

(** ** C3 and C5: a birth with no neighbour *)

Lemma neighborCount_nonneg gs r g y x : 0 ≤ neighborCount gs r g y x.
Proof. unfold neighborCount. lia. Qed.

(** Both accumulators of the counting loop start at 0 and only move
    together: without a live neighbour the sum is 0 too. *)
Lemma neighborSum_zero gs r g y x :
  neighborCount gs r g y x = 0 → neighborSum gs r g y x = Fin 0.
Proof.
  unfold neighborCount, neighborSum.
  destruct (neighbor_states gs r g y x); [done|simpl; lia].
Qed.

(** The defect in general: a dead cell without live neighbours, a birth
    range that contains 0 and more than one state give a [NaN] state. *)
Lemma next_cell_NaN w gs r cs g y x cell :
  positive (state cell) = None →
  neighborCount gs r g y x = 0 →
  birthMin r ≤ 0 ≤ birthMax r → 1 < states r →
  state (next_cell w gs r cs g y x cell) = JNaN.
Proof.
  intros Hdead Hn Hbirth Hstates. unfold next_cell, apply_rules.
  rewrite Hdead, (neighborSum_zero _ _ _ _ _ Hn), Hn.
  replace ((birthMin r <=? 0) && (0 <=? birthMax r)) with true by lia.
  replace (1 <? states r) with true by lia. by destruct w.
Qed.

(** C5.  The code at the failing input: one dead cell, no neighbour, a
    birth range from 0 and two states.  The division is not special-cased:
    the cell is born with the state [NaN], in the worker and in the
    fallback alike, where the claim wants state 1. *)
Lemma zero_neighbour_birth_is_NaN :
  worker_onmessage (mkMsg lone_dead birth_at_zero one_by_one defaultColors)
  = Some (mkResponse [[mkCell JNaN 0 [] true]] [mkPos 0 0]) ∧
  computeNextGeneration false one_by_one birth_at_zero defaultColors lone_dead
  = Some [[mkCell JNaN 0 [] true]].
Proof. split; reflexivity. Qed.

Lemma cell_ok_blank r : 0 ≤ states r → cell_ok r blank.
Proof. intros Hstates. exists 0. simpl. split; [done|lia]. Qed.

(** C3.  The code at the failing input: every cell of the grid satisfies
    the invariant and [states] is 2, yet after one step, by either
    implementation, the cell at (0, 0) holds [NaN], which is no state
    between 0 and [states]. *)
Lemma invariant_lost_at_zero_birth :
  1 ≤ states birth_at_zero ≤ 5 ∧
  grid_ok birth_at_zero lone_dead ∧
  ∀ w, ∃ g',
    computeNextGeneration w one_by_one birth_at_zero defaultColors lone_dead = Some g' ∧
    ¬ grid_ok birth_at_zero g'.
Proof.
  split_and!; [done..| |].
  - intros y x c (_ & _ & row & Hrow & Hc)%grid_get_Some.
    destruct (Z.to_nat y) as [|[|?]]; simplify_eq/=.
    destruct (Z.to_nat x) as [|[|?]]; simplify_eq/=.
    by apply cell_ok_blank.
  - intros w. exists [[mkCell JNaN 0 [] true]]. split; [by destruct w|].
    intros Hok. by destruct (Hok 0 0 _ eq_refl) as (z & Hz & _).
Qed.

(** Away from that case the invariant is kept: when no birth can happen
    without a neighbour, or with one state only. *)
Lemma cell_ok_as_written w r c : cell_ok r c → cell_ok r (as_written w c).
Proof.
  intros (z & Hz & Hok). rewrite as_written_id; [by exists z|by rewrite Hz].
Qed.

Lemma next_cell_ok w gs r cs g y x cell :
  1 ≤ states r → 0 < birthMin r ∨ states r = 1 →
  cell_ok r cell → cell_ok r (next_cell w gs r cs g y x cell).
Proof.
  intros Hstates Hsafe (z & Hz & Hzs & Hage).
  pose proof (neighborCount_nonneg gs r g y x) as Hn.
  unfold next_cell. apply cell_ok_as_written.
  unfold apply_rules, cell_ok, write_back. rewrite Hz. simpl.
  destruct (Z.ltb_spec 0 z); cbn [next_state differs_from].
  - destruct ((surviveMin r <=? _) && (_ <=? surviveMax r)).
    + destruct (Z.ltb_spec 1 (states r));
        [destruct (Z.eqb_spec (Z.min (z + 1) (states r)) z)|]; simpl;
        replace (age cell =? age cell + 1) with false by lia; simpl;
        rewrite ?orb_true_r, ?Hz; eexists; (split; [done|]); lia.
    + destruct (trailEffect cs); [destruct (Z.ltb_spec (trailLength cs) (age cell + 1))|];
        simpl; rewrite ?Hz; eexists; (split; [done|]); lia.
  - destruct ((birthMin r <=? _) && (_ <=? birthMax r)) eqn:Hbirth; simpl.
    + destruct (Z.ltb_spec 1 (states r)); [|exists 1; simpl; split; [done|lia]].
      unfold birth_average.
      destruct (neighborSum gs r g y x) as [sum|];
        [|eexists; (split; [done|]); lia].
      destruct (Z.eqb_spec (neighborCount gs r g y x) 0) as [Hzero|_]; [lia|].
      eexists; (split; [done|]); lia.
    + rewrite Hz. simpl. eexists; (split; [done|]); lia.
Qed.

Lemma step_ok w gs r cs g :
  1 ≤ states r → 0 < birthMin r ∨ states r = 1 →
  grid_ok r g → grid_ok r (step w gs r cs g).
Proof.
  intros Hstates Hsafe Hok y x c. rewrite grid_get_step.
  destruct (grid_get g y x) as [cell|] eqn:Hcell; simpl; [|done].
  intros [= <-]. apply next_cell_ok; eauto.
Qed.

(** ** C4: the newborn's state *)

Lemma clamp_max_min v hi : 1 ≤ hi → Z.max 1 (Z.min v hi) = clamp v 1 hi.
Proof. intros Hhi. unfold clamp. destruct (Z.ltb_spec v 1), (Z.ltb_spec hi v); lia. Qed.

(** [Math_round] is within one half of its argument, ties going up. *)
Lemma Math_round_nearest q :
  (inject_Z (Math_round q) - (1 # 2) <= q)%Q ∧
  (q < inject_Z (Math_round q) + (1 # 2))%Q.
Proof.
  unfold Math_round.
  pose proof (Qfloor_le (q + (1 # 2))) as Hle.
  pose proof (Qlt_floor (q + (1 # 2))) as Hlt.
  rewrite inject_Z_plus in Hlt. change (inject_Z 1) with 1%Q in Hlt.
  set (k := inject_Z (Qfloor (q + (1 # 2)))) in *. clearbody k.
  split; lra.
Qed.

(** On integers, [Math.round(s / n)] is an integer division. *)
Lemma Math_round_div s n :
  0 < n → Math_round (inject_Z s / inject_Z n)%Q = (2 * s + n) / (2 * n).
Proof.
  intros Hn. unfold Math_round.
  assert (inject_Z s / inject_Z n + (1 # 2) == (2 * s + n) # (Z.to_pos (2 * n)))%Q as ->.
  { unfold Qeq, Qdiv, Qmult, Qplus, Qinv, inject_Z. simpl.
    destruct n as [|p|p]; try lia. simpl. lia. }
  unfold Qfloor. by rewrite Z2Pos.id by lia.
Qed.

Lemma num_add_comm a b : num_add a b = num_add b a.
Proof. destruct a, b; simpl; try done. f_equal. lia. Qed.

Lemma foldr_add_Permutation (l k : list num) :
  l ≡ₚ k → foldr num_add (Fin 0) l = foldr num_add (Fin 0) k.
Proof.
  induction 1 as [|a l k _ IH|a b l|l k m _ IH1 _ IH2]; simpl.
  - done.
  - by rewrite IH.
  - by rewrite <-!num_add_assoc, (num_add_comm a b).
  - by rewrite IH1.
Qed.

Lemma next_cell_birth w gs r cs g y x cell :
  positive (state cell) = None →
  birthMin r ≤ neighborCount gs r g y x ≤ birthMax r →
  1 < states r → 0 < neighborCount gs r g y x →
  next_cell w gs r cs g y x cell =
  mkCell (match neighborSum gs r g y x with
          | Fin sum =>
            JNum (clamp (Math_round (inject_Z sum
                                     / inject_Z (neighborCount gs r g y x))%Q)
                        1 (states r))
          | Inf => JNum (states r)
          end)
         0 (previousStates cell) true.
Proof.
  intros Hdead Hbirth Hstates Hn. unfold next_cell, apply_rules, birth_average.
  rewrite Hdead.
  replace ((birthMin r <=? _) && (_ <=? birthMax r)) with true by lia.
  replace (1 <? states r) with true by lia.
  replace (neighborCount gs r g y x =? 0) with false by lia.
  destruct (neighborSum gs r g y x) as [sum|]; simpl.
  - rewrite clamp_max_min by lia. by destruct w.
  - rewrite Z.max_r by lia. by destruct w.
Qed.

(** C4.  For every dead cell whose neighbour count lies in the birth
    range, with [states > 1] and at least one live neighbour, the step (by
    either implementation) gives the cell the state
    [clamp(round(stateSum / neighborCount), 1, states)], age 0 and the
    changed flag; with five states and two live neighbours in states 1
    and 3 that state is 2.  Where a live neighbour holds [Infinity], so
    does the sum, the quotient and its rounding, and the clamp gives
    [states]. *)
Theorem birth_state_is_rounded_average w gs r cs g y x cell :
  wf_grid gs g →
  grid_get g y x = Some cell →
  positive (state cell) = None →
  birthMin r ≤ neighborCount gs r g y x ≤ birthMax r →
  1 < states r →
  0 < neighborCount gs r g y x →
  ∃ g' c',
    computeNextGeneration w gs r cs g = Some g' ∧
    grid_get g' y x = Some c' ∧
    state c' = match neighborSum gs r g y x with
               | Fin sum =>
                 JNum (clamp (Math_round (inject_Z sum
                                          / inject_Z (neighborCount gs r g y x))%Q)
                             1 (states r))
               | Inf => JNum (states r)
               end ∧
    age c' = 0 ∧ changed c' = true ∧
    (states r = 5 → neighbor_states gs r g y x ≡ₚ [Fin 1; Fin 3] →
     state c' = JNum 2).
Proof.
  intros Hwf Hcell Hdead Hbirth Hstates Hn.
  exists (step w gs r cs g), (next_cell w gs r cs g y x cell). split_and!.
  - by apply computeNextGeneration_step.
  - by rewrite grid_get_step, Hcell.
  - by rewrite next_cell_birth.
  - by rewrite next_cell_birth.
  - by rewrite next_cell_birth.
  - intros Hfive Hperm. rewrite next_cell_birth by done. simpl.
    unfold neighborSum, neighborCount.
    rewrite (foldr_add_Permutation _ _ Hperm), (Permutation_length Hperm), Hfive.
    reflexivity.
Qed.

(** ** C6: the trail of a dying cell *)

(** C6, counterexample.  A live cell of age 0 alone on a 1 by 1 grid,
    Conway's rules, a trail of length 3: it fails the survive range at
    every tick, keeps its state with ages 1, 2, 3 at T, T+1, T+2, and is
    already cleared at T+3, where the claim wants a nonzero state; in the
    worker and in the fallback alike. *)
Lemma trail_decay_claim_fails :
  ¬ trail_decay_claim true one_by_one gameOfLife (withTrail 3) lone_live 0 0 ∧
  ¬ trail_decay_claim false one_by_one gameOfLife (withTrail 3) lone_live 0 0.
Proof.
  split; intros Hclaim;
    (destruct (Hclaim (mkCell (JNum 1) 0 [] false)) as [Hkeep _];
     [reflexivity
     |by exists (Fin 1)
     |unfold in_survive_range; vm_compute; intros [Hle _]; by apply Hle
     |destruct (Hkeep 4%nat) as (c & Hc & Hstate & _); [lia|];
      vm_compute in Hc; by injection Hc as <-]).
Qed.

Section trail.
Context (w : bool) (gs : GridSize) (r : Rules) (cs : ColorScheme) (y x : Z).
Hypothesis Htrail : trailEffect cs = true.

(** One tick of a live cell outside the survive range. *)
Lemma next_cell_dying g cell :
  is_Some (positive (state cell)) →
  (w = false → state cell ≠ JInfinity) →
  ¬ in_survive_range gs r g y x →
  next_cell w gs r cs g y x cell =
  if trailLength cs <? age cell + 1
  then mkCell (JNum 0) 0 (previousStates cell) true
  else mkCell (state cell) (age cell + 1) (previousStates cell) true.
Proof.
  intros [s Hpos] Hfin Hfail. unfold in_survive_range in Hfail.
  unfold next_cell, apply_rules. rewrite Hpos, Htrail.
  replace ((surviveMin r <=? _) && (_ <=? surviveMax r)) with false by lia.
  destruct (trailLength cs <? age cell + 1); simpl.
  - by rewrite as_written_id.
  - destruct w; [done|]. rewrite as_written_id; [done|]. by apply Hfin.
Qed.

(** While the age stays within the trail length, the remnant keeps its
    state and ages by one each tick. *)
Lemma trail_persists g c0 (n : nat) :
  grid_get g y x = Some c0 →
  is_Some (positive (state c0)) →
  (w = false → state c0 ≠ JInfinity) →
  (∀ k, (k < n)%nat → ¬ in_survive_range gs r (ticks w gs r cs k g) y x) →
  n = 0%nat ∨ age c0 + Z.of_nat n ≤ trailLength cs →
  grid_get (ticks w gs r cs n g) y x =
  Some (mkCell (state c0) (age c0 + Z.of_nat n) (previousStates c0)
          (if n is O then changed c0 else true)).
Proof.
  intros Hc0 Hpos Hfin. induction n as [|n IH]; intros Hfail Hage.
  - change (ticks w gs r cs 0 g) with g. rewrite Hc0. f_equal.
    destruct c0. simpl. f_equal. lia.
  - rewrite ticks_S, grid_get_step, IH by (auto with lia). simpl.
    rewrite next_cell_dying by (auto with lia). simpl.
    replace (trailLength cs <? age c0 + Z.of_nat n + 1) with false by lia.
    do 2 f_equal. lia.
Qed.

(** It clears at the first tick that takes the age past the trail
    length. *)
Lemma trail_clears g c0 (n : nat) :
  grid_get g y x = Some c0 →
  is_Some (positive (state c0)) →
  (w = false → state c0 ≠ JInfinity) →
  (∀ k, (k ≤ n)%nat → ¬ in_survive_range gs r (ticks w gs r cs k g) y x) →
  n = 0%nat ∨ age c0 + Z.of_nat n ≤ trailLength cs →
  trailLength cs < age c0 + Z.of_nat n + 1 →
  grid_get (ticks w gs r cs (S n) g) y x =
  Some (mkCell (JNum 0) 0 (previousStates c0) true).
Proof.
  intros Hc0 Hpos Hfin Hfail Hkept Hage.
  rewrite ticks_S, grid_get_step.
  rewrite (trail_persists g c0); [|done|done|done|intros k Hk; apply Hfail; lia|done].
  simpl. rewrite next_cell_dying by (auto with lia). simpl.
  by replace (trailLength cs <? age c0 + Z.of_nat n + 1) with true by lia.
Qed.
End trail.

Lemma positive_not_zero v : is_Some (positive v) → v ≠ JNum 0.
Proof. intros [s Hpos] ->. done. Qed.

(** C6, amended.  With the trail effect on and a trail length of 3, take
    a cell alive in Grid(T-1) (here [g]) that is outside the survive range
    at the ticks T to T+n; under the fallback, let its state not be
    [Infinity], which the fallback turns into [null].  In Grid(T+n) the
    cell still has the state it had, not 0, and its age has advanced by
    one per tick, as long as that age is at most 3; and its state and age
    are both 0 at the first tick that takes the age past 3.  For a cell of
    age 0: the state persists at T, T+1 and T+2 with ages 1, 2 and 3, and
    state and age are 0 at T+3.  A cell of age 3 or more is cleared at T
    itself. *)
Theorem trail_decay w gs r cs g y x c0 (n : nat) :
  wf_grid gs g →
  trailEffect cs = true → trailLength cs = 3 →
  grid_get g y x = Some c0 →
  is_Some (positive (state c0)) →
  (w = false → state c0 ≠ JInfinity) →
  (∀ k gk, (k ≤ n)%nat → run w gs r cs k g = Some gk →
           ¬ in_survive_range gs r gk y x) →
  ∃ g1 c1,
    run w gs r cs (S n) g = Some g1 ∧ grid_get g1 y x = Some c1 ∧
    (age c0 + Z.of_nat (S n) ≤ 3 →
       state c1 = state c0 ∧ state c1 ≠ JNum 0 ∧ age c1 = age c0 + Z.of_nat (S n)) ∧
    ((n = 0%nat ∨ age c0 + Z.of_nat n ≤ 3) ∧ 3 < age c0 + Z.of_nat (S n) →
       state c1 = JNum 0 ∧ age c1 = 0).
Proof.
  intros Hwf Htrail Hlen Hc0 Hpos Hfin Hfail.
  assert (∀ k, (k ≤ n)%nat → ¬ in_survive_range gs r (ticks w gs r cs k g) y x)
    as Hfail'.
  { intros k Hk. apply (Hfail k); [done|]. by apply run_ticks. }
  assert (is_Some (grid_get (ticks w gs r cs (S n) g) y x)) as [c1 Hc1].
  { apply (wf_grid_get gs); [by apply wf_ticks|..];
      eapply (wf_grid_get_inv gs g); eauto. }
  exists (ticks w gs r cs (S n) g), c1. split_and!; [by apply run_ticks|done|..].
  - intros Hage.
    rewrite (trail_persists w gs r cs y x Htrail g c0 (S n)) in Hc1;
      [|done|done|done|auto with lia|lia].
    injection Hc1 as <-. simpl. split_and!; [done| |done].
    by apply positive_not_zero.
  - intros [Hkept Hage].
    rewrite (trail_clears w gs r cs y x Htrail g c0 n) in Hc1;
      [|done|done|done|auto with lia|lia|lia].
    by injection Hc1 as <-.
Qed.

(** ** C7: edits outside the grid *)

(** C7, counterexample.  A click at column -1 of row 8 of the 8 by 8
    grid (so [col = -1] and [row = rows]) raises nothing: both handlers
    return normally. *)
Lemma out_of_bounds_claim_fails :
  ¬ out_of_bounds_claim eight gameOfLife centered_glider (-1) 8.
Proof. intros Hclaim. by destruct Hclaim as [Hclick _]. Qed.

Lemma cycle_state_num s states :
  0 ≤ s ≤ states → cycle_state (JNum s) states = JNum ((s + 1) `mod` (states + 1)).
Proof.
  intros Hs. unfold cycle_state.
  replace (states + 1 =? 0) with false by lia.
  by rewrite Z.rem_mod_nonneg by lia.
Qed.

(** C7, amended.  On a grid of the announced size, the single-cell edits
    of [handleCanvasClick] and [handleCanvasMouseDown] with the row or the
    column outside the grid raise no error and leave the grid as it is; in
    bounds they set the cell's state (the click to the next state of the
    cycle [(state + 1) % (states + 1)], the mouse-down to 1 on a cell in
    state 0 and to 0 otherwise), reset its age to 0, mark it changed, and
    leave every other cell alone. *)
Theorem edit_bounds gs r g x y :
  wf_grid gs g →
  (in_bounds gs y x = false →
     handleCanvasClick false gs r g x y = Some g ∧
     handleCanvasMouseDown false false gs g x y = Some g) ∧
  (in_bounds gs y x = true →
     ∃ c g1 g2,
       grid_get g y x = Some c ∧
       handleCanvasClick false gs r g x y = Some g1 ∧
       grid_get g1 y x =
         Some (mkCell (cycle_state (state c) (states r)) 0 (previousStates c) true) ∧
       handleCanvasMouseDown false false gs g x y = Some g2 ∧
       grid_get g2 y x =
         Some (mkCell (toggle_state (state c)) 0 (previousStates c) true) ∧
       shape g1 = shape g ∧ shape g2 = shape g ∧
       ∀ y' x', (y', x') ≠ (y, x) →
         grid_get g1 y' x' = grid_get g y' x' ∧ grid_get g2 y' x' = grid_get g y' x').
Proof.
  intros Hwf. unfold handleCanvasClick, handleCanvasMouseDown. simpl. split.
  - by intros ->.
  - intros Hin. rewrite Hin.
    destruct (wf_grid_get gs g y x) as [c Hc]; [done|apply in_bounds_true in Hin; lia..|].
    exists c. rewrite !(grid_update_Some _ _ _ _ c) by done.
    do 2 eexists. split_and!; [done|done| |done| | | |].
    + by rewrite grid_get_put_eq by eauto.
    + by rewrite grid_get_put_eq by eauto.
    + apply shape_put.
    + apply shape_put.
    + intros y' x' Hne. split; apply grid_get_put_ne; congruence.
Qed.

(** ** C8: stamping a pattern *)

(** C8, counterexample.  The 1 by 1 pattern [[7]] stamped on a blank
    cell under Conway's rules ([states = 1]): the cell takes the state 7,
    not 7 clamped to 1. *)
Lemma stamp_clamps_claim_fails :
  ¬ stamp_clamps_claim gameOfLife one_by_one lone_dead [[JNum 7]].
Proof.
  intros Hclaim.
  by pose proof (Hclaim [[mkCell (JNum 7) 0 [] false]] 0 0 7 _
                   eq_refl eq_refl eq_refl eq_refl).
Qed.

Section stamping.
Context (gs : GridSize) (pattern : list (list jsval)) (g : Grid).
Hypothesis Hwf : wf_grid gs g.

Lemma applyPattern_positions row0 :
  pattern !! 0%nat = Some row0 →
  applyPattern gs g pattern =
  for_each (positions (pattern_size pattern))
    (λ p, applyPattern_body gs pattern (centerY gs pattern) (centerX gs pattern) p.1 p.2)
    (JSON_copy g).
Proof.
  intros Hrow0. unfold applyPattern, for_range, positions, pattern_size, centerY, centerX.
  rewrite Hrow0. simpl. by rewrite for_each_nested.
Qed.

Lemma stamp_inv_init : stamp_inv gs pattern g [] (JSON_copy g).
Proof.
  split; [apply shape_JSON_copy|]. intros y x. rewrite grid_get_JSON_copy.
  by destruct (grid_get g y x).
Qed.

Lemma stamp_inv_body done py px rest ng :
  positions (pattern_size pattern) = done ++ (py, px) :: rest →
  stamp_inv gs pattern g done ng →
  ∃ ng', applyPattern_body gs pattern (centerY gs pattern) (centerX gs pattern) py px ng
         = Some ng' ∧
         stamp_inv gs pattern g (done ++ [(py, px)]) ng'.
Proof.
  intros Hpos [Hshape Hget].
  assert ((py, px) ∈ positions (pattern_size pattern)) as [Hpy Hpx]%elem_of_positions.
  { rewrite Hpos. apply elem_of_app. right. left. }
  simpl in Hpy, Hpx.
  assert ((py, px) ∉ done) as Hfresh.
  { pose proof (NoDup_positions (pattern_size pattern)) as Hnd. rewrite Hpos in Hnd.
    apply NoDup_app in Hnd as (_ & Hnd & _). intros Hin. apply (Hnd _ Hin). left. }
  pose (cy := centerY gs pattern). pose (cx := centerX gs pattern).
  fold cy cx in Hget |- *.
  unfold applyPattern_body.
  destruct ((0 <=? cy + py) && (cy + py <? rows gs) && (0 <=? cx + px)
            && (cx + px <? cols gs)) eqn:Hin.
  - destruct (lookup_lt_is_Some_2 pattern (Z.to_nat py)) as [prow Hprow]; [lia|].
    assert (at_index pattern py = Some prow) as Hat by (apply at_index_Some; split; [lia|done]).
    rewrite Hat. simpl.
    destruct (wf_grid_get gs g (cy + py) (cx + px)) as [c Hc]; [done|lia..|].
    assert (grid_get ng (cy + py) (cx + px) = Some (JSON_cell c)) as Hng.
    { rewrite Hget, Hc. simpl. rewrite bool_decide_eq_false_2; [done|].
      by replace (cy + py - cy) with py by lia; replace (cx + px - cx) with px by lia. }
    rewrite (grid_update_Some _ _ _ _ _ Hng). eexists. split; [done|]. split.
    + by rewrite shape_put.
    + fold cy cx. intros y x. destruct (decide ((cy + py, cx + px) = (y, x))) as [[= <- <-]|Hne].
      * rewrite grid_get_put_eq by eauto. rewrite Hc. simpl.
        replace (cy + py - cy) with py by lia. replace (cx + px - cx) with px by lia.
        rewrite bool_decide_eq_true_2 by (apply elem_of_app; right; left).
        unfold pattern_value. by rewrite Hat.
      * rewrite grid_get_put_ne by done. rewrite Hget.
        destruct (grid_get g y x) as [c'|]; simpl; [|done].
        f_equal. apply (f_equal (λ b : bool, if b then _ else _)).
        apply bool_decide_ext. rewrite elem_of_app, list_elem_of_singleton.
        split; [tauto|]. intros [?|[= Hy Hx]]; [done|].
        destruct Hne. f_equal; lia.
  - exists ng. split; [done|]. split; [done|]. fold cy cx.
    intros y x. rewrite Hget.
    destruct (grid_get g y x) as [c'|] eqn:Hc'; simpl; [|done].
    f_equal. apply (f_equal (λ b : bool, if b then _ else _)).
    apply bool_decide_ext. rewrite elem_of_app, list_elem_of_singleton.
    split; [tauto|]. intros [?|[= Hy Hx]]; [done|].
    apply (wf_grid_get_inv gs) in Hc'; [|done]. lia.
Qed.

(** Stamping never throws on a pattern with a first row, and writes the
    pattern values, as they are, over the copy of the grid. *)
Lemma applyPattern_stamped row0 :
  pattern !! 0%nat = Some row0 →
  ∃ g', applyPattern gs g pattern = Some g' ∧
        shape g' = shape g ∧
        ∀ y x, grid_get g' y x =
               stamped gs pattern y x <$> (JSON_cell <$> grid_get g y x).
Proof.
  intros Hrow0. rewrite (applyPattern_positions row0) by done.
  destruct (for_each_invariant (stamp_inv gs pattern g)
              (positions (pattern_size pattern))
              (λ p, applyPattern_body gs pattern (centerY gs pattern)
                      (centerX gs pattern) p.1 p.2)
              (JSON_copy g)) as (g' & -> & Hshape & Hget).
  - apply stamp_inv_init.
  - intros done [py px] rest ng. apply stamp_inv_body.
  - exists g'. split_and!; [done..|].
    intros y x. rewrite Hget.
    destruct (grid_get g y x) as [c|]; simpl; [|done].
    f_equal. unfold stamped, covered. apply (f_equal (λ b : bool, if b then _ else _)).
    apply bool_decide_ext. rewrite elem_of_positions. simpl. done.
Qed.
End stamping.

(** C8, amended.  For every grid of the announced size and every pattern
    with a first row, stamping raises no error and keeps the shape of the
    grid; each grid cell covered by the centred pattern takes the pattern
    value as it is, without clamping, as its state, and age 0, and keeps
    its changed flag; pattern cells that land outside the grid are
    dropped; every other cell keeps its age and its changed flag, and its
    state, except that a [NaN], [Infinity] or [-Infinity] state comes back
    as [null] from the copy. *)
Theorem stamp_pattern gs g pattern row0 :
  wf_grid gs g →
  pattern !! 0%nat = Some row0 →
  ∃ g', applyPattern gs g pattern = Some g' ∧
        shape g' = shape g ∧
        ∀ y x c, grid_get g y x = Some c →
          ∃ c', grid_get g' y x = Some c' ∧
                changed c' = changed c ∧ previousStates c' = previousStates c ∧
                if covered gs pattern y x then
                  state c' = pattern_value pattern (y - centerY gs pattern)
                                                   (x - centerX gs pattern) ∧
                  age c' = 0
                else
                  age c' = age c ∧ state c' = JSON_val (state c) ∧
                  (state c ∉ [JNaN; JInfinity; JNegInfinity] → state c' = state c).
Proof.
  intros Hwf Hrow0.
  destruct (applyPattern_stamped gs pattern g Hwf row0 Hrow0) as (g' & Happly & Hshape & Hget).
  exists g'. split_and!; [done..|].
  intros y x c Hc. rewrite Hget, Hc. simpl. eexists. split; [done|].
  unfold stamped. destruct (covered gs pattern y x); simpl; [done|].
  split_and!; [done..|]. intros Hnot.
  destruct (state c); try done; exfalso; apply Hnot;
    repeat first [apply list_elem_of_here|apply list_elem_of_further].
Qed.

(** ** C2: the glider *)

Lemma count_omap_foldr {A B} (v : B) (P : A → bool) (l : list A) :
  Z.of_nat (length (omap (λ d, if P d then Some v else None) l))
  = foldr (λ d n, Z.b2z (P d) + n) 0 l.
Proof.
  induction l as [|d l IH]; [done|]. simpl.
  destruct (P d); simpl; change (list_omap _ _ ?f l) with (omap f l); lia.
Qed.

Lemma omap_ext' {A B} (f h : A → option B) (l : list A) :
  (∀ a, a ∈ l → f a = h a) → omap f l = omap h l.
Proof.
  induction l as [|a l IH]; intros Hext; [done|]. simpl.
  rewrite (Hext a) by left.
  change (list_omap _ _ ?f l) with (omap f l).
  rewrite IH; [done|]. intros b Hb. apply Hext. by right.
Qed.

Lemma foldr_count_ext {A} (P Q : A → bool) (l : list A) :
  (∀ a, P a = Q a) →
  foldr (λ d n, Z.b2z (P d) + n) 0 l = foldr (λ d n, Z.b2z (Q d) + n) 0 l.
Proof. intros Hext. induction l as [|d l IH]; simpl; [done|]. by rewrite Hext, IH. Qed.

Section conway.
Context (gs : GridSize) (cs : ColorScheme) (g : Grid) (f : Z → Z → bool).
Hypothesis Hwf : wf_grid gs g.
Hypothesis Htrail : trailEffect cs = false.
Hypothesis Hshows : shows g f.
Hypothesis Hinside : ∀ y x, f y x = true → 0 ≤ y < rows gs ∧ 0 ≤ x < cols gs.

(** With clipped edges and all live cells on the grid, the loop counts
    the live neighbours of the plane. *)
Lemma neighborCount_life y x :
  neighborCount gs gameOfLife g y x = life_count f y x.
Proof.
  unfold neighborCount, neighbor_states, life_count.
  rewrite <-(count_omap_foldr (Fin 1) (λ d, f (y + d.1) (x + d.2))). do 2 f_equal.
  apply omap_ext'. intros d _. unfold live_neighbor, neighbor_at. simpl.
  destruct (in_bounds gs (y + d.1) (x + d.2)) eqn:Hin; simpl.
  - apply in_bounds_true in Hin.
    destruct (wf_grid_get gs g (y + d.1) (x + d.2)) as [c Hc]; [done|lia..|].
    rewrite Hc. simpl. rewrite (Hshows _ _ _ Hc). by destruct (f _ _).
  - apply in_bounds_false in Hin.
    destruct (f (y + d.1) (x + d.2)) eqn:Hf; [|done].
    destruct Hin. apply Hinside in Hf. lia.
Qed.

(** One step of the engine under Conway's rules is one generation. *)
Lemma step_shows_life w : shows (step w gs gameOfLife cs g) (life f).
Proof.
  intros y x c'. rewrite grid_get_step.
  destruct (grid_get g y x) as [c|] eqn:Hc; simpl; [|done]. intros [= <-].
  pose proof (Hshows _ _ _ Hc) as Hst.
  unfold next_cell, apply_rules, write_back, JSON_cell.
  rewrite neighborCount_life, Htrail, Hst. unfold life. simpl.
  destruct (f y x); simpl.
  - destruct ((2 <=? life_count f y x) && (life_count f y x <=? 3)); simpl;
      [|by destruct w].
    replace (age c =? age c + 1) with false by lia. by destruct w.
  - replace ((3 <=? life_count f y x) && (life_count f y x <=? 3))
      with (life_count f y x =? 3) by lia.
    by destruct (life_count f y x =? 3), w.
Qed.
End conway.

(** *** Generations on the plane *)

Lemma life_count_zero f a b :
  (∀ d, d ∈ directions Moore → f (a + d.1) (b + d.2) = false) →
  life_count f a b = 0.
Proof.
  unfold life_count. induction (directions Moore) as [|d l IH]; intros Hdead; [done|].
  simpl. rewrite (Hdead d) by left. rewrite IH; [done|].
  intros d' Hd'. apply Hdead. by right.
Qed.

(** A generation grows the populated square by at most one cell on each
    side. *)
Lemma life_supported lo hi f :
  supported lo hi f → supported (lo - 1) (hi + 1) (life f).
Proof.
  intros Hsupp a b Hlife.
  destruct (decide (lo - 1 ≤ a ≤ hi + 1 ∧ lo - 1 ≤ b ≤ hi + 1)) as [|Hout]; [done|].
  exfalso. unfold life in Hlife.
  assert (f a b = false) as Hab.
  { destruct (f a b) eqn:Hf; [|done]. apply Hsupp in Hf. exfalso. lia. }
  rewrite Hab, life_count_zero in Hlife; [done|].
  intros d Hd. pose proof (proj1 (Forall_forall _ _) (directions_near Moore) d Hd) as Hnear.
  simpl in Hnear. destruct (f (a + d.1) (b + d.2)) eqn:Hf; [|done]. apply Hsupp in Hf. exfalso. lia.
Qed.

(** Generations commute with translations. *)
Lemma life_shift f h r0 c0 :
  (∀ a b, f a b = h (a - r0) (b - c0)) →
  ∀ a b, life f a b = life h (a - r0) (b - c0).
Proof.
  intros Hshift a b. unfold life.
  assert (life_count f a b = life_count h (a - r0) (b - c0)) as ->.
  { unfold life_count. apply foldr_count_ext. intros d. rewrite Hshift.
    f_equal; lia. }
  by rewrite Hshift.
Qed.

Lemma elem_of_box lo hi a b : (a, b) ∈ box lo hi ↔ lo ≤ a ≤ hi ∧ lo ≤ b ≤ hi.
Proof.
  unfold box. rewrite list_elem_of_bind. split.
  - intros (a' & Hin & Ha'). apply list_elem_of_bind in Hin as (b' & Hin & Hb').
    apply list_elem_of_singleton in Hin. injection Hin as -> ->.
    apply elem_of_seqZ in Ha', Hb'. lia.
  - intros [Ha Hb]. exists a. split; [|apply elem_of_seqZ; lia].
    apply list_elem_of_bind. exists b. split; [by apply list_elem_of_singleton|].
    apply elem_of_seqZ; lia.
Qed.

(** A check that computes on a square holds at each of its cells. *)
Lemma box_forall (p : Z → Z → bool) lo hi :
  forallb (λ ab, p ab.1 ab.2) (box lo hi) = true →
  ∀ a b, lo ≤ a ≤ hi → lo ≤ b ≤ hi → p a b = true.
Proof.
  intros Hall a b Ha Hb.
  apply (proj1 (forallb_forall _ _) Hall (a, b)).
  apply list_elem_of_In, elem_of_box. done.
Qed.

Lemma glider_shape_supported : supported 0 2 glider_shape.
Proof.
  intros a b. unfold glider_shape, pattern_value.
  destruct (at_index glider a) as [prow|] eqn:Hrow; simpl; [|done].
  destruct (at_index prow b) as [v|] eqn:Hv; simpl; [|done]. intros _.
  apply at_index_Some in Hrow as [Ha Hrow], Hv as [Hb Hv].
  assert (length prow = 3%nat) as Hlen.
  { destruct (Z.to_nat a) as [|[|[|?]]]; simplify_eq/=; done. }
  apply lookup_lt_Some in Hrow, Hv. simpl in Hrow. lia.
Qed.

Lemma glider_gen_supported n :
  supported (- Z.of_nat n) (2 + Z.of_nat n) (glider_gen n).
Proof.
  induction n as [|n IH]; [apply glider_shape_supported|].
  replace (- Z.of_nat (S n)) with (- Z.of_nat n - 1) by lia.
  replace (2 + Z.of_nat (S n)) with (2 + Z.of_nat n + 1) by lia.
  by apply life_supported.
Qed.

(** In its first three generations the glider stays within the 4 by 4
    square at its corner. *)
Lemma glider_gen_inside n : (n ≤ 3)%nat → supported 0 3 (glider_gen n).
Proof.
  intros Hn a b Hlive.
  pose proof (glider_gen_supported n a b Hlive) as Hbox.
  assert (stays_inside n a b = true) as Hcheck.
  { destruct n as [|[|[|[|?]]]]; [..|lia];
      (apply (box_forall (stays_inside _) (-3) 5); [by vm_compute|lia|lia]). }
  unfold stays_inside in Hcheck. rewrite Hlive in Hcheck. simpl in Hcheck. lia.
Qed.

(** After four generations the glider is itself, one row down and one
    column to the right. *)
Lemma glider_gen_4 a b : glider_gen 4 a b = glider_shape (a - 1) (b - 1).
Proof.
  destruct (decide (-4 ≤ a ≤ 6 ∧ -4 ≤ b ≤ 6)) as [[Ha Hb]|Hout].
  - apply eqb_prop. by apply (box_forall moved_by_one (-4) 6); [vm_compute|..].
  - destruct (glider_gen 4 a b) eqn:H4.
    { apply (glider_gen_supported 4) in H4. exfalso. lia. }
    destruct (glider_shape (a - 1) (b - 1)) eqn:H0; [|done].
    apply glider_shape_supported in H0. exfalso. lia.
Qed.

(** *** The glider on the grid *)

Section glider.
Context (gs : GridSize) (cs : ColorScheme) (r0 c0 : Z).
Hypothesis Htrail : trailEffect cs = false.
Hypothesis Hr0 : 0 ≤ r0 ∧ r0 + 4 ≤ rows gs.
Hypothesis Hc0 : 0 ≤ c0 ∧ c0 + 4 ≤ cols gs.

Lemma glider_placed_inside n :
  (n ≤ 3)%nat → ∀ y x, glider_placed r0 c0 n y x = true → 0 ≤ y < rows gs ∧ 0 ≤ x < cols gs.
Proof. intros Hn y x Hlive. apply (glider_gen_inside n Hn) in Hlive. lia. Qed.

Lemma ticks_shows_glider w g n :
  wf_grid gs g → shows g (glider_at r0 c0) → (n ≤ 4)%nat →
  shows (ticks w gs gameOfLife cs n g) (glider_placed r0 c0 n).
Proof.
  intros Hwf Hg. induction n as [|n IH]; intros Hn; [done|].
  assert (n ≤ 4)%nat as Hn4 by lia. assert (n ≤ 3)%nat as Hn3 by lia.
  rewrite ticks_S. intros y x c Hc.
  rewrite (step_shows_life gs cs (ticks w gs gameOfLife cs n g) (glider_placed r0 c0 n)
             (wf_ticks _ _ _ _ _ _ Hwf) Htrail (IH Hn4)
             (glider_placed_inside n Hn3) w y x c Hc).
  do 2 f_equal. by apply life_shift.
Qed.
End glider.

(** A grid of the announced size that shows [f], with [f] on the grid,
    displays it. *)
Lemma shows_displays gs g f :
  wf_grid gs g → shows g f →
  (∀ y x, f y x = true → 0 ≤ y < rows gs ∧ 0 ≤ x < cols gs) →
  displays gs g f.
Proof.
  intros Hwf Hshows Hinside. split_and!; [done| |done].
  intros y x Hy Hx. destruct (wf_grid_get gs g y x Hwf Hy Hx) as [c Hc].
  exists c. split; [done|]. by apply (Hshows y x).
Qed.

Lemma displays_shows gs g f : displays gs g f → shows g f.
Proof.
  intros (Hwf & Hcells & _) y x c Hc.
  destruct (wf_grid_get_inv gs g y x c Hwf Hc) as [Hy Hx].
  destruct (Hcells y x Hy Hx) as (c' & Hc' & Hstate). congruence.
Qed.

(** C2.  Conway's rules (survive on 2 to 3, birth on 3, one state), the
    Moore neighbourhood, clipped edges, no trail.  On a grid of the
    announced size that holds the glider of [patterns.glider] with its
    corner at [(r0, c0)], at least four rows and columns away from the
    far edges, and dead cells everywhere else, four steps of the engine
    (by either implementation) give a grid of the same size that holds
    the same glider with its corner at [(r0 + 1, c0 + 1)]: every cell of
    the [rows] by [cols] grid is there, in state 1 on the translated
    glider and in state 0 everywhere else. *)
Theorem glider_translates w gs cs g r0 c0 :
  wf_grid gs g →
  trailEffect cs = false →
  0 ≤ r0 ∧ r0 + 4 ≤ rows gs →
  0 ≤ c0 ∧ c0 + 4 ≤ cols gs →
  shows g (glider_at r0 c0) →
  ∃ g4, run w gs gameOfLife cs 4 g = Some g4 ∧
        displays gs g4 (glider_at (r0 + 1) (c0 + 1)).
Proof.
  intros Hwf Htrail Hr0 Hc0 Hg. exists (ticks w gs gameOfLife cs 4 g).
  split; [by apply run_ticks|].
  apply shows_displays; [by apply wf_ticks| |].
  - intros y x c Hc.
    assert (4 ≤ 4)%nat as Hfour by lia.
    rewrite (ticks_shows_glider gs cs r0 c0 Htrail Hr0 Hc0 w g 4 Hwf Hg Hfour y x c Hc).
    unfold glider_placed. rewrite glider_gen_4. unfold glider_at. do 3 f_equal; lia.
  - intros y x Hlive. unfold glider_at in Hlive.
    apply glider_shape_supported in Hlive. lia.
Qed.

(** ** The theorems at concrete inputs *)

Lemma shows_check gs g f :
  wf_grid gs g → forallb (shows_at g f) (positions gs) = true → shows g f.
Proof.
  intros Hwf Hall y x c Hc.
  pose proof (proj1 (forallb_forall _ _) Hall (y, x)) as Hcheck.
  unfold shows_at in Hcheck. simpl in Hcheck. rewrite Hc in Hcheck.
  assert (In (y, x) (positions gs)) as Hin.
  { apply list_elem_of_In, elem_of_positions. by eapply wf_grid_get_inv. }
  apply Hcheck in Hin. by apply bool_decide_eq_true in Hin.
Qed.

Lemma step_is_simultaneous_witness :
  wf_grid eight centered_glider ∧
  worker_onmessage (mkMsg centered_glider gameOfLife eight defaultColors) =
    Some (mkResponse (step true eight gameOfLife defaultColors centered_glider)
            (changed_positions eight
               (step true eight gameOfLife defaultColors centered_glider))) ∧
  computeNextGeneration false eight gameOfLife defaultColors centered_glider
    = Some (step false eight gameOfLife defaultColors centered_glider).
Proof.
  assert (wf_grid eight centered_glider) as Hwf
    by (apply (bool_decide_unpack _); vm_compute; exact I).
  destruct (step_is_simultaneous eight gameOfLife defaultColors centered_glider Hwf)
    as (Hworker & Hfallback & _).
  exact (conj Hwf (conj Hworker Hfallback)).
Defined.

Lemma glider_translates_witness :
  shows centered_glider (glider_at 3 3) ∧
  ∃ g4, run true eight gameOfLife defaultColors 4 centered_glider = Some g4 ∧
        displays eight g4 (glider_at 4 4).
Proof.
  assert (wf_grid eight centered_glider) as Hwf
    by (apply (bool_decide_unpack _); vm_compute; exact I).
  assert (shows centered_glider (glider_at 3 3)) as Hshows
    by (apply (shows_check eight); [exact Hwf|vm_compute; reflexivity]).
  split; [exact Hshows|].
  apply (glider_translates true eight defaultColors centered_glider 3 3).
  - exact Hwf.
  - reflexivity.
  - simpl. lia.
  - simpl. lia.
  - exact Hshows.
Defined.

Lemma birth_state_is_rounded_average_witness :
  ∃ g' c',
    computeNextGeneration true one_by_three birth_at_two defaultColors one_and_three
      = Some g' ∧
    grid_get g' 0 1 = Some c' ∧ state c' = JNum 2 ∧ age c' = 0 ∧ changed c' = true.
Proof.
  destruct (birth_state_is_rounded_average true one_by_three birth_at_two
              defaultColors one_and_three 0 1 blank)
    as (g' & c' & Hrun & Hget & _ & Hage & Hchanged & Htwo).
  - apply (bool_decide_unpack _). vm_compute. exact I.
  - reflexivity.
  - reflexivity.
  - vm_compute. split; discriminate.
  - simpl. lia.
  - vm_compute. reflexivity.
  - exists g', c'. split; [exact Hrun|]. split; [exact Hget|].
    split; [|exact (conj Hage Hchanged)].
    apply Htwo; [reflexivity|]. vm_compute. reflexivity.
Defined.

Lemma trail_decay_witness :
  ∃ g1 c1,
    run true one_by_one gameOfLife (withTrail 3) 4 lone_live = Some g1 ∧
    grid_get g1 0 0 = Some c1 ∧ state c1 = JNum 0 ∧ age c1 = 0.
Proof.
  destruct (trail_decay true one_by_one gameOfLife (withTrail 3) lone_live 0 0
              (mkCell (JNum 1) 0 [] false) 3)
    as (g1 & c1 & Hrun & Hget & _ & Hclear).
  - apply (bool_decide_unpack _). vm_compute. exact I.
  - reflexivity.
  - reflexivity.
  - reflexivity.
  - exists (Fin 1). reflexivity.
  - intros Hw. discriminate Hw.
  - intros k gk Hk Hrun.
    assert (neighborCount one_by_one gameOfLife gk 0 0 = 0) as Hcount.
    { destruct k as [|[|[|[|k]]]]; [| | | |lia];
        vm_compute in Hrun; injection Hrun as <-; reflexivity. }
    unfold in_survive_range. rewrite Hcount. simpl. lia.
  - exists g1, c1. split; [exact Hrun|]. split; [exact Hget|].
    apply Hclear. simpl. lia.
Defined.

Lemma edit_bounds_witness :
  (handleCanvasClick false eight gameOfLife centered_glider (-1) 8
     = Some centered_glider ∧
   handleCanvasMouseDown false false eight centered_glider (-1) 8
     = Some centered_glider) ∧
  ∃ c g1 g2,
    grid_get centered_glider 3 4 = Some c ∧
    handleCanvasClick false eight gameOfLife centered_glider 4 3 = Some g1 ∧
    grid_get g1 3 4 = Some (mkCell (JNum 0) 0 [] true) ∧
    handleCanvasMouseDown false false eight centered_glider 4 3 = Some g2 ∧
    grid_get g2 3 4 = Some (mkCell (JNum 0) 0 [] true).
Proof.
  assert (wf_grid eight centered_glider) as Hwf
    by (apply (bool_decide_unpack _); vm_compute; exact I).
  split.
  - apply (edit_bounds eight gameOfLife centered_glider (-1) 8 Hwf). reflexivity.
  - destruct (proj2 (edit_bounds eight gameOfLife centered_glider 4 3 Hwf) eq_refl)
      as (c & g1 & g2 & Hc & Hclick & Hg1 & Hdown & Hg2 & _).
    exists c, g1, g2.
    assert (c = mkCell (JNum 1) 0 [] false) as Hcell
      by (vm_compute in Hc; injection Hc as <-; reflexivity).
    rewrite Hcell in Hg1, Hg2.
    exact (conj Hc (conj Hclick (conj Hg1 (conj Hdown Hg2)))).
Defined.

Lemma stamp_pattern_witness :
  ∃ g', applyPattern eight (initializeGrid eight) glider = Some g' ∧
        shape g' = shape (initializeGrid eight) ∧
        (state <$> grid_get g' 3 4) = Some (JNum 1) ∧
        (state <$> grid_get g' 0 0) = Some (JNum 0).
Proof.
  destruct (stamp_pattern eight (initializeGrid eight) glider [JNum 0; JNum 1; JNum 0])
    as (g' & Happly & Hshape & Hcells).
  - apply (bool_decide_unpack _). vm_compute. exact I.
  - reflexivity.
  - exists g'. split; [exact Happly|]. split; [exact Hshape|]. split.
    + destruct (Hcells 3 4 blank eq_refl) as (c' & Hget & _ & _ & Hc').
      assert (covered eight glider 3 4 = true) as Hcov by reflexivity.
      rewrite Hcov in Hc'. destruct Hc' as [Hstate _].
      rewrite Hget. simpl. rewrite Hstate. reflexivity.
    + destruct (Hcells 0 0 blank eq_refl) as (c' & Hget & _ & _ & Hc').
      assert (covered eight glider 0 0 = false) as Hcov by reflexivity.
      rewrite Hcov in Hc'. destruct Hc' as (_ & Hstate & _).
      rewrite Hget. simpl. rewrite Hstate. reflexivity.
Defined.

(** * Further properties *)

(** ** The step engine *)

Lemma life_ext f h :
  (∀ a b, f a b = h a b) → ∀ a b, life f a b = life h a b.
Proof.
  intros Hext a b. rewrite (life_shift f h 0 0); [by rewrite !Z.sub_0_r|].
  intros a' b'. by rewrite !Z.sub_0_r.
Qed.

Lemma displays_ext gs g f h :
  (∀ y x, f y x = h y x) → displays gs g f → displays gs g h.
Proof.
  intros Hext (Hwf & Hcells & Hinside). split_and!; [done| |].
  - intros y x Hy Hx. rewrite <-Hext. by apply Hcells.
  - intros y x. rewrite <-Hext. apply Hinside.
Qed.

(** One step is one generation on the board. *)
Lemma step_displays w gs cs g f :
  trailEffect cs = false → displays gs g f →
  displays gs (step w gs gameOfLife cs g) (life_on gs f).
Proof.
  intros Htrail Hdisp. pose proof Hdisp as (Hwf & Hcells & Hinside).
  apply shows_displays; [by apply wf_step| |].
  - intros y x c Hc.
    rewrite (step_shows_life gs cs g f Hwf Htrail (displays_shows _ _ _ Hdisp)
               Hinside w y x c Hc).
    unfold life_on.
    destruct (wf_grid_get_inv gs _ y x c (wf_step w gs gameOfLife cs g Hwf) Hc).
    by rewrite (proj2 (in_bounds_true gs y x)).
  - intros y x [Hin _]%andb_true_iff. by apply in_bounds_true.
Qed.

Lemma ticks_displays w gs cs g f n :
  trailEffect cs = false → displays gs g f →
  displays gs (ticks w gs gameOfLife cs n g) (Nat.iter n (life_on gs) f).
Proof.
  intros Htrail Hdisp. induction n as [|n IH]; [done|].
  rewrite ticks_S. simpl. by apply step_displays.
Qed.

(** While the generations on the plane stay on the grid, they are the
    generations on the board. *)
Lemma life_on_life gs f n :
  (∀ k y x, (k ≤ n)%nat → Nat.iter k life f y x = true →
            0 ≤ y < rows gs ∧ 0 ≤ x < cols gs) →
  ∀ y x, Nat.iter n (life_on gs) f y x = Nat.iter n life f y x.
Proof.
  induction n as [|n IH]; intros Hstay y x; [done|]. simpl. unfold life_on at 1.
  rewrite (life_ext _ (Nat.iter n life f))
    by (apply IH; intros k y' x' Hk; apply Hstay; lia).
  destruct (life (Nat.iter n life f) y x) eqn:Hlive; [|by rewrite andb_false_r].
  rewrite andb_true_r. apply in_bounds_true. by apply (Hstay (S n)); [lia|].
Qed.

(** X1.  Under Conway's rules, with clipped edges and no trail, the engine
    (by either implementation) plays the Game of Life on the board of the
    grid: from a grid that displays a configuration, [n] steps give the
    grid of the same size that displays its [n]-th generation, the cells
    off the grid counting as dead; and while the generations on the
    unbounded plane stay on the grid, that is the [n]-th generation on the
    plane. *)
Theorem engine_is_conway w gs cs g f (n : nat) :
  trailEffect cs = false →
  displays gs g f →
  ∃ g', run w gs gameOfLife cs n g = Some g' ∧
        displays gs g' (Nat.iter n (life_on gs) f) ∧
        ((∀ k y x, (k ≤ n)%nat → Nat.iter k life f y x = true →
                   0 ≤ y < rows gs ∧ 0 ≤ x < cols gs) →
         displays gs g' (Nat.iter n life f)).
Proof.
  intros Htrail Hdisp. exists (ticks w gs gameOfLife cs n g).
  pose proof (ticks_displays w gs cs g f n Htrail Hdisp) as Hn.
  split_and!; [apply run_ticks, Hdisp|done|].
  intros Hstay. by apply (displays_ext gs _ _ _ (life_on_life gs f n Hstay)).
Qed.

Lemma all_dead_neighbor_states gs r g y x :
  all_dead g → neighbor_states gs r g y x = [].
Proof.
  intros Hdead. unfold neighbor_states.
  induction (directions (neighborhood r)) as [|d ds IH]; [done|]. simpl.
  change (list_omap _ _ ?f ds) with (omap f ds). rewrite IH.
  unfold live_neighbor. destruct (neighbor_at gs r y x d) as [p|]; simpl; [|done].
  destruct (grid_get g p.1 p.2) as [c|] eqn:Hc; simpl; [|done].
  by rewrite (Hdead _ _ _ Hc).
Qed.

Lemma next_cell_all_dead w gs r cs g y x c :
  all_dead g → 0 < birthMin r → grid_get g y x = Some c →
  next_cell w gs r cs g y x c = set_changed false (JSON_cell c).
Proof.
  intros Hdead Hbirth Hc. unfold next_cell, apply_rules, neighborCount, neighborSum.
  rewrite (all_dead_neighbor_states _ _ _ _ _ Hdead), (Hdead _ _ _ Hc). simpl.
  change (Z.of_nat 0) with 0.
  replace (birthMin r <=? 0) with false by lia. simpl.
  apply as_written_id. simpl. apply JSON_val_not_infinity.
Qed.

Lemma step_all_dead w gs r cs g :
  all_dead g → 0 < birthMin r →
  step w gs r cs g = (λ row : list Cell, (set_changed false ∘ JSON_cell) <$> row) <$> g.
Proof.
  intros Hdead Hbirth. unfold step. rewrite <-(imap_const _ g).
  apply imap_ext. intros i row Hrow. simpl. rewrite <-(imap_const _ row).
  apply imap_ext. intros j c Hc. simpl. apply next_cell_all_dead; [done..|].
  by rewrite grid_get_of_nat, Hrow.
Qed.

Lemma all_dead_step w gs r cs g :
  all_dead g → 0 < birthMin r → all_dead (step w gs r cs g).
Proof.
  intros Hdead Hbirth y x c'. rewrite grid_get_step.
  destruct (grid_get g y x) as [c|] eqn:Hc; simpl; [|done]. intros [= <-].
  rewrite next_cell_all_dead by done. simpl.
  apply positive_None_JSON_val. by apply (Hdead y x).
Qed.

Lemma omap_None {A B} (f : A → option B) (l : list A) :
  (∀ a, a ∈ l → f a = None) → omap f l = [].
Proof.
  induction l as [|a l IH]; intros Hnone; [done|]. simpl.
  rewrite (Hnone a) by left. apply IH. intros b Hb. apply Hnone. by right.
Qed.

(** X2.  With [birthMin > 0], a grid without a live cell is left alone by
    the step: the worker answers with the copy of the grid, every flag
    cleared, and an empty [changedCells]; and after any number of ticks,
    by either implementation, there is still no live cell. *)
Theorem dead_grid_stays_dead w gs r cs g (n : nat) :
  wf_grid gs g →
  0 < birthMin r →
  all_dead g →
  worker_onmessage (mkMsg g r gs cs) =
    Some (mkResponse
            ((λ row : list Cell, (set_changed false ∘ JSON_cell) <$> row) <$> g) []) ∧
  ∃ g', run w gs r cs n g = Some g' ∧ all_dead g'.
Proof.
  intros Hwf Hbirth Hdead. split.
  - rewrite worker_onmessage_step by done. rewrite <-(step_all_dead true gs r cs) by done.
    do 2 f_equal. unfold changed_positions. apply omap_None. intros [y x] _. simpl.
    rewrite grid_get_step.
    destruct (grid_get g y x) as [c|] eqn:Hc; simpl; [|done].
    change (write_back c _) with (next_cell true gs r cs g y x c).
    by rewrite next_cell_all_dead.
  - exists (ticks w gs r cs n g). split; [by apply run_ticks|].
    induction n as [|n IH]; [done|]. rewrite ticks_S. by apply all_dead_step.
Qed.

Lemma next_cell_changed_iff gs r cs g y x c z :
  state c = JNum z →
  changed (next_cell true gs r cs g y x c) = true ↔
  differs c (next_cell true gs r cs g y x c).
Proof.
  intros Hz. unfold next_cell, as_written, differs, apply_rules, write_back.
  rewrite Hz. simpl.
  destruct (Z.ltb_spec 0 z) as [Hpos|Hneg]; cbn [next_state differs_from].
  - destruct ((surviveMin r <=? _) && (_ <=? surviveMax r)).
    + assert ((age c =? age c + 1) = false) as Hage by lia.
      destruct (1 <? states r); [destruct (negb _)|]; simpl;
        rewrite ?Hage; simpl; (split; [intros _; right; lia|done]).
    + destruct (trailEffect cs); [destruct (Z.ltb_spec (trailLength cs) (age c + 1))|];
        simpl; (split; [intros _|done]);
        [left; intros [= ?]; lia|right; lia|left; intros [= ?]; lia].
  - destruct ((birthMin r <=? _) && (_ <=? birthMax r)); simpl.
    + split; [intros _|done]. left.
      destruct (1 <? states r); [|intros [= ?]; lia].
      unfold birth_average.
      destruct (neighborSum gs r g y x) as [sum|]; [|intros [= ?]; lia].
      destruct (_ =? 0); [destruct (_ =? 0); [done|destruct (0 <? _)]|];
        intros [= ?]; lia.
    + rewrite Hz. simpl. split; [done|]. intros [[]|[]]; done.
Qed.

Lemma elem_of_changed_positions gs g x y :
  mkPos x y ∈ changed_positions gs g ↔
  (y, x) ∈ positions gs ∧ ∃ c, grid_get g y x = Some c ∧ changed c = true.
Proof.
  unfold changed_positions. rewrite list_elem_of_omap. split.
  - intros ([y' x'] & Hin & Hentry). simpl in Hentry.
    destruct (grid_get g y' x') as [c|] eqn:Hc; simpl in Hentry; [|done].
    destruct (changed c) eqn:Hchanged; [|done]. injection Hentry as -> ->. eauto.
  - intros (Hin & c & Hc & Hchanged). exists (y, x). split; [done|]. simpl.
    rewrite Hc. simpl. by rewrite Hchanged.
Qed.

Lemma NoDup_omap_inj {A B} (f : A → option B) (l : list A) :
  (∀ a b y, f a = Some y → f b = Some y → a = b) → NoDup l → NoDup (omap f l).
Proof.
  intros Hinj. induction 1 as [|a l Ha Hl IH]; simpl; [constructor|].
  change (list_omap _ _ f l) with (omap f l).
  destruct (f a) as [y|] eqn:Hfa; [|done]. constructor; [|done].
  rewrite list_elem_of_omap. intros (b & Hb & Hfb).
  by rewrite (Hinj a b y Hfa Hfb) in Ha.
Qed.

(** X3.  On a grid of integer states, the [changed] flag of a cell of the
    next grid is set exactly when its state or its age differs from the
    cell of the grid before, and [changedCells] holds exactly the
    positions of those cells, each one once. *)
Theorem changed_cells_exact gs r cs g :
  wf_grid gs g →
  int_states g →
  ∃ resp,
    worker_onmessage (mkMsg g r gs cs) = Some resp ∧
    NoDup (changedCells resp) ∧
    ∀ y x c, grid_get g y x = Some c →
      ∃ c', grid_get (newGrid resp) y x = Some c' ∧
            (changed c' = true ↔ differs c c') ∧
            (mkPos x y ∈ changedCells resp ↔ differs c c').
Proof.
  intros Hwf Hint. eexists. split; [by apply worker_onmessage_step|]. simpl. split.
  - unfold changed_positions. apply NoDup_omap_inj; [|apply NoDup_positions].
    intros [y1 x1] [y2 x2] p H1 H2. simpl in H1, H2.
    destruct (grid_get _ y1 x1) as [c1|]; simpl in H1; [|done].
    destruct (grid_get _ y2 x2) as [c2|]; simpl in H2; [|done].
    destruct (changed c1), (changed c2); congruence.
  - intros y x c Hc. destruct (Hint _ _ _ Hc) as [z Hz].
    exists (next_cell true gs r cs g y x c).
    pose proof (next_cell_changed_iff gs r cs g y x c z Hz) as Hiff.
    split_and!; [by rewrite grid_get_step, Hc|done|].
    rewrite elem_of_changed_positions, grid_get_step, Hc. simpl. rewrite <-Hiff.
    split.
    + by intros (_ & c' & [= <-] & Hchanged).
    + intros Hchanged. split; [|eauto].
      apply elem_of_positions. by eapply wf_grid_get_inv.
Qed.

Lemma foldr_add_bounds (l : list num) lo hi :
  (∀ v, v ∈ l → ∃ s, v = Fin s ∧ lo ≤ s ≤ hi) →
  ∃ sum, foldr num_add (Fin 0) l = Fin sum ∧
         lo * Z.of_nat (length l) ≤ sum ≤ hi * Z.of_nat (length l).
Proof.
  induction l as [|v l IH]; intros Hl; simpl; [exists 0; split; [done|lia]|].
  destruct (Hl v ltac:(left)) as (s & -> & Hs).
  assert (∀ v', v' ∈ l → ∃ s', v' = Fin s' ∧ lo ≤ s' ≤ hi) as Hl'
    by (intros v' Hv'; apply Hl; by right).
  destruct (IH Hl') as (sum & -> & Hsum). exists (s + sum). split; [done|lia].
Qed.

Lemma Math_round_between s n lo hi :
  0 < n → lo * n ≤ s ≤ hi * n →
  lo ≤ Math_round (inject_Z s / inject_Z n)%Q ≤ hi.
Proof.
  intros Hn Hs. rewrite Math_round_div by done. split.
  - apply Z.div_le_lower_bound; lia.
  - apply Z.lt_succ_r, Z.div_lt_upper_bound; lia.
Qed.

(** On a grid that satisfies the cell invariant, the live neighbours have
    states from 1 to [states]. *)
Lemma neighbor_states_ok gs r g y x v :
  grid_ok r g → v ∈ neighbor_states gs r g y x → ∃ s, v = Fin s ∧ 1 ≤ s ≤ states r.
Proof.
  intros Hok (d & _ & Hlive)%list_elem_of_omap. unfold live_neighbor in Hlive.
  destruct (neighbor_at gs r y x d) as [p|]; simpl in Hlive; [|done].
  destruct (grid_get g p.1 p.2) as [c|] eqn:Hc; simpl in Hlive; [|done].
  destruct (Hok _ _ _ Hc) as (z & Hz & Hzs & _). rewrite Hz in Hlive. simpl in Hlive.
  destruct (Z.ltb_spec 0 z); [|done]. injection Hlive as <-.
  exists z. split; [done|lia].
Qed.

(** X4.  A newborn's state lies between the lowest and the highest state
    among its live neighbours, so the clamp of the birth rule never bites:
    for a dead cell with at least one live neighbour, a neighbour count in
    the birth range and [states > 1], whose live neighbours have integer
    states from [lo] to [hi] with [1 <= lo] and [hi <= states], the step
    gives the state [Math.round(stateSum / neighbors)] itself, and it is
    between [lo] and [hi].  On a grid that satisfies the cell invariant
    this holds with [lo = 1] and [hi = states]. *)
Theorem newborn_between_neighbours w gs r cs g y x cell lo hi :
  wf_grid gs g →
  grid_get g y x = Some cell →
  positive (state cell) = None →
  birthMin r ≤ neighborCount gs r g y x ≤ birthMax r →
  1 < states r →
  0 < neighborCount gs r g y x →
  1 ≤ lo → hi ≤ states r →
  (∀ v, v ∈ neighbor_states gs r g y x → ∃ s, v = Fin s ∧ lo ≤ s ≤ hi) →
  ∃ g' c' sum v,
    computeNextGeneration w gs r cs g = Some g' ∧
    grid_get g' y x = Some c' ∧
    neighborSum gs r g y x = Fin sum ∧
    v = Math_round (inject_Z sum / inject_Z (neighborCount gs r g y x))%Q ∧
    state c' = JNum v ∧ lo ≤ v ≤ hi.
Proof.
  intros Hwf Hcell Hdead Hbirth Hstates Hn Hlo Hhi Hbetween.
  destruct (foldr_add_bounds _ lo hi Hbetween) as (sum & Hsum & Hbounds).
  pose proof (Math_round_between sum (neighborCount gs r g y x)
                lo hi Hn Hbounds) as Hround.
  eexists (step w gs r cs g), (next_cell w gs r cs g y x cell), sum, _.
  split_and!; [by apply computeNextGeneration_step|by rewrite grid_get_step, Hcell
              |done|done| |lia|lia].
  rewrite next_cell_birth by done. unfold neighborSum. rewrite Hsum. simpl.
  f_equal. unfold clamp.
  destruct (Z.ltb_spec (Math_round (inject_Z sum
                                    / inject_Z (neighborCount gs r g y x))%Q) 1); [lia|].
  destruct (Z.ltb_spec (states r)
              (Math_round (inject_Z sum
                           / inject_Z (neighborCount gs r g y x))%Q)); [lia|done].
Qed.

(** ** A cell that keeps surviving *)

Section survivor.
Context (w : bool) (gs : GridSize) (r : Rules) (cs : ColorScheme) (y x : Z).

Lemma next_cell_survives g cell (s : Z) :
  positive (state cell) = Some (Fin s) →
  in_survive_range gs r g y x →
  next_cell w gs r cs g y x cell =
  mkCell (if 1 <? states r then JNum (Z.min (s + 1) (states r)) else state cell)
         (age cell + 1) (previousStates cell) true.
Proof.
  intros Hpos Hin. unfold in_survive_range in Hin.
  pose proof (proj1 (positive_Some _ _) Hpos) as [Hs Hs_pos].
  unfold next_cell, apply_rules. rewrite Hpos. cbn [next_state differs_from].
  replace ((surviveMin r <=? _) && (_ <=? surviveMax r)) with true by lia.
  assert ((age cell =? age cell + 1) = false) as Hage by lia.
  destruct (1 <? states r); [destruct (Z.eqb_spec (Z.min (s + 1) (states r)) s) as [Heq|]|];
    simpl; rewrite ?Hage; simpl;
    (rewrite as_written_id; [|simpl; by rewrite ?Hs]); [|done..].
  by rewrite Hs, Heq.
Qed.

Lemma survivor_ticks g c0 (s : Z) (n : nat) :
  grid_get g y x = Some c0 →
  positive (state c0) = Some (Fin s) →
  (∀ k, (k ≤ n)%nat → in_survive_range gs r (ticks w gs r cs k g) y x) →
  grid_get (ticks w gs r cs (S n) g) y x =
  Some (mkCell (if 1 <? states r then JNum (Z.min (s + Z.of_nat (S n)) (states r))
                else state c0)
               (age c0 + Z.of_nat (S n)) (previousStates c0) true).
Proof.
  intros Hc0 Hpos. pose proof (proj1 (positive_Some _ _) Hpos) as [Hs Hs_pos].
  induction n as [|n IH]; intros Hin.
  - rewrite ticks_S, grid_get_step. change (ticks w gs r cs 0 g) with g.
    rewrite Hc0. simpl.
    rewrite (next_cell_survives _ _ s); [done|done|apply (Hin 0%nat); lia].
  - rewrite ticks_S, grid_get_step.
    rewrite IH by (intros k Hk; apply Hin; lia). simpl.
    pose proof (Hin (S n) ltac:(lia)) as Hnow.
    destruct (Z.ltb_spec 1 (states r)) as [Hmulti|Hsingle].
    + rewrite (next_cell_survives _ _ (Z.min (s + Z.of_nat (S n)) (states r)));
        [|apply positive_Some; split; [done|lia]|done].
      simpl. replace (1 <? states r) with true by lia. do 2 f_equal; [f_equal|]; lia.
    + rewrite (next_cell_survives _ _ s); [|by simpl|done].
      simpl. replace (1 <? states r) with false by lia. f_equal. f_equal. lia.
Qed.
End survivor.

(** X5.  A live cell in an integer state that stays within the survive
    range climbs one state per tick up to [states], and stays there, when
    [states > 1], and keeps its state otherwise; its age counts the ticks
    and it is flagged as changed at every tick. *)
Theorem survivor_climbs w gs r cs g y x c0 (s : Z) (n : nat) :
  wf_grid gs g →
  grid_get g y x = Some c0 →
  positive (state c0) = Some (Fin s) →
  (∀ k gk, (k ≤ n)%nat → run w gs r cs k g = Some gk →
           in_survive_range gs r gk y x) →
  ∃ g1 c1,
    run w gs r cs (S n) g = Some g1 ∧ grid_get g1 y x = Some c1 ∧
    state c1 = (if 1 <? states r then JNum (Z.min (s + Z.of_nat (S n)) (states r))
                else state c0) ∧
    age c1 = age c0 + Z.of_nat (S n) ∧ changed c1 = true.
Proof.
  intros Hwf Hc0 Hpos Hin.
  exists (ticks w gs r cs (S n) g). eexists.
  split; [by apply run_ticks|]. split.
  - apply (survivor_ticks w gs r cs y x g c0 s n Hc0 Hpos).
    intros k Hk. apply (Hin k); [done|]. by apply run_ticks.
  - done.
Qed.

(** ** A grid smaller than announced *)

Lemma for_each_None {I S} (l : list I) (body : I → S → option S) (s : S) i :
  i ∈ l → (∀ s, body i s = None) → for_each l body s = None.
Proof.
  intros Hin Hnone. revert s. induction l as [|j l IH]; intros s.
  - by apply not_elem_of_nil in Hin.
  - simpl. apply elem_of_cons in Hin as [<-|Hin]; [by rewrite Hnone|].
    destruct (body j s) as [s'|]; simpl; [by apply IH|done].
Qed.

(** X6.  When a cell within the announced size is missing from the grid,
    the step throws in both implementations: no partly updated grid is
    returned. *)
Theorem step_throws_on_missing_cell gs r cs g y x :
  0 ≤ y < rows gs → 0 ≤ x < cols gs →
  grid_get g y x = None →
  worker_onmessage (mkMsg g r gs cs) = None ∧
  computeNextGeneration false gs r cs g = None.
Proof.
  intros Hy Hx Hmissing.
  assert (worker_loop gs r cs g = None) as Hloop.
  { rewrite worker_loop_positions.
    apply (for_each_None _ _ _ (y, x)); [by apply elem_of_positions|].
    intros st. unfold worker_body. simpl. by rewrite Hmissing. }
  split.
  - unfold worker_onmessage. simpl. by rewrite Hloop.
  - unfold computeNextGeneration. rewrite fallback_loop_positions.
    apply (for_each_None _ _ _ (y, x)); [by apply elem_of_positions|].
    intros ng. unfold fallback_body. simpl. by rewrite Hmissing.
Qed.

(** ** The torus has no special place *)

Lemma shape_shift_grid gs dy dx (g : Grid) :
  shape (shift_grid gs dy dx g) = shape g.
Proof.
  unfold shape, shift_grid. rewrite fmap_imap. rewrite <-(imap_const length g).
  apply imap_ext. intros i row _. simpl. apply length_imap.
Qed.

Section torus.
Context (w : bool) (gs : GridSize) (r : Rules) (cs : ColorScheme) (dy dx : Z)
  (g : Grid).
Hypothesis Hwf : wf_grid gs g.
Hypothesis Hwrap : wrapping r = true.

Lemma wf_shift_grid : wf_grid gs (shift_grid gs dy dx g).
Proof.
  destruct Hwf as (Hr & Hc & Hlen & Hrows). split_and!; [done..| |].
  - unfold shift_grid. by rewrite length_imap.
  - apply Forall_lookup. intros i row' Hrow'. unfold shift_grid in Hrow'.
    apply list_lookup_imap_Some in Hrow' as (row & Hrow & ->).
    rewrite length_imap. by apply (proj1 (Forall_lookup _ _) Hrows i).
Qed.

Lemma grid_get_shift_grid y x c :
  grid_get g y x = Some c →
  grid_get (shift_grid gs dy dx g) y x =
  grid_get g ((y + dy) `mod` rows gs) ((x + dx) `mod` cols gs).
Proof.
  intros Hc. pose proof (wf_grid_get_inv _ _ _ _ _ Hwf Hc) as [Hy Hx].
  pose proof Hc as (_ & _ & row & Hrow & Hcell)%grid_get_Some.
  destruct (wf_grid_get gs g ((y + dy) `mod` rows gs) ((x + dx) `mod` cols gs))
    as [c' Hc']; [done|apply Z.mod_pos_bound; lia..|].
  rewrite Hc'. apply grid_get_Some. split_and!; [lia..|].
  eexists. unfold shift_grid. rewrite list_lookup_imap, Hrow. simpl. split; [done|].
  rewrite list_lookup_imap, Hcell. simpl.
  rewrite !Z2Nat.id by lia. by rewrite Hc'.
Qed.

Lemma grid_get_shift_grid_None y x :
  grid_get g y x = None → grid_get (shift_grid gs dy dx g) y x = None.
Proof.
  intros Hnone.
  destruct (grid_get (shift_grid gs dy dx g) y x) as [c'|] eqn:Hc'; [|done].
  pose proof (wf_grid_get_inv _ _ _ _ _ wf_shift_grid Hc') as [Hy Hx].
  destruct (wf_grid_get gs g y x) as [c Hc]; [done..|]. congruence.
Qed.

Lemma neighbor_states_shift_grid y x c :
  grid_get g y x = Some c →
  neighbor_states gs r (shift_grid gs dy dx g) y x =
  neighbor_states gs r g ((y + dy) `mod` rows gs) ((x + dx) `mod` cols gs).
Proof.
  intros Hc. pose proof (wf_grid_get_inv _ _ _ _ _ Hwf Hc) as [Hy Hx].
  unfold neighbor_states. apply omap_ext'. intros d _.
  unfold live_neighbor, neighbor_at. rewrite Hwrap. simpl.
  destruct (wf_grid_get gs g ((y + d.1) `mod` rows gs) ((x + d.2) `mod` cols gs))
    as [c' Hc']; [done|apply Z.mod_pos_bound; lia..|].
  rewrite (grid_get_shift_grid _ _ _ Hc').
  rewrite !Z.add_mod_idemp_l by lia.
  by replace (y + d.1 + dy) with (y + dy + d.1) by lia;
     replace (x + d.2 + dx) with (x + dx + d.2) by lia.
Qed.

Lemma step_shift_grid :
  step w gs r cs (shift_grid gs dy dx g) = shift_grid gs dy dx (step w gs r cs g).
Proof.
  apply grid_ext.
  - by rewrite shape_step, !shape_shift_grid, shape_step.
  - intros y x. rewrite grid_get_step.
    destruct (grid_get g y x) as [c|] eqn:Hc.
    + pose proof (wf_grid_get_inv _ _ _ _ _ Hwf Hc) as [Hy Hx].
      rewrite (grid_get_shift_grid _ _ _ Hc).
      destruct (wf_grid_get gs g ((y + dy) `mod` rows gs) ((x + dx) `mod` cols gs))
        as [c1 Hc1]; [done|apply Z.mod_pos_bound; lia..|].
      rewrite Hc1. simpl.
      assert (next_cell w gs r cs (shift_grid gs dy dx g) y x c1
              = next_cell w gs r cs g ((y + dy) `mod` rows gs) ((x + dx) `mod` cols gs) c1)
        as -> by (unfold next_cell, neighborCount, neighborSum;
                  by rewrite (neighbor_states_shift_grid _ _ _ Hc)).
      assert (grid_get (step w gs r cs g) y x = Some (next_cell w gs r cs g y x c)) as Hstep
        by (by rewrite grid_get_step, Hc).
      pose proof Hstep as (_ & _ & row & Hrow & Hcell)%grid_get_Some.
      symmetry. apply grid_get_Some. split_and!; [lia..|].
      eexists. unfold shift_grid. rewrite list_lookup_imap, Hrow. simpl. split; [done|].
      rewrite list_lookup_imap, Hcell. simpl. rewrite !Z2Nat.id by lia.
      by rewrite grid_get_step, Hc1.
    + rewrite (grid_get_shift_grid_None _ _ Hc). simpl. symmetry.
      destruct (grid_get (shift_grid gs dy dx (step w gs r cs g)) y x) as [c'|] eqn:Hc';
        [|done].
      apply grid_get_Some in Hc' as (Hy & Hx & row' & Hrow' & Hcell').
      unfold shift_grid in Hrow'.
      apply list_lookup_imap_Some in Hrow' as (row & Hrow & ->).
      apply list_lookup_imap_Some in Hcell' as (c'' & Hcell & _).
      assert (grid_get (step w gs r cs g) y x = Some c'') as Hstep
        by (apply grid_get_Some; eauto 10).
      rewrite grid_get_step, Hc in Hstep. done.
Qed.
End torus.

(** X7.  With wrapping on, the step commutes with cyclic shifts of the
    grid: moving every cell by [(dy, dx)] around the torus and then
    stepping gives the grid that stepping and then moving gives, in both
    implementations.  No row or column of the torus is an edge. *)
Theorem torus_shift_invariant w gs r cs dy dx g :
  wf_grid gs g →
  wrapping r = true →
  ∃ g', computeNextGeneration w gs r cs g = Some g' ∧
        computeNextGeneration w gs r cs (shift_grid gs dy dx g)
        = Some (shift_grid gs dy dx g').
Proof.
  intros Hwf Hwrap. exists (step w gs r cs g).
  split; [by apply computeNextGeneration_step|].
  rewrite computeNextGeneration_step by by apply wf_shift_grid.
  f_equal. by apply step_shift_grid.
Qed.

(** ** Drawing with the mouse *)

Lemma toggle_state_draw_mode v : toggle_state v = JNum (draw_mode_of v).
Proof. by destruct v as [[| |]| | | | |]. Qed.

Lemma draw_target_draw_mode v : draw_target (draw_mode_of v) = draw_mode_of v.
Proof. by destruct v as [[| |]| | | | |]. Qed.

Lemma grid_ok_put r g y x v :
  is_Some (grid_get g y x) →
  grid_ok r g → cell_ok r v → grid_ok r (grid_put g y x v).
Proof.
  intros Hsome Hok Hv y' x' c Hc.
  destruct (decide ((y, x) = (y', x'))) as [[= <- <-]|Hne].
  - rewrite grid_get_put_eq in Hc by done. by injection Hc as <-.
  - rewrite grid_get_put_ne in Hc by done. by eapply Hok.
Qed.

Lemma wf_grid_put gs g y x v : wf_grid gs g → wf_grid gs (grid_put g y x v).
Proof.
  intros (Hr & Hc & Hlen & Hrows). unfold grid_put. case_decide; [|done].
  split_and!; [done..| |].
  - by rewrite length_alter.
  - apply Forall_lookup. intros i row' Hrow'.
    destruct (decide (Z.to_nat y = i)) as [<-|Hne].
    + rewrite list_lookup_alter_eq in Hrow'.
      destruct (g !! Z.to_nat y) as [row|] eqn:Hrow; simplify_eq/=.
      rewrite length_insert. by apply (proj1 (Forall_lookup _ _) Hrows (Z.to_nat y)).
    + rewrite list_lookup_alter_ne in Hrow' by done.
      by apply (proj1 (Forall_lookup _ _) Hrows i).
Qed.

Lemma cycle_state_ok r c :
  0 ≤ states r → cell_ok r c →
  cell_ok r (mkCell (cycle_state (state c) (states r)) 0 (previousStates c) true).
Proof.
  intros Hstates (z & Hz & Hzs & _). rewrite Hz, cycle_state_num by done.
  eexists. simpl. split; [done|].
  pose proof (Z.mod_pos_bound (z + 1) (states r + 1)). lia.
Qed.

Lemma draw_mode_of_bounds v : 0 ≤ draw_mode_of v ≤ 1.
Proof. destruct v as [[| |]| | | | |]; simpl; lia. Qed.

Lemma draw_target_bounds m : 0 ≤ draw_target m ≤ 1.
Proof. unfold draw_target. destruct (m =? 0); lia. Qed.

(** X8.  The three edits of the canvas keep the grid well formed and keep
    the cell invariant, as long as [states >= 1]: after a click, a
    mouse-down or a mouse-move while drawing, on a grid of the announced
    size whose cells satisfy [0 <= state <= states] and [age >= 0], the
    handler returns a grid of the same size whose cells satisfy it too. *)
Theorem edits_keep_invariant gs r g drawMode x y :
  wf_grid gs g → grid_ok r g → 1 ≤ states r →
  (∃ g1, handleCanvasClick false gs r g x y = Some g1 ∧
         wf_grid gs g1 ∧ grid_ok r g1) ∧
  (∃ g2, handleCanvasMouseDown false false gs g x y = Some g2 ∧
         wf_grid gs g2 ∧ grid_ok r g2) ∧
  (∃ g3, handleCanvasMouseMove false true false gs g drawMode x y = Some g3 ∧
         wf_grid gs g3 ∧ grid_ok r g3).
Proof.
  intros Hwf Hok Hstates.
  unfold handleCanvasClick, handleCanvasMouseDown, handleCanvasMouseMove. simpl.
  destruct (in_bounds gs y x) eqn:Hin; [|split_and!; by exists g].
  destruct (wf_grid_get gs g y x) as [c Hc]; [done|apply in_bounds_true in Hin; lia..|].
  rewrite Hc. simpl. rewrite !(grid_update_Some _ _ _ _ c) by done.
  pose proof (Hok _ _ _ Hc) as Hc_ok. split_and!.
  - eexists. split; [done|]. split; [by apply wf_grid_put|].
    apply grid_ok_put; [by eauto|done|]. unfold set_changed, set_age, set_state. simpl.
    apply cycle_state_ok; [lia|done].
  - eexists. split; [done|]. split; [by apply wf_grid_put|].
    apply grid_ok_put; [by eauto|done|]. rewrite toggle_state_draw_mode.
    pose proof (draw_mode_of_bounds (state c)).
    eexists. simpl. split; [done|lia].
  - case_bool_decide; [by exists g|].
    eexists. split; [done|]. split; [by apply wf_grid_put|].
    apply grid_ok_put; [by eauto|done|]. pose proof (draw_target_bounds drawMode).
    eexists. simpl. split; [done|lia].
Qed.

Lemma handleCanvasClick_in gs r g x y c :
  in_bounds gs y x = true → grid_get g y x = Some c →
  handleCanvasClick false gs r g x y =
  Some (grid_put g y x (mkCell (cycle_state (state c) (states r)) 0 (previousStates c) true)).
Proof.
  intros Hin Hc. unfold handleCanvasClick. simpl. rewrite Hin.
  by rewrite (grid_update_Some _ _ _ _ c).
Qed.

Lemma handleCanvasMouseDown_in gs g x y c :
  in_bounds gs y x = true → grid_get g y x = Some c →
  handleCanvasMouseDown false false gs g x y =
  Some (grid_put g y x (mkCell (JNum (draw_mode_of (state c))) 0 (previousStates c) true)).
Proof.
  intros Hin Hc. unfold handleCanvasMouseDown. simpl. rewrite Hin.
  rewrite (grid_update_Some _ _ _ _ c) by done.
  by rewrite toggle_state_draw_mode.
Qed.

Lemma clicks_S n gs r g x y :
  clicks (S n) gs r g x y = g' ← handleCanvasClick false gs r g x y; clicks n gs r g' x y.
Proof. done. Qed.

(** X9.  Clicks cycle a cell through its states: after [n] clicks on an
    in-bounds cell in state [z], with [0 <= z <= states], the cell is in
    state [(z + n) mod (states + 1)], so [states + 1] clicks bring its
    state back; every other cell is as it was. *)
Theorem clicks_cycle gs r g x y c z (n : nat) :
  wf_grid gs g →
  in_bounds gs y x = true →
  grid_get g y x = Some c →
  state c = JNum z → 0 ≤ z ≤ states r →
  ∃ g',
    clicks n gs r g x y = Some g' ∧
    (state <$> grid_get g' y x) = Some (JNum ((z + Z.of_nat n) `mod` (states r + 1))) ∧
    (Z.of_nat n = states r + 1 → (state <$> grid_get g' y x) = Some (JNum z)) ∧
    ∀ y' x', (y', x') ≠ (y, x) → grid_get g' y' x' = grid_get g y' x'.
Proof.
  intros Hwf Hin. revert g c z Hwf.
  assert (∀ g c z, wf_grid gs g → grid_get g y x = Some c → state c = JNum z →
            0 ≤ z ≤ states r →
            ∃ g', clicks n gs r g x y = Some g' ∧
                  (state <$> grid_get g' y x)
                  = Some (JNum ((z + Z.of_nat n) `mod` (states r + 1))) ∧
                  ∀ y' x', (y', x') ≠ (y, x) → grid_get g' y' x' = grid_get g y' x')
    as Hgen.
  { induction n as [|n IH]; intros g c z Hwf Hc Hz Hzs.
    - exists g. simpl. rewrite Hc. simpl. rewrite Hz, Z.add_0_r.
      by rewrite Z.mod_small by lia.
    - rewrite clicks_S, (handleCanvasClick_in _ _ _ _ _ c) by done. simpl.
      rewrite Hz, cycle_state_num by done.
      pose proof (Z.mod_pos_bound (z + 1) (states r + 1)) as Hmod.
      destruct (IH (grid_put g y x (mkCell (JNum ((z + 1) `mod` (states r + 1))) 0
                                      (previousStates c) true))
                  (mkCell (JNum ((z + 1) `mod` (states r + 1))) 0 (previousStates c) true)
                  ((z + 1) `mod` (states r + 1)))
        as (g' & Hclicks & Hstate & Hothers);
        [by apply wf_grid_put|by rewrite grid_get_put_eq by eauto|done|lia|].
      exists g'. split_and!; [done| |].
      + rewrite Hstate. do 2 f_equal. rewrite Z.add_mod_idemp_l by lia.
        f_equal. lia.
      + intros y' x' Hne. rewrite Hothers by done. apply grid_get_put_ne. congruence. }
  intros g c z Hwf Hc Hz Hzs.
  destruct (Hgen g c z Hwf Hc Hz Hzs) as (g' & Hclicks & Hstate & Hothers).
  exists g'. split_and!; [done..| |done].
  intros Hn. rewrite Hstate, Hn. do 2 f_equal.
  replace (z + (states r + 1)) with (z + 1 * (states r + 1)) by lia.
  rewrite Z.mod_add by lia. apply Z.mod_small. lia.
Qed.

Lemma cycle_state_nonneg s states :
  0 ≤ s → 0 ≤ states →
  cycle_state (JNum s) states = JNum ((s + 1) `mod` (states + 1)).
Proof.
  intros Hs Hstates. unfold cycle_state.
  replace (states + 1 =? 0) with false by lia.
  by rewrite Z.rem_mod_nonneg by lia.
Qed.

(** X10.  A mouse-down followed by a click on the same in-bounds cell
    (what a plain click on the canvas delivers while the simulation is
    paused): a cell in state 0 ends in state [2 % (states + 1)], any other
    cell in state [1 % (states + 1)], with age 0.  Under single-state
    rules ([states = 1]) the state of the cell is therefore back where it
    was: 0 stays 0 and 1 stays 1. *)
Theorem mouse_down_then_click gs r g x y c z :
  wf_grid gs g →
  in_bounds gs y x = true →
  grid_get g y x = Some c →
  state c = JNum z →
  0 ≤ states r →
  ∃ g1 g2 c2,
    handleCanvasMouseDown false false gs g x y = Some g1 ∧
    handleCanvasClick false gs r g1 x y = Some g2 ∧
    grid_get g2 y x = Some c2 ∧
    state c2 = JNum (if z =? 0 then 2 `mod` (states r + 1) else 1 `mod` (states r + 1)) ∧
    age c2 = 0 ∧
    (states r = 1 → 0 ≤ z ≤ 1 → state c2 = state c).
Proof.
  intros Hwf Hin Hc Hz Hstates.
  rewrite (handleCanvasMouseDown_in _ _ _ _ c) by done.
  eexists _, _, _. split; [done|].
  rewrite (handleCanvasClick_in _ _ _ _ _
             (mkCell (JNum (draw_mode_of (state c))) 0 (previousStates c) true))
    by (by rewrite ?grid_get_put_eq by eauto).
  split; [done|]. rewrite grid_put_put, grid_get_put_eq by eauto.
  split; [done|]. simpl.
  pose proof (draw_mode_of_bounds (state c)) as Hmode.
  rewrite cycle_state_nonneg by lia. rewrite Hz. split_and!; [|done|].
  - destruct z; done.
  - intros Hone Hz01. rewrite Hone.
    assert (z = 0 ∨ z = 1) as [-> | ->] by lia; done.
Qed.

Lemma for_each_cons {I S} (i : I) (l : list I) (body : I → S → option S) (s : S) :
  for_each (i :: l) body s = s' ← body i s; for_each l body s'.
Proof. done. Qed.

Lemma handleCanvasMouseMove_spec gs g mode x y :
  wf_grid gs g →
  ∃ g', handleCanvasMouseMove false true false gs g mode x y = Some g' ∧
        wf_grid gs g' ∧
        ∀ y' x' c, grid_get g y' x' = Some c →
          ∃ c', grid_get g' y' x' = Some c' ∧
                if bool_decide ((x', y') = (x, y))
                then state c' = JNum (draw_target mode) ∧ painted (draw_target mode) c c'
                else c' = c.
Proof.
  intros Hwf. unfold handleCanvasMouseMove. simpl.
  destruct (in_bounds gs y x) eqn:Hin.
  - destruct (wf_grid_get gs g y x) as [c0 Hc0]; [done|apply in_bounds_true in Hin; lia..|].
    rewrite Hc0. simpl. case_bool_decide as Hstate.
    + exists g. split_and!; [done..|]. intros y' x' c Hc. exists c. split; [done|].
      case_bool_decide as Heq; [|done]. injection Heq as -> ->.
      rewrite Hc0 in Hc. injection Hc as <-. split; [done|by left].
    + rewrite (grid_update_Some _ _ _ _ c0) by done. eexists.
      split_and!; [done|by apply wf_grid_put|].
      intros y' x' c Hc. case_bool_decide as Heq.
      * injection Heq as -> ->. rewrite Hc0 in Hc. injection Hc as <-.
        rewrite grid_get_put_eq by eauto. eexists. split; [done|].
        split; [done|by right].
      * rewrite grid_get_put_ne by congruence. eauto.
  - exists g. split_and!; [done..|]. intros y' x' c Hc. exists c. split; [done|].
    case_bool_decide as Heq; [|done]. injection Heq as -> ->.
    apply (wf_grid_get_inv gs) in Hc; [|done].
    apply in_bounds_false in Hin. lia.
Qed.

Lemma moves_paint gs mode (moves : list (Z * Z)) g :
  wf_grid gs g →
  ∃ g', for_each moves
          (λ p g, handleCanvasMouseMove false true false gs g mode p.1 p.2) g
        = Some g' ∧
        wf_grid gs g' ∧
        ∀ y x c, grid_get g y x = Some c →
          ∃ c', grid_get g' y x = Some c' ∧
                if bool_decide ((x, y) ∈ moves)
                then state c' = JNum (draw_target mode) ∧ painted (draw_target mode) c c'
                else c' = c.
Proof.
  revert g. induction moves as [|[px py] moves IH]; intros g Hwf.
  - exists g. split_and!; [done..|]. intros y x c Hc. exists c. split; [done|].
    by rewrite bool_decide_eq_false_2 by apply not_elem_of_nil.
  - rewrite for_each_cons. cbn [fst snd].
    destruct (handleCanvasMouseMove_spec gs g mode px py Hwf)
      as (g1 & -> & Hwf1 & Hcells1). cbn [mbind option_bind].
    destruct (IH g1 Hwf1) as (g2 & -> & Hwf2 & Hcells2).
    exists g2. split_and!; [done..|]. intros y x c Hc.
    destruct (Hcells1 y x c Hc) as (c1 & Hc1 & Hstep1).
    destruct (Hcells2 y x c1 Hc1) as (c2 & Hc2 & Hstep2).
    exists c2. split; [done|].
    destruct (decide ((x, y) = (px, py))) as [Heq|Hneq];
      [rewrite bool_decide_eq_true_2 in Hstep1 by done
      |rewrite bool_decide_eq_false_2 in Hstep1 by done];
      (destruct (decide ((x, y) ∈ moves)) as [Hin|Hout];
       [rewrite bool_decide_eq_true_2 in Hstep2 by done
       |rewrite bool_decide_eq_false_2 in Hstep2 by done]).
    + rewrite bool_decide_eq_true_2 by (by right).
      destruct Hstep1 as [_ Hpaint1], Hstep2 as [Hstate2 Hpaint2]. split; [done|].
      destruct Hpaint1 as [->| ->], Hpaint2 as [->| ->];
        unfold painted; simpl; auto.
    + rewrite bool_decide_eq_true_2 by (rewrite Heq; left). by subst c2.
    + rewrite bool_decide_eq_true_2 by (by right). by subst c1.
    + subst c1 c2. rewrite bool_decide_eq_false_2; [done|].
      intros [?|?]%elem_of_cons; done.
Qed.

(** X11.  A stroke that starts on an in-bounds cell paints in one mode:
    state 1 if the first cell was in state 0, state 0 otherwise.  The
    first cell takes that state with age 0 and the changed flag; every cell
    the pointer then moves over ends in that state, reset to age 0 and
    flagged if it had to change, untouched if it was in that state
    already; moves outside the grid are ignored and every other cell is as
    it was. *)
Theorem stroke_paints gs g drawMode x0 y0 moves c0 :
  wf_grid gs g →
  in_bounds gs y0 x0 = true →
  grid_get g y0 x0 = Some c0 →
  ∃ g',
    stroke gs g drawMode x0 y0 moves = Some (g', draw_mode_of (state c0)) ∧
    wf_grid gs g' ∧
    grid_get g' y0 x0 =
      Some (mkCell (JNum (draw_mode_of (state c0))) 0 (previousStates c0) true) ∧
    ∀ y x c, grid_get g y x = Some c → (x, y) ≠ (x0, y0) →
      ∃ c', grid_get g' y x = Some c' ∧
            if bool_decide ((x, y) ∈ moves)
            then state c' = JNum (draw_mode_of (state c0)) ∧
                 painted (draw_mode_of (state c0)) c c'
            else c' = c.
Proof.
  intros Hwf Hin Hc0. unfold stroke.
  rewrite (handleCanvasMouseDown_in _ _ _ _ c0) by done.
  assert (mouseDown_drawMode false false gs g drawMode x0 y0 = draw_mode_of (state c0))
    as -> by (unfold mouseDown_drawMode; simpl; by rewrite Hin, Hc0).
  cbn [mbind option_bind].
  set (m := draw_mode_of (state c0)).
  set (g1 := grid_put g y0 x0 (mkCell (JNum m) 0 (previousStates c0) true)).
  destruct (moves_paint gs m moves g1) as (g2 & -> & Hwf2 & Hcells);
    [by apply wf_grid_put|].
  assert (draw_target m = m) as Htarget by apply draw_target_draw_mode.
  rewrite Htarget in Hcells.
  exists g2. split_and!; [done..| |].
  - destruct (Hcells y0 x0 (mkCell (JNum m) 0 (previousStates c0) true))
      as (c' & Hc' & Hstep); [by apply grid_get_put_eq; eauto|].
    rewrite Hc'. f_equal.
    case_bool_decide; [|done]. by destruct Hstep as [_ [->| ->]].
  - intros y x c Hc Hne. apply Hcells. unfold g1.
    rewrite grid_get_put_ne by congruence. done.
Qed.

(** ** Stamping, again *)

Lemma JSON_cell_idemp c : JSON_cell (JSON_cell c) = JSON_cell c.
Proof. unfold JSON_cell. simpl. by destruct (state c). Qed.

Lemma stamped_idemp gs pattern y x c :
  stamped gs pattern y x (JSON_cell (stamped gs pattern y x (JSON_cell c)))
  = stamped gs pattern y x (JSON_cell c).
Proof.
  unfold stamped. destruct (covered gs pattern y x); [done|apply JSON_cell_idemp].
Qed.

Lemma wf_grid_shape gs g g' : shape g' = shape g → wf_grid gs g → wf_grid gs g'.
Proof.
  intros Hshape (Hr & Hc & Hlen & Hrows). split_and!; [done..| |].
  - rewrite <-Hlen, <-(length_fmap length g'), <-(length_fmap length g).
    by f_equal.
  - apply Forall_lookup. intros i row' Hrow'.
    assert (shape g !! i = Some (length row')) as Hlen'
      by (rewrite <-Hshape; unfold shape; by rewrite list_lookup_fmap, Hrow').
    unfold shape in Hlen'. rewrite list_lookup_fmap in Hlen'.
    destruct (g !! i) as [row|] eqn:Hrow; [|done]. injection Hlen' as <-.
    by apply (proj1 (Forall_lookup _ _) Hrows i).
Qed.

(** X12.  Stamping is idempotent: on a grid of the announced size,
    stamping the same pattern a second time changes nothing. *)
Theorem applyPattern_idempotent gs g pattern row0 :
  wf_grid gs g →
  pattern !! 0%nat = Some row0 →
  ∃ g1, applyPattern gs g pattern = Some g1 ∧
        applyPattern gs g1 pattern = Some g1.
Proof.
  intros Hwf Hrow0.
  destruct (applyPattern_stamped gs pattern g Hwf row0 Hrow0)
    as (g1 & Hg1 & Hshape1 & Hget1).
  assert (wf_grid gs g1) as Hwf1 by by apply (wf_grid_shape gs g).
  destruct (applyPattern_stamped gs pattern g1 Hwf1 row0 Hrow0)
    as (g2 & Hg2 & Hshape2 & Hget2).
  exists g1. split; [done|]. rewrite Hg2. f_equal.
  apply grid_ext; [congruence|]. intros y x. rewrite Hget2, Hget1.
  destruct (grid_get g y x) as [c|]; simpl; [|done]. f_equal. apply stamped_idemp.
Qed.

Lemma pattern_value_ok r pattern py px :
  pattern_ok r pattern →
  0 ≤ py < Z.of_nat (length pattern) →
  0 ≤ px < Z.of_nat (length (default [] (pattern !! 0%nat))) →
  ∃ z, pattern_value pattern py px = JNum z ∧ 0 ≤ z ≤ states r.
Proof.
  intros Hok Hpy Hpx. unfold pattern_value.
  destruct (lookup_lt_is_Some_2 pattern (Z.to_nat py)) as [prow Hprow]; [lia|].
  destruct (proj1 (Forall_lookup _ _) Hok _ _ Hprow) as [Hlen Hvals].
  destruct (lookup_lt_is_Some_2 prow (Z.to_nat px)) as [v Hv]; [lia|].
  assert (at_index pattern py = Some prow) as -> by (apply at_index_Some; split; [lia|done]).
  simpl.
  assert (at_index prow px = Some v) as -> by (apply at_index_Some; split; [lia|done]).
  simpl. by apply (proj1 (Forall_lookup _ _) Hvals _ _ Hv).
Qed.

(** X13.  Stamping a rectangular pattern whose entries are states between
    0 and [states] keeps the cell invariant: if every cell of the grid
    satisfies [0 <= state <= states] and [age >= 0] before, every cell does
    after. *)
Theorem applyPattern_keeps_invariant gs r g pattern row0 :
  wf_grid gs g →
  pattern !! 0%nat = Some row0 →
  pattern_ok r pattern →
  grid_ok r g →
  ∃ g1, applyPattern gs g pattern = Some g1 ∧ grid_ok r g1.
Proof.
  intros Hwf Hrow0 Hpat Hok.
  destruct (applyPattern_stamped gs pattern g Hwf row0 Hrow0)
    as (g1 & Hg1 & _ & Hget1).
  exists g1. split; [done|]. intros y x c1. rewrite Hget1.
  destruct (grid_get g y x) as [c|] eqn:Hc; simpl; [|done]. intros [= <-].
  destruct (Hok _ _ _ Hc) as (z & Hz & Hzs & Hage).
  unfold stamped, covered. case_bool_decide as Hcov.
  - destruct (pattern_value_ok r pattern (y - centerY gs pattern) (x - centerX gs pattern))
      as (v & Hv & Hvs); [done|tauto..|].
    exists v. simpl. split; [done|lia].
  - exists z. simpl. rewrite Hz. split; [done|lia].
Qed.

(** ** Pattern export and import *)

Lemma pattern_bounds_positions gs g :
  pattern_bounds gs g =
  for_each (positions gs) (λ p, bounds_body g p.1 p.2)
    (mkBounds (cols gs) (rows gs) 0 0).
Proof. unfold pattern_bounds, for_range. by rewrite for_each_nested. Qed.

Lemma bounds_touch_old (g : Grid) (P : Z → Z → Prop) done i :
  (∃ y x, (y, x) ∈ done ∧ live_at g y x ∧ P y x) →
  ∃ y x, (y, x) ∈ done ++ [i] ∧ live_at g y x ∧ P y x.
Proof.
  intros (y & x & Hin & Hlive & HP). exists y, x.
  split_and!; [|done..]. apply elem_of_app. by left.
Qed.

Lemma bounds_touch_new (g : Grid) (P : Z → Z → Prop) done y x :
  live_at g y x → P y x →
  ∃ y' x', (y', x') ∈ done ++ [(y, x)] ∧ live_at g y' x' ∧ P y' x'.
Proof.
  intros Hlive HP. exists y, x. split_and!; [|done..].
  apply elem_of_app. right. by apply list_elem_of_singleton.
Qed.

Lemma pattern_bounds_inv gs g :
  wf_grid gs g →
  ∃ b, pattern_bounds gs g = Some b ∧ bounds_inv gs g (positions gs) b.
Proof.
  intros Hwf. rewrite pattern_bounds_positions.
  apply (for_each_invariant (bounds_inv gs g)).
  - split_and!; [by intros y x ?%elem_of_nil|by left..].
  - intros done [y x] rest b Hpos (Hall & HminX & HminY & HmaxX & HmaxY).
    assert ((y, x) ∈ positions gs) as Hin.
    { rewrite Hpos. apply elem_of_app. right. apply elem_of_cons. by left. }
    apply elem_of_positions in Hin as [Hy Hx].
    destruct (wf_grid_get gs g y x Hwf Hy Hx) as [c Hc].
    unfold bounds_body. simpl. rewrite Hc. simpl.
    eexists. split; [done|].
    destruct (positive (state c)) as [z|] eqn:Hpositive.
    + assert (live_at g y x) as Hlive by (exists c; by rewrite Hpositive).
      split_and!; simpl.
      * intros y' x' [Hdone|Hlast%list_elem_of_singleton]%elem_of_app Hlive'.
        { specialize (Hall _ _ Hdone Hlive'). lia. }
        injection Hlast as -> ->. lia.
      * right. destruct (Z.min_spec (minX b) x) as [[? ->]|[? ->]].
        -- destruct HminX as [?|HminX]; [lia|]. by apply bounds_touch_old.
        -- by apply bounds_touch_new.
      * right. destruct (Z.min_spec (minY b) y) as [[? ->]|[? ->]].
        -- destruct HminY as [?|HminY]; [lia|]. by apply bounds_touch_old.
        -- by apply bounds_touch_new.
      * right. destruct (Z.max_spec (maxX b) x) as [[? ->]|[? ->]].
        -- by apply bounds_touch_new.
        -- destruct HmaxX as [?|HmaxX]; [|by apply bounds_touch_old].
           apply bounds_touch_new; [done|lia].
      * right. destruct (Z.max_spec (maxY b) y) as [[? ->]|[? ->]].
        -- by apply bounds_touch_new.
        -- destruct HmaxY as [?|HmaxY]; [|by apply bounds_touch_old].
           apply bounds_touch_new; [done|lia].
    + split_and!.
      * intros y' x' [Hdone|Hlast%list_elem_of_singleton]%elem_of_app Hlive'; [by apply Hall|].
        injection Hlast as -> ->. destruct Hlive' as (c' & Hc' & Hpos').
        rewrite Hc in Hc'. injection Hc' as <-. rewrite Hpositive in Hpos'.
        by destruct Hpos'.
      * destruct HminX as [?|HminX]; [by left|right]. by apply bounds_touch_old.
      * destruct HminY as [?|HminY]; [by left|right]. by apply bounds_touch_old.
      * destruct HmaxX as [?|HmaxX]; [by left|right]. by apply bounds_touch_old.
      * destruct HmaxY as [?|HmaxY]; [by left|right]. by apply bounds_touch_old.
Qed.

Lemma live_at_inside gs g y x :
  wf_grid gs g → live_at g y x → 0 ≤ y < rows gs ∧ 0 ≤ x < cols gs.
Proof. intros Hwf (c & Hc & _). by apply (wf_grid_get_inv gs g y x c). Qed.

Lemma bounds_inv_live gs g b y0 x0 :
  wf_grid gs g → live_at g y0 x0 →
  bounds_inv gs g (positions gs) b → bounding_box g b.
Proof.
  intros Hwf Hlive0 (Hall & HminX & HminY & HmaxX & HmaxY).
  assert (∀ y x, live_at g y x →
                 minX b ≤ x ≤ maxX b ∧ minY b ≤ y ≤ maxY b) as Hall'.
  { intros y x Hlive. apply Hall; [|done].
    apply elem_of_positions. by apply (live_at_inside gs g). }
  pose proof (live_at_inside gs g _ _ Hwf Hlive0) as Hin0.
  pose proof (Hall' _ _ Hlive0) as Hbox0.
  split_and!; [done|..].
  - destruct HminX as [?|(y & x & _ & Hlive & ->)]; [lia|by exists y].
  - destruct HmaxX as [?|(y & x & _ & Hlive & ->)]; [|by exists y].
    exists y0. by replace (maxX b) with x0 by lia.
  - destruct HminY as [?|(y & x & _ & Hlive & ->)]; [lia|by exists x].
  - destruct HmaxY as [?|(y & x & _ & Hlive & ->)]; [|by exists x].
    exists x0. by replace (maxY b) with y0 by lia.
Qed.

Lemma all_dead_not_live g y x : all_dead g → ¬ live_at g y x.
Proof.
  intros Hdead (c & Hc & Hpos). rewrite (Hdead _ _ _ Hc) in Hpos. by destruct Hpos.
Qed.

Lemma bounds_inv_dead gs g l b :
  all_dead g → bounds_inv gs g l b → b = mkBounds (cols gs) (rows gs) 0 0.
Proof.
  intros Hdead (_ & HminX & HminY & HmaxX & HmaxY). destruct b as [a1 a2 a3 a4].
  simpl in *.
  destruct HminX as [->|(y & x & _ & []%(all_dead_not_live g y x Hdead) & _)].
  destruct HminY as [->|(y & x & _ & []%(all_dead_not_live g y x Hdead) & _)].
  destruct HmaxX as [->|(y & x & _ & []%(all_dead_not_live g y x Hdead) & _)].
  by destruct HmaxY as [->|(y & x & _ & []%(all_dead_not_live g y x Hdead) & _)].
Qed.

Lemma bounding_box_unique g b b' :
  bounding_box g b → bounding_box g b' → b = b'.
Proof.
  intros (Hall & [y1 H1] & [y2 H2] & [x3 H3] & [x4 H4])
         (Hall' & [y1' H1'] & [y2' H2'] & [x3' H3'] & [x4' H4']).
  pose proof (Hall' _ _ H1). pose proof (Hall' _ _ H2).
  pose proof (Hall' _ _ H3). pose proof (Hall' _ _ H4).
  pose proof (Hall _ _ H1'). pose proof (Hall _ _ H2').
  pose proof (Hall _ _ H3'). pose proof (Hall _ _ H4').
  destruct b, b'; simpl in *. f_equal; lia.
Qed.

Lemma bounding_box_inside gs g b :
  wf_grid gs g → bounding_box g b →
  0 ≤ minX b ≤ maxX b ∧ maxX b < cols gs ∧ 0 ≤ minY b ≤ maxY b ∧ maxY b < rows gs.
Proof.
  intros Hwf (Hall & [y1 H1] & [y2 H2] & [x3 H3] & [x4 H4]).
  pose proof (Hall _ _ H1). 
  pose proof (live_at_inside gs g _ _ Hwf H1).
  pose proof (live_at_inside gs g _ _ Hwf H2).
  pose proof (live_at_inside gs g _ _ Hwf H3).
  pose proof (live_at_inside gs g _ _ Hwf H4). lia.
Qed.

Lemma for_each_push {I A B : Type} (l : list I) (f : I → option A)
    (h : A → B) (k : I → B) (acc : list B) :
  (∀ i, i ∈ l → h <$> f i = Some (k i)) →
  for_each l (λ i acc, v ← f i; Some (acc ++ [h v])) acc = Some (acc ++ (k <$> l)).
Proof.
  revert acc. induction l as [|i l IH]; intros acc Hl; simpl.
  - by rewrite app_nil_r.
  - pose proof (Hl i ltac:(apply elem_of_cons; by left)) as Hi.
    destruct (f i) as [v|]; [|done]. injection Hi as Hi. simpl.
    rewrite IH by (intros j Hj; apply Hl, elem_of_cons; by right).
    by rewrite Hi, <-app_assoc.
Qed.

Lemma state_at_Some g y x c : grid_get g y x = Some c → state_at g y x = state c.
Proof. unfold state_at. by intros ->. Qed.

Lemma extract_box gs g b :
  wf_grid gs g →
  0 ≤ minX b → maxX b < cols gs → 0 ≤ minY b → maxY b < rows gs →
  for_from_to (minY b) (maxY b) (λ y patternData,
    row ← extract_row g (minX b) (maxX b) y;
    Some (patternData ++ [row])) [] = Some (box_states g b).
Proof.
  intros Hwf HminX HmaxX HminY HmaxY. unfold for_from_to.
  rewrite (for_each_push _ _ (λ row, row)
             (λ y, (λ x, state_at g y x) <$> seqZ (minX b) (maxX b - minX b + 1))); [done|].
  intros y Hy%elem_of_seqZ. unfold extract_row, for_from_to.
  rewrite (for_each_push _ _ state (λ x, state_at g y x)); [done|].
  intros x Hx%elem_of_seqZ.
  destruct (wf_grid_get gs g y x Hwf) as [c Hc]; [lia..|].
  by rewrite Hc, (state_at_Some _ _ _ c).
Qed.

Lemma exportCurrentPattern_live gs g b :
  wf_grid gs g → pattern_bounds gs g = Some b → bounding_box g b →
  exportCurrentPattern gs g = Some (JSON_matrix (box_states g b)).
Proof.
  intros Hwf Hb Hbox. unfold exportCurrentPattern. rewrite Hb. simpl.
  pose proof (bounding_box_inside gs g b Hwf Hbox).
  by rewrite (extract_box gs) by (done || lia).
Qed.

Lemma pattern_bounds_live gs g y0 x0 :
  wf_grid gs g → live_at g y0 x0 →
  ∃ b, pattern_bounds gs g = Some b ∧ bounding_box g b.
Proof.
  intros Hwf Hlive. destruct (pattern_bounds_inv gs g Hwf) as (b & Hb & Hinv).
  exists b. split; [done|]. by apply (bounds_inv_live gs g b y0 x0).
Qed.

Lemma exportCurrentPattern_dead gs g :
  wf_grid gs g → 1 ≤ rows gs → all_dead g →
  exportCurrentPattern gs g = Some [].
Proof.
  intros Hwf Hrows Hdead. destruct (pattern_bounds_inv gs g Hwf) as (b & Hb & Hinv).
  apply (bounds_inv_dead gs g _ b Hdead) in Hinv as ->.
  unfold exportCurrentPattern. rewrite Hb. simpl.
  unfold for_from_to. by rewrite seqZ_nil by lia.
Qed.

Lemma wf_initializeGrid gs :
  0 ≤ rows gs → 0 ≤ cols gs → wf_grid gs (initializeGrid gs).
Proof.
  intros Hr Hc. unfold initializeGrid. split_and!; [done..| |].
  - by rewrite length_replicate.
  - apply Forall_replicate. by rewrite length_replicate.
Qed.

Lemma grid_get_initializeGrid gs y x c :
  grid_get (initializeGrid gs) y x = Some c → c = blank.
Proof.
  intros (_ & _ & row & Hrow & Hc)%grid_get_Some. unfold initializeGrid in Hrow.
  apply lookup_replicate in Hrow as [-> _].
  by apply lookup_replicate in Hc as [-> _].
Qed.

Lemma at_index_seqZ m n i : 0 ≤ i < n → at_index (seqZ m n) i = Some (m + i).
Proof.
  intros Hi. apply at_index_Some. split; [lia|].
  rewrite lookup_seqZ_lt by lia. f_equal. lia.
Qed.

Lemma JSON_elem_idemp v : JSON_elem (JSON_elem v) = JSON_elem v.
Proof. by destruct v. Qed.

Lemma JSON_matrix_idemp p : JSON_matrix (JSON_matrix p) = JSON_matrix p.
Proof.
  unfold JSON_matrix. rewrite <-list_fmap_compose. apply list_fmap_ext.
  intros _ prow _. simpl. rewrite <-list_fmap_compose. apply list_fmap_ext.
  intros _ v _. apply JSON_elem_idemp.
Qed.

(** The file keeps a state alive or dead, unless it is [Infinity]. *)
Lemma positive_JSON_elem v : v ≠ JInfinity → positive (JSON_elem v) = positive v.
Proof. by destruct v. Qed.

Section round_trip.
Context (gs : GridSize) (g : Grid) (b : Bounds).
Hypothesis Hwf : wf_grid gs g.
Hypothesis Hfin : no_infinity g.
Hypothesis Hbox : bounding_box g b.

Lemma length_exported : length (exported g b) = Z.to_nat (box_height b).
Proof.
  unfold exported, JSON_matrix, box_states. by rewrite !length_fmap, length_seqZ.
Qed.

Lemma exported_row0 :
  ∃ row0, exported g b !! 0%nat = Some row0 ∧
          length row0 = Z.to_nat (box_width b).
Proof.
  pose proof (bounding_box_inside gs g b Hwf Hbox).
  unfold exported, JSON_matrix, box_states.
  rewrite !list_lookup_fmap, lookup_seqZ_lt by lia. simpl.
  eexists. split; [done|]. by rewrite !length_fmap, length_seqZ.
Qed.

Lemma pattern_value_exported i j :
  0 ≤ i < box_height b → 0 ≤ j < box_width b →
  pattern_value (exported g b) i j
  = JSON_elem (state_at g (minY b + i) (minX b + j)).
Proof.
  intros Hi Hj. unfold pattern_value, exported, JSON_matrix, box_states.
  rewrite !at_index_fmap, at_index_seqZ by done. simpl.
  by rewrite !at_index_fmap, at_index_seqZ by done.
Qed.

Lemma centerY_exported :
  centerY gs (exported g b) = minY (centred_box gs b).
Proof.
  pose proof (bounding_box_inside gs g b Hwf Hbox).
  unfold centerY. rewrite length_exported. simpl. unfold box_height.
  f_equal. f_equal. lia.
Qed.

Lemma centerX_exported :
  centerX gs (exported g b) = minX (centred_box gs b).
Proof.
  pose proof (bounding_box_inside gs g b Hwf Hbox).
  destruct exported_row0 as (row0 & Hrow0 & Hlen).
  unfold centerX. rewrite Hrow0. simpl. rewrite Hlen. unfold box_width.
  f_equal. f_equal. lia.
Qed.

Lemma centred_box_inside :
  0 ≤ minX (centred_box gs b) ∧ maxX (centred_box gs b) < cols gs ∧
  0 ≤ minY (centred_box gs b) ∧ maxY (centred_box gs b) < rows gs.
Proof.
  pose proof (bounding_box_inside gs g b Hwf Hbox).
  unfold centred_box, box_width, box_height. simpl.
  split_and!; Z.div_mod_to_equations; lia.
Qed.

Lemma covered_exported y x :
  covered gs (exported g b) y x = true ↔
  minY (centred_box gs b) ≤ y ≤ maxY (centred_box gs b) ∧
  minX (centred_box gs b) ≤ x ≤ maxX (centred_box gs b).
Proof.
  pose proof (bounding_box_inside gs g b Hwf Hbox).
  unfold covered. rewrite bool_decide_eq_true, centerY_exported, centerX_exported.
  rewrite length_exported. destruct exported_row0 as (row0 & Hrow0 & Hlen).
  rewrite Hrow0. simpl. rewrite Hlen.
  unfold centred_box, box_width, box_height. simpl. lia.
Qed.

Lemma reimported_stamped :
  wf_grid gs (reimported gs g b) ∧
  ∀ y x, grid_get (reimported gs g b) y x =
         stamped gs (exported g b) y x <$> grid_get (initializeGrid gs) y x.
Proof.
  assert (wf_grid gs (initializeGrid gs)) as Hwf0
    by (apply wf_initializeGrid; apply Hwf).
  destruct exported_row0 as (row0 & Hrow0 & Hlen).
  destruct (applyPattern_stamped gs (exported g b) (initializeGrid gs) Hwf0 row0 Hrow0)
    as (g' & Hg' & Hshape & Hget).
  assert (reimported gs g b = g') as ->.
  { unfold reimported, importPattern. rewrite Hg'.
    by destruct (exported g b). }
  split; [by apply (wf_grid_shape gs (initializeGrid gs))|].
  intros y x. rewrite Hget.
  destruct (grid_get (initializeGrid gs) y x) as [c|] eqn:Hc; [|done].
  by apply grid_get_initializeGrid in Hc as ->.
Qed.

Lemma grid_get_reimported_in i j :
  0 ≤ i < box_height b → 0 ≤ j < box_width b →
  grid_get (reimported gs g b)
    (minY (centred_box gs b) + i) (minX (centred_box gs b) + j)
  = Some (mkCell (JSON_elem (state_at g (minY b + i) (minX b + j))) 0 [] false).
Proof.
  intros Hi Hj. pose proof centred_box_inside as Hin.
  destruct reimported_stamped as [_ ->].
  destruct (wf_grid_get gs (initializeGrid gs)
              (minY (centred_box gs b) + i) (minX (centred_box gs b) + j))
    as [c Hc].
  { apply wf_initializeGrid; apply Hwf. }
  { unfold centred_box in *. simpl in *. lia. }
  { unfold centred_box in *. simpl in *. lia. }
  rewrite Hc. apply grid_get_initializeGrid in Hc as ->. simpl. f_equal.
  unfold stamped.
  rewrite (proj2 (covered_exported _ _))
    by (unfold centred_box; simpl; lia).
  rewrite centerY_exported, centerX_exported, <-pattern_value_exported by lia.
  simpl. do 3 f_equal; lia.
Qed.

Lemma live_at_reimported_inside y x :
  live_at (reimported gs g b) y x →
  minX (centred_box gs b) ≤ x ≤ maxX (centred_box gs b) ∧
  minY (centred_box gs b) ≤ y ≤ maxY (centred_box gs b).
Proof.
  intros (c & Hc & Hpos). destruct reimported_stamped as [_ Hget].
  rewrite Hget in Hc.
  destruct (grid_get (initializeGrid gs) y x) as [c0|] eqn:Hc0; [|done].
  apply grid_get_initializeGrid in Hc0 as ->. injection Hc as <-.
  unfold stamped in Hpos.
  destruct (covered gs (exported g b) y x) eqn:Hcov; [|by destruct Hpos].
  apply covered_exported in Hcov. lia.
Qed.

Lemma live_at_reimported y x :
  minY b ≤ y ≤ maxY b → minX b ≤ x ≤ maxX b → live_at g y x →
  live_at (reimported gs g b)
    (minY (centred_box gs b) + (y - minY b))
    (minX (centred_box gs b) + (x - minX b)).
Proof.
  intros Hy Hx (c & Hc & Hpos). eexists. split.
  - apply grid_get_reimported_in; unfold box_height, box_width; lia.
  - simpl.
    replace (minY b + (y - minY b)) with y by lia.
    replace (minX b + (x - minX b)) with x by lia.
    rewrite (state_at_Some _ _ _ c) by done.
    rewrite positive_JSON_elem; [done|]. by apply (Hfin y x).
Qed.

Lemma bounding_box_reimported :
  bounding_box (reimported gs g b) (centred_box gs b).
Proof.
  pose proof (bounding_box_inside gs g b Hwf Hbox) as Hin.
  destruct Hbox as (Hall & [y1 H1] & [y2 H2] & [x3 H3] & [x4 H4]).
  pose proof (Hall _ _ H1). pose proof (Hall _ _ H2).
  pose proof (Hall _ _ H3). pose proof (Hall _ _ H4).
  split_and!.
  - apply live_at_reimported_inside.
  - exists (minY (centred_box gs b) + (y1 - minY b)).
    apply (live_at_reimported y1 (minX b)) in H1; [|lia..].
    by replace (minX b - minX b) with 0 in H1 by lia; rewrite Z.add_0_r in H1.
  - exists (minY (centred_box gs b) + (y2 - minY b)).
    apply (live_at_reimported y2 (maxX b)) in H2; [|lia..].
    by replace (minX (centred_box gs b) + (maxX b - minX b))
      with (maxX (centred_box gs b)) in H2
      by (unfold centred_box, box_width; simpl; lia).
  - exists (minX (centred_box gs b) + (x3 - minX b)).
    apply (live_at_reimported (minY b) x3) in H3; [|lia..].
    by replace (minY b - minY b) with 0 in H3 by lia; rewrite Z.add_0_r in H3.
  - exists (minX (centred_box gs b) + (x4 - minX b)).
    apply (live_at_reimported (maxY b) x4) in H4; [|lia..].
    by replace (minY (centred_box gs b) + (maxY b - minY b))
      with (maxY (centred_box gs b)) in H4
      by (unfold centred_box, box_height; simpl; lia).
Qed.

Lemma box_states_reimported :
  JSON_matrix (box_states (reimported gs g b) (centred_box gs b)) = exported g b.
Proof.
  pose proof (bounding_box_inside gs g b Hwf Hbox) as Hin.
  unfold exported. rewrite <-(JSON_matrix_idemp (box_states g b)). f_equal.
  unfold box_states at 1.
  replace (maxY (centred_box gs b) - minY (centred_box gs b) + 1)
    with (box_height b) by (unfold centred_box; simpl; lia).
  replace (maxX (centred_box gs b) - minX (centred_box gs b) + 1)
    with (box_width b) by (unfold centred_box; simpl; lia).
  unfold JSON_matrix, box_states. fold (box_height b) (box_width b).
  rewrite <-(Z.add_0_r (minY (centred_box gs b))), <-(Z.add_0_r (minY b)).
  rewrite <-!fmap_add_seqZ, <-!list_fmap_compose.
  apply list_fmap_ext. intros _ i Hi%list_elem_of_lookup_2%elem_of_seqZ.
  unfold compose. cbn beta.
  rewrite <-(Z.add_0_r (minX (centred_box gs b))), <-(Z.add_0_r (minX b)).
  rewrite <-!fmap_add_seqZ, <-!list_fmap_compose.
  apply list_fmap_ext. intros _ j Hj%list_elem_of_lookup_2%elem_of_seqZ.
  unfold compose. cbn beta.
  by rewrite (state_at_Some _ _ _ _ (grid_get_reimported_in i j ltac:(lia) ltac:(lia))).
Qed.

Lemma exportCurrentPattern_reimported :
  exportCurrentPattern gs (reimported gs g b) = Some (exported g b).
Proof.
  destruct reimported_stamped as [Hwf' _].
  pose proof bounding_box_reimported as Hbox'.
  destruct Hbox' as (? & [y1 H1] & ?).
  destruct (pattern_bounds_live gs (reimported gs g b) _ _ Hwf' H1)
    as (b' & Hb' & Hbox'').
  assert (b' = centred_box gs b) as ->
    by (apply (bounding_box_unique (reimported gs g b)); [done|apply bounding_box_reimported]).
  rewrite (exportCurrentPattern_live gs _ _ Hwf' Hb' Hbox'').
  by rewrite box_states_reimported.
Qed.

End round_trip.

(** X14.  On a grid with a living cell, the exported file holds the states
    of the smallest box around the living cells: the box holds every
    living cell, each of its four sides touches one, and entry [(i, j)] of
    the file is the state at row [minY + i], column [minX + j], with [NaN],
    [Infinity], [-Infinity] and [undefined] written as [null]. *)
Theorem export_is_bounding_box gs g y0 x0 :
  wf_grid gs g → live_at g y0 x0 →
  ∃ b p, exportCurrentPattern gs g = Some p ∧
         bounding_box g b ∧
         length p = Z.to_nat (box_height b) ∧
         Forall (λ prow, length prow = Z.to_nat (box_width b)) p ∧
         ∀ i j, 0 ≤ i < box_height b → 0 ≤ j < box_width b →
                pattern_value p i j
                = JSON_elem (state_at g (minY b + i) (minX b + j)).
Proof.
  intros Hwf Hlive. destruct (pattern_bounds_live gs g y0 x0 Hwf Hlive) as (b & Hb & Hbox).
  exists b, (exported g b). split_and!.
  - by apply exportCurrentPattern_live.
  - done.
  - apply length_exported.
  - unfold exported, JSON_matrix, box_states. rewrite <-list_fmap_compose.
    apply Forall_fmap, Forall_forall. intros y _. simpl.
    by rewrite !length_fmap, length_seqZ.
  - intros i j. apply pattern_value_exported.
Qed.

(** X15.  A grid of at least one row without living cells exports the
    empty array: the scan leaves [minY] at [rows] and [maxY] at 0, and the
    extraction loop does not run. *)
Theorem export_of_dead_grid gs g :
  wf_grid gs g → 1 ≤ rows gs → all_dead g →
  exportCurrentPattern gs g = Some [] ∧
  pattern_bounds gs g = Some (mkBounds (cols gs) (rows gs) 0 0).
Proof.
  intros Hwf Hrows Hdead.
  destruct (pattern_bounds_inv gs g Hwf) as (b & Hb & Hinv).
  apply (bounds_inv_dead gs g _ b Hdead) in Hinv as ->. split; [|done].
  unfold exportCurrentPattern. rewrite Hb. simpl.
  unfold for_from_to. by rewrite seqZ_nil by lia.
Qed.

(** An [Infinity] on the edge of the pattern does not come back: the file
    holds [null] for it, and the imported cell is dead. *)
Example export_import_infinity :
  exportCurrentPattern hundred lone_infinity = Some [[JNull]] ∧
  exportCurrentPattern hundred (importPattern hundred (initializeGrid hundred) [[JNull]])
  = Some [].
Proof. split; by vm_compute. Qed.


(** ** Rule presets *)

Lemma property_elem_of {A} (obj : list (string * A)) key v :
  property obj key = Some v → v ∈ obj.*2.
Proof.
  induction obj as [|[k v'] obj IH]; [done|]. cbn [property].
  destruct (String.eqb k key).
  - intros [= <-]. apply elem_of_cons. by left.
  - intros Hv%IH. apply elem_of_cons. by right.
Qed.

Lemma property_rulePresets name p :
  property rulePresets name = Some p →
  p ∈ [mkPreset 2 3 3 3 1; mkPreset 3 6 3 6 1; mkPreset 0 0 2 2 1;
       mkPreset 0 0 2 4 1; mkPreset 4 8 3 3 1; mkPreset 1 5 3 3 1;
       mkPreset 2 3 3 3 5].
Proof. intros Hp. exact (property_elem_of rulePresets name p Hp). Qed.

(** X17.  Whatever the rules were before, after any of the presets the
    ranges are ordered and inside 0..8, the birth range starts above 0,
    neighbourhood and wrapping are the ones from before, and a step keeps
    the cell invariant [0 <= state <= states], [age >= 0]. *)
Theorem presets_keep_invariant name p prev w gs cs g :
  property rulePresets name = Some p →
  wf_grid gs g →
  grid_ok (applyRulePreset name prev) g →
  let r := applyRulePreset name prev in
  0 ≤ surviveMin r ≤ surviveMax r ∧ surviveMax r ≤ 8 ∧
  0 < birthMin r ≤ birthMax r ∧ birthMax r ≤ 8 ∧ 1 ≤ states r ≤ 5 ∧
  neighborhood r = neighborhood prev ∧ wrapping r = wrapping prev ∧
  ∃ g', computeNextGeneration w gs r cs g = Some g' ∧ grid_ok r g'.
Proof.
  intros Hp Hwf Hok r.
  assert (0 ≤ surviveMin r ≤ surviveMax r ∧ surviveMax r ≤ 8 ∧
          0 < birthMin r ≤ birthMax r ∧ birthMax r ≤ 8 ∧ 1 ≤ states r ≤ 5 ∧
          neighborhood r = neighborhood prev ∧ wrapping r = wrapping prev)
    as Hr.
  { unfold r, applyRulePreset. rewrite Hp. simpl.
    apply property_rulePresets in Hp.
    repeat (apply elem_of_cons in Hp as [->|Hp]; [simpl; split_and!; (lia || done)|]).
    by apply elem_of_nil in Hp. }
  split_and!; try apply Hr.
  exists (step w gs r cs g). split; [by apply computeNextGeneration_step|].
  apply step_ok; [lia|left; lia|done].
Qed.

(** ** The cell size *)

(** X18.  The cell size chosen on a resize is at least 2; when it is above
    2 the grid fits in the container, and no larger cell size would. *)
Theorem cell_size_fits gs width height :
  0 < cols gs → 0 < rows gs →
  let s := newCellSize gs width height in
  2 ≤ s ∧
  (2 < s → cols gs * s ≤ width ∧ rows gs * s ≤ height) ∧
  (∀ k, cols gs * k ≤ width → rows gs * k ≤ height → k ≤ s).
Proof.
  intros Hc Hr s. unfold s, newCellSize.
  pose proof (Z.mul_div_le width (cols gs) Hc).
  pose proof (Z.mul_div_le height (rows gs) Hr).
  split_and!; [lia| |].
  - intros Hs. split; nia.
  - intros k Hkw Hkh.
    assert (k ≤ width / cols gs) by (apply Z.div_le_lower_bound; lia).
    assert (k ≤ height / rows gs) by (apply Z.div_le_lower_bound; lia).
    lia.
Qed.

(** ** Drawing *)

Lemma elem_of_viewport left top right bottom y x :
  (y, x) ∈ viewport left top right bottom ↔ top ≤ y < bottom ∧ left ≤ x < right.
Proof.
  unfold viewport. rewrite list_elem_of_bind. split.
  - intros (y' & Hin & Hy'). apply list_elem_of_bind in Hin as (x' & Hin & Hx').
    apply list_elem_of_singleton in Hin. injection Hin as -> ->.
    apply elem_of_seqZ in Hy', Hx'. lia.
  - intros [Hy Hx]. exists y. split; [|apply elem_of_seqZ; lia].
    apply list_elem_of_bind. exists x. split; [by apply list_elem_of_singleton|].
    apply elem_of_seqZ. lia.
Qed.

Lemma drawGrid_viewport all cs g left top right bottom :
  drawGrid all cs g left top right bottom =
  for_each (viewport left top right bottom)
    (λ p ops, cell ← grid_get g p.1 p.2;
              Some (ops ++ draw_cell all cs p.2 p.1 cell)) [].
Proof. unfold drawGrid, for_from_below. by rewrite for_each_nested. Qed.

Lemma canvas_after_app ops ops' :
  canvas_after (ops ++ ops') = foldl paint (canvas_after ops) ops'.
Proof. unfold canvas_after. apply foldl_app. Qed.

Lemma canvas_draw_cell all cs g y0 x0 c canvas y x :
  grid_get g y0 x0 = Some c →
  foldl paint canvas (draw_cell all cs x0 y0 c) y x =
  if bool_decide ((y, x) = (y0, x0)) then
    match draw_cell all cs x0 y0 c with
    | [] => canvas y x
    | _ => pixel all cs g y x
    end
  else canvas y x.
Proof.
  intros Hc. case_bool_decide as Heq.
  - injection Heq as -> ->. unfold pixel. rewrite Hc. simpl.
    unfold draw_cell, draw_changed, draw_visible.
    destruct all, (changed c), (positive (state c)); simpl; try done;
      by rewrite ?bool_decide_eq_true_2 by done.
  - assert (¬ (x = x0 ∧ y = y0)) as Hne by (intros [-> ->]; done).
    unfold draw_cell, draw_changed, draw_visible.
    destruct all, (changed c), (positive (state c)); simpl; try done;
      by rewrite ?bool_decide_eq_false_2 by done.
Qed.

Lemma draw_cell_nil all cs g y x c :
  grid_get g y x = Some c → draw_cell all cs x y c = [] → pixel all cs g y x = None.
Proof.
  intros Hc. unfold pixel, draw_cell, draw_changed, draw_visible. rewrite Hc. simpl.
  by destruct all, (changed c), (positive (state c)).
Qed.

Lemma drawGrid_canvas all cs gs g left top right bottom :
  wf_grid gs g →
  0 ≤ top → bottom ≤ rows gs → 0 ≤ left → right ≤ cols gs →
  ∃ ops, drawGrid all cs g left top right bottom = Some ops ∧
         ∀ y x, canvas_after ops y x =
                if bool_decide (top ≤ y < bottom ∧ left ≤ x < right)
                then pixel all cs g y x else None.
Proof.
  intros Hwf Htop Hbottom Hleft Hright. rewrite drawGrid_viewport.
  destruct (for_each_invariant (draw_inv all cs g)
              (viewport left top right bottom)
              (λ p ops, cell ← grid_get g p.1 p.2;
                        Some (ops ++ draw_cell all cs p.2 p.1 cell)) [])
    as (ops & Hops & Hinv).
  - intros y x. rewrite bool_decide_eq_false_2; [done|apply not_elem_of_nil].
  - intros done [y0 x0] rest ops Hpos Hinv. simpl.
    assert ((y0, x0) ∈ viewport left top right bottom) as Hin.
    { rewrite Hpos. apply elem_of_app. right. apply elem_of_cons. by left. }
    apply elem_of_viewport in Hin.
    destruct (wf_grid_get gs g y0 x0 Hwf) as [c Hc]; [lia..|].
    rewrite Hc. simpl. eexists. split; [done|]. intros y x.
    rewrite canvas_after_app, (canvas_draw_cell all cs g y0 x0 c _ y x Hc).
    pose proof (Hinv y x) as Hyx.
    destruct (decide ((y, x) = (y0, x0))) as [Heq|Hne];
      [rewrite (bool_decide_eq_true_2 (_ = _)) by done
      |rewrite (bool_decide_eq_false_2 (_ = _)) by done].
    + injection Heq as -> ->.
      rewrite (bool_decide_eq_true_2 (_ ∈ done ++ _))
        by (apply elem_of_app; right; by apply list_elem_of_singleton).
      destruct (draw_cell all cs x0 y0 c) eqn:Hcell; [|done].
      rewrite (draw_cell_nil all cs g y0 x0 c Hc Hcell) in *.
      rewrite Hyx. by case_bool_decide.
    + assert ((y, x) ∈ done ++ [(y0, x0)] ↔ (y, x) ∈ done) as Hiff
        by (rewrite elem_of_app, list_elem_of_singleton; tauto).
      by rewrite Hyx, (bool_decide_ext _ _ Hiff).
  - exists ops. split; [done|]. intros y x.
    by rewrite (Hinv y x), (bool_decide_ext _ _ (elem_of_viewport left top right bottom y x)).
Qed.

Lemma live_as_written w c :
  is_Some (positive (state (as_written w c))) → is_Some (positive (state c)).
Proof.
  destruct w; [done|]. unfold as_written, lose_infinity.
  destruct (state c) eqn:Hc; simpl; rewrite ?Hc; try done.
Qed.

Lemma next_cell_live_changed w gs r cs g y x c :
  is_Some (positive (state (next_cell w gs r cs g y x c))) →
  changed (next_cell w gs r cs g y x c) = true.
Proof.
  unfold next_cell. intros Hlive%live_as_written.
  rewrite (proj1 (shape_changed_as_written w _)).
  revert Hlive. rewrite changed_write_back. unfold apply_rules, write_back.
  destruct (positive (state c)) as [s|] eqn:Hpos.
  - destruct ((surviveMin r <=? _) && (_ <=? surviveMax r)).
    + assert ((age c =? age c + 1) = false) as Hage by lia.
      intros _. destruct (1 <? states r); [destruct (differs_from _ _)|]; simpl;
        by rewrite ?Hage, ?orb_true_r.
    + by destruct (trailEffect cs); [destruct (trailLength cs <? age c + 1)|].
  - destruct ((birthMin r <=? _) && (_ <=? birthMax r)); [done|]. simpl.
    rewrite (positive_None_JSON_val _ Hpos). by intros [? ?].
Qed.

(** X19.  After a step, the redraw that only paints the cells flagged
    [changed] shows the same canvas as the full redraw: every cell of the
    viewport that is alive shows its colour, everything else the
    background.  A living cell of the new grid is always flagged. *)
Theorem incremental_redraw_after_step w gs r cs g left top right bottom :
  wf_grid gs g →
  0 ≤ top → bottom ≤ rows gs → 0 ≤ left → right ≤ cols gs →
  ∃ g' ops ops',
    computeNextGeneration w gs r cs g = Some g' ∧
    drawGrid false cs g' left top right bottom = Some ops ∧
    drawGrid true cs g' left top right bottom = Some ops' ∧
    (∀ y x c, grid_get g' y x = Some c → is_Some (positive (state c)) →
              changed c = true) ∧
    ∀ y x, canvas_after ops y x = canvas_after ops' y x ∧
           canvas_after ops' y x =
             if bool_decide (top ≤ y < bottom ∧ left ≤ x < right)
             then shown cs g' y x else None.
Proof.
  intros Hwf Htop Hbottom Hleft Hright.
  pose proof (wf_step w gs r cs g Hwf) as Hwf'.
  destruct (drawGrid_canvas false cs gs (step w gs r cs g) left top right bottom)
    as (ops & Hops & Hcanvas); [done..|].
  destruct (drawGrid_canvas true cs gs (step w gs r cs g) left top right bottom)
    as (ops' & Hops' & Hcanvas'); [done..|].
  assert (∀ y x c, grid_get (step w gs r cs g) y x = Some c →
                   is_Some (positive (state c)) → changed c = true) as Hflag.
  { intros y x c. rewrite grid_get_step.
    destruct (grid_get g y x) as [c0|]; simpl; [|done]. intros [= <-].
    apply next_cell_live_changed. }
  exists (step w gs r cs g), ops, ops'.
  split_and!; [by apply computeNextGeneration_step|done..|].
  intros y x. rewrite Hcanvas, Hcanvas'.
  assert (pixel false cs (step w gs r cs g) y x = shown cs (step w gs r cs g) y x) as ->.
  { unfold pixel, shown.
    destruct (grid_get (step w gs r cs g) y x) as [c|] eqn:Hc; simpl; [|done].
    destruct (positive (state c)) as [s|] eqn:Hs.
    - by rewrite (Hflag y x c Hc) by (by rewrite Hs).
    - by destruct (changed c). }
  split; [|done]. unfold pixel, shown. by destruct (grid_get _ y x).
Qed.

(** X20.  A pattern stamped on a grid without [changed] flags, as after
    [initializeGrid], is not drawn by the redraw that the unzoomed,
    unpanned view takes: no rectangle is painted, while the full redraw
    shows the living cells. *)
Theorem stamped_pattern_not_drawn gs cs g pattern row0 left top right bottom :
  wf_grid gs g →
  no_flags g →
  pattern !! 0%nat = Some row0 →
  0 ≤ top → bottom ≤ rows gs → 0 ≤ left → right ≤ cols gs →
  ∃ g' ops',
    applyPattern gs g pattern = Some g' ∧
    drawGrid false cs g' left top right bottom = Some [] ∧
    drawGrid true cs g' left top right bottom = Some ops' ∧
    ∀ y x, canvas_after ops' y x =
           if bool_decide (top ≤ y < bottom ∧ left ≤ x < right)
           then shown cs g' y x else None.
Proof.
  intros Hwf Hflags Hrow0 Htop Hbottom Hleft Hright.
  destruct (applyPattern_stamped gs pattern g Hwf row0 Hrow0)
    as (g' & Hg' & Hshape & Hget).
  assert (wf_grid gs g') as Hwf' by by apply (wf_grid_shape gs g).
  assert (no_flags g') as Hflags'.
  { intros y x c'. rewrite Hget.
    destruct (grid_get g y x) as [c|] eqn:Hc; simpl; [|done]. intros [= <-].
    unfold stamped. destruct (covered gs pattern y x); simpl; by apply (Hflags y x). }
  destruct (drawGrid_canvas true cs gs g' left top right bottom)
    as (ops' & Hops' & Hcanvas'); [done..|].
  exists g', ops'. split_and!; [done| |done|].
  - rewrite drawGrid_viewport.
    destruct (for_each_invariant (λ _ ops, ops = [])
                (viewport left top right bottom)
                (λ p ops, cell ← grid_get g' p.1 p.2;
                          Some (ops ++ draw_cell false cs p.2 p.1 cell)) [])
      as (ops & Hops & ->); [done| |done].
    intros done [y0 x0] rest ops Hpos ->. simpl.
    assert ((y0, x0) ∈ viewport left top right bottom) as Hin.
    { rewrite Hpos. apply elem_of_app. right. apply elem_of_cons. by left. }
    apply elem_of_viewport in Hin.
    destruct (wf_grid_get gs g' y0 x0 Hwf') as [c Hc]; [lia..|].
    rewrite Hc. simpl. eexists. split; [done|].
    unfold draw_cell, draw_changed. by rewrite (Hflags' y0 x0 c Hc).
  - intros y x. rewrite Hcanvas'. unfold pixel, shown.
    by destruct (grid_get g' y x).
Qed.

(** ** Random fill *)

Lemma for_each_positions_update gs g (f : Z → Z → Cell → Cell) :
  wf_grid gs g →
  ∃ g', for_each (positions gs) (λ p ng, grid_update ng p.1 p.2 (f p.1 p.2)) g
        = Some g' ∧
        shape g' = shape g ∧
        ∀ y x, grid_get g' y x = f y x <$> grid_get g y x.
Proof.
  intros Hwf.
  destruct (for_each_invariant (update_inv f g) (positions gs)
              (λ p ng, grid_update ng p.1 p.2 (f p.1 p.2)) g)
    as (g' & Hg' & Hshape & Hget).
  - split; [done|]. intros y x.
    destruct (grid_get g y x); simpl; [|done].
    first [done|rewrite bool_decide_eq_false_2; [done|apply not_elem_of_nil]].
  - intros done [y0 x0] rest ng Hpos [Hshape Hget]. simpl.
    assert ((y0, x0) ∈ positions gs) as [Hy Hx]%elem_of_positions.
    { rewrite Hpos. apply elem_of_app. right. left. }
    assert ((y0, x0) ∉ done) as Hfresh.
    { pose proof (NoDup_positions gs) as Hnd. rewrite Hpos in Hnd.
      apply NoDup_app in Hnd as (_ & Hnd & _). intros Hin. apply (Hnd _ Hin). left. }
    destruct (wf_grid_get gs g y0 x0) as [c Hc]; [done..|].
    assert (grid_get ng y0 x0 = Some c) as Hng.
    { rewrite Hget, Hc. simpl. by rewrite bool_decide_eq_false_2. }
    rewrite (grid_update_Some _ _ _ _ _ Hng). eexists. split; [done|]. split.
    + by rewrite shape_put.
    + intros y x. destruct (decide ((y0, x0) = (y, x))) as [[= <- <-]|Hne].
      * rewrite grid_get_put_eq by eauto. rewrite Hc. simpl.
        by rewrite bool_decide_eq_true_2 by (apply elem_of_app; right; left).
      * rewrite grid_get_put_ne by done. rewrite Hget.
        destruct (grid_get g y x) as [c'|]; simpl; [|done].
        f_equal. apply (f_equal (λ b : bool, if b then _ else _)).
        apply bool_decide_ext. rewrite elem_of_app, list_elem_of_singleton.
        split; [tauto|]. intros [?|?]; [done|]. by destruct Hne.
  - exists g'. split_and!; [done..|]. intros y x. rewrite Hget.
    destruct (grid_get g y x) as [c|] eqn:Hc; simpl; [|done].
    rewrite bool_decide_eq_true_2; [done|].
    apply elem_of_positions. by apply (wf_grid_get_inv gs g y x c).
Qed.

(** X21.  Random fill makes the cell invariant hold whatever the grid held
    before: on a grid of the announced size and with at least one state,
    every cell ends with a state between 0 and [states] and age 0; it is
    dead exactly where the draw fell at or above the density; the
    [changed] flags and the histories are the ones from before. *)
Theorem randomFill_establishes_invariant gs r g random :
  wf_grid gs g →
  1 ≤ states r →
  (∀ y x, 0 ≤ (random y x).2 < states r) →
  ∃ g', randomFill gs r g random = Some g' ∧
        wf_grid gs g' ∧ grid_ok r g' ∧
        ∀ y x c, grid_get g y x = Some c →
          ∃ c' s, grid_get g' y x = Some c' ∧
                  state c' = JNum s ∧ age c' = 0 ∧
                  changed c' = changed c ∧
                  previousStates c' = previousStates c ∧
                  (s = 0 ↔ (random y x).1 = false).
Proof.
  intros Hwf Hstates Hrandom.
  assert (wf_grid gs (JSON_copy g)) as Hwf0
    by (apply (wf_grid_shape gs g); [apply shape_JSON_copy|done]).
  destruct (for_each_positions_update gs (JSON_copy g)
              (λ y x c, set_age 0
                 (set_state
                    (if (random y x).1
                     then (if 1 <? states r then JNum ((random y x).2 + 1) else JNum 1)
                     else JNum 0) c)) Hwf0)
    as (g' & Hg' & Hshape & Hget).
  assert (randomFill gs r g random = Some g') as Hfill.
  { unfold randomFill, for_range. rewrite for_each_nested. exact Hg'. }
  assert (∀ y x c, grid_get g y x = Some c →
            ∃ c' s, grid_get g' y x = Some c' ∧
                    state c' = JNum s ∧ age c' = 0 ∧
                    changed c' = changed c ∧
                    previousStates c' = previousStates c ∧
                    (s = 0 ↔ (random y x).1 = false) ∧ 0 ≤ s ≤ states r) as Hcells.
  { intros y x c Hc. rewrite Hget, grid_get_JSON_copy, Hc. simpl.
    specialize (Hrandom y x).
    destruct (random y x) as [[] k]; simpl in *.
    - destruct (1 <? states r) eqn:Hmany.
      + eexists _, (k + 1). split_and!; [done..| |lia|lia]. split; [lia|done].
      + eexists _, 1. split_and!; [done..| |lia|lia]. split; [lia|done].
    - eexists _, 0. split_and!; [done..| |lia|lia]. done. }
  exists g'. split_and!; [done| | |].
  - apply (wf_grid_shape gs (JSON_copy g)); done.
  - intros y x c' Hc'. pose proof Hc' as Hc''.
    rewrite Hget, grid_get_JSON_copy in Hc''.
    destruct (grid_get g y x) as [c|] eqn:Hc; [|done].
    destruct (Hcells y x c Hc) as (c1 & s & Hc1 & Hs & Hage & _ & _ & _ & Hrange).
    rewrite Hc' in Hc1. injection Hc1 as <-.
    exists s. split_and!; [done|lia|lia|lia].
  - intros y x c Hc.
    destruct (Hcells y x c Hc) as (c1 & s & ? & ? & ? & ? & ? & ? & ?).
    exists c1, s. done.
Qed.

(** ** The two implementations, away from [Infinity] *)

Lemma int_states_no_infinity g : int_states g → no_infinity g.
Proof. intros Hint y x c Hc. destruct (Hint y x c Hc) as [z ->]. done. Qed.

Lemma step_fallback_worker gs r cs g :
  wf_grid gs g → no_infinity g → step false gs r cs g = step true gs r cs g.
Proof.
  intros Hwf Hfin.
  pose proof (computeNextGeneration_worker gs r cs g Hfin) as Heq.
  rewrite !computeNextGeneration_step in Heq by done. by injection Heq.
Qed.

Lemma ticks_no_infinity w gs r cs n g :
  no_infinity g → no_infinity (ticks w gs r cs n g).
Proof.
  intros Hfin. induction n as [|n IH]; [done|]. rewrite ticks_S.
  by apply no_infinity_step.
Qed.

Lemma ticks_fallback_worker gs r cs n g :
  wf_grid gs g → no_infinity g → ticks false gs r cs n g = ticks true gs r cs n g.
Proof.
  intros Hwf Hfin. induction n as [|n IH]; [done|]. rewrite !ticks_S, IH.
  apply step_fallback_worker; [by apply wf_ticks|by apply ticks_no_infinity].
Qed.


(** ** The extra properties at concrete grids *)

Lemma all_dead_initializeGrid gs : all_dead (initializeGrid gs).
Proof. intros y x c Hc. by apply grid_get_initializeGrid in Hc as ->. Qed.

Lemma no_flags_initializeGrid gs : no_flags (initializeGrid gs).
Proof. intros y x c Hc. by apply grid_get_initializeGrid in Hc as ->. Qed.

Lemma grid_ok_initializeGrid gs r : 0 ≤ states r → grid_ok r (initializeGrid gs).
Proof.
  intros Hstates y x c Hc. apply grid_get_initializeGrid in Hc as ->.
  exists 0. simpl. split; [done|lia].
Qed.

Lemma shows_int_states g f : shows g f → int_states g.
Proof. intros Hshows y x c Hc. eexists. by apply (Hshows y x). Qed.

Lemma displays_centered_glider : displays eight centered_glider (glider_at 3 3).
Proof.
  apply shows_displays.
  - apply (bool_decide_unpack _). vm_compute. exact I.
  - apply (shows_check eight); [|vm_compute; reflexivity].
    apply (bool_decide_unpack _). vm_compute. exact I.
  - intros y x Hlive. apply glider_shape_supported in Hlive. simpl. lia.
Qed.

Lemma engine_is_conway_witness :
  ∃ g', run true eight gameOfLife defaultColors 4 centered_glider = Some g' ∧
        displays eight g' (Nat.iter 4 (life_on eight) (glider_at 3 3)) ∧
        ((∀ k y x, (k ≤ 4)%nat → Nat.iter k life (glider_at 3 3) y x = true →
                   0 ≤ y < rows eight ∧ 0 ≤ x < cols eight) →
         displays eight g' (Nat.iter 4 life (glider_at 3 3))).
Proof.
  apply (engine_is_conway true eight defaultColors centered_glider (glider_at 3 3) 4).
  - reflexivity.
  - apply displays_centered_glider.
Defined.

Lemma dead_grid_stays_dead_witness :
  worker_onmessage (mkMsg (initializeGrid eight) gameOfLife eight defaultColors) =
    Some (mkResponse
            ((λ row : list Cell, (set_changed false ∘ JSON_cell) <$> row)
               <$> initializeGrid eight) []) ∧
  ∃ g', run true eight gameOfLife defaultColors 3 (initializeGrid eight) = Some g' ∧
        all_dead g'.
Proof.
  apply (dead_grid_stays_dead true eight gameOfLife defaultColors (initializeGrid eight) 3).
  - apply (bool_decide_unpack _). vm_compute. exact I.
  - simpl. lia.
  - apply all_dead_initializeGrid.
Defined.

Lemma changed_cells_exact_witness :
  ∃ resp,
    worker_onmessage (mkMsg centered_glider gameOfLife eight defaultColors) = Some resp ∧
    NoDup (changedCells resp) ∧
    ∀ y x c, grid_get centered_glider y x = Some c →
      ∃ c', grid_get (newGrid resp) y x = Some c' ∧
            (changed c' = true ↔ differs c c') ∧
            (mkPos x y ∈ changedCells resp ↔ differs c c').
Proof.
  apply (changed_cells_exact eight gameOfLife defaultColors centered_glider).
  - apply (bool_decide_unpack _). vm_compute. exact I.
  - apply (shows_int_states _ (glider_at 3 3)).
    apply (shows_check eight); [|vm_compute; reflexivity].
    apply (bool_decide_unpack _). vm_compute. exact I.
Defined.

Lemma newborn_between_neighbours_witness :
  ∃ g' c' sum v,
    computeNextGeneration true one_by_three birth_at_two defaultColors one_and_three
      = Some g' ∧
    grid_get g' 0 1 = Some c' ∧
    neighborSum one_by_three birth_at_two one_and_three 0 1 = Fin sum ∧
    v = Math_round (inject_Z sum
                    / inject_Z (neighborCount one_by_three birth_at_two one_and_three 0 1))%Q ∧
    state c' = JNum v ∧ 1 ≤ v ≤ 3.
Proof.
  assert (neighborCount one_by_three birth_at_two one_and_three 0 1 = 2) as Hcount
    by (vm_compute; reflexivity).
  apply (newborn_between_neighbours true one_by_three birth_at_two defaultColors
           one_and_three 0 1 blank 1 3).
  - apply (bool_decide_unpack _). vm_compute. exact I.
  - reflexivity.
  - reflexivity.
  - rewrite Hcount. simpl. lia.
  - simpl. lia.
  - rewrite Hcount. lia.
  - lia.
  - simpl. lia.
  - assert (neighbor_states one_by_three birth_at_two one_and_three 0 1 = [Fin 1; Fin 3])
      as -> by (vm_compute; reflexivity).
    intros v [->|[->|[]%elem_of_nil]%elem_of_cons]%elem_of_cons;
      eexists; (split; [reflexivity|lia]).
Defined.

Lemma survivor_climbs_witness :
  ∃ g1 c1,
    run true four multicolor defaultColors 2 block = Some g1 ∧
    grid_get g1 1 1 = Some c1 ∧
    state c1 = JNum 3 ∧ age c1 = 2 ∧ changed c1 = true.
Proof.
  apply (survivor_climbs true four multicolor defaultColors block 1 1 alive 1 1).
  - apply (bool_decide_unpack _). vm_compute. exact I.
  - reflexivity.
  - reflexivity.
  - intros k gk Hk Hrun.
    assert (neighborCount four multicolor gk 1 1 = 3) as Hcount.
    { destruct k as [|[|k]]; [| |lia];
        vm_compute in Hrun; injection Hrun as <-; reflexivity. }
    unfold in_survive_range. rewrite Hcount. simpl. lia.
Defined.

Lemma step_throws_on_missing_cell_witness :
  worker_onmessage (mkMsg lone_live gameOfLife eight defaultColors) = None ∧
  computeNextGeneration false eight gameOfLife defaultColors lone_live = None.
Proof.
  apply (step_throws_on_missing_cell eight gameOfLife defaultColors lone_live 0 1).
  - simpl. lia.
  - simpl. lia.
  - reflexivity.
Defined.

Lemma torus_shift_invariant_witness :
  ∃ g', computeNextGeneration true eight initialRules defaultColors centered_glider
        = Some g' ∧
        computeNextGeneration true eight initialRules defaultColors
          (shift_grid eight 3 (-2) centered_glider)
        = Some (shift_grid eight 3 (-2) g').
Proof.
  apply (torus_shift_invariant true eight initialRules defaultColors 3 (-2) centered_glider).
  - apply (bool_decide_unpack _). vm_compute. exact I.
  - reflexivity.
Defined.

Lemma edits_keep_invariant_witness :
  (∃ g1, handleCanvasClick false eight gameOfLife (initializeGrid eight) 4 3 = Some g1 ∧
         wf_grid eight g1 ∧ grid_ok gameOfLife g1) ∧
  (∃ g2, handleCanvasMouseDown false false eight (initializeGrid eight) 4 3 = Some g2 ∧
         wf_grid eight g2 ∧ grid_ok gameOfLife g2) ∧
  (∃ g3, handleCanvasMouseMove false true false eight (initializeGrid eight) 1 4 3
         = Some g3 ∧
         wf_grid eight g3 ∧ grid_ok gameOfLife g3).
Proof.
  apply (edits_keep_invariant eight gameOfLife (initializeGrid eight) 1 4 3).
  - apply (bool_decide_unpack _). vm_compute. exact I.
  - apply grid_ok_initializeGrid. simpl. lia.
  - simpl. lia.
Defined.

Lemma clicks_cycle_witness :
  ∃ g',
    clicks 6 eight multicolor (initializeGrid eight) 2 3 = Some g' ∧
    (state <$> grid_get g' 3 2) = Some (JNum ((0 + Z.of_nat 6) `mod` (states multicolor + 1))) ∧
    (Z.of_nat 6 = states multicolor + 1 → (state <$> grid_get g' 3 2) = Some (JNum 0)) ∧
    ∀ y' x', (y', x') ≠ (3, 2) →
             grid_get g' y' x' = grid_get (initializeGrid eight) y' x'.
Proof.
  apply (clicks_cycle eight multicolor (initializeGrid eight) 2 3 blank 0 6).
  - apply (bool_decide_unpack _). vm_compute. exact I.
  - reflexivity.
  - reflexivity.
  - reflexivity.
  - simpl. lia.
Defined.

Lemma mouse_down_then_click_witness :
  ∃ g1 g2 c2,
    handleCanvasMouseDown false false eight (initializeGrid eight) 2 3 = Some g1 ∧
    handleCanvasClick false eight gameOfLife g1 2 3 = Some g2 ∧
    grid_get g2 3 2 = Some c2 ∧
    state c2 = JNum (if 0 =? 0 then 2 `mod` (states gameOfLife + 1)
                     else 1 `mod` (states gameOfLife + 1)) ∧
    age c2 = 0 ∧
    (states gameOfLife = 1 → 0 ≤ 0 ≤ 1 → state c2 = state blank).
Proof.
  apply (mouse_down_then_click eight gameOfLife (initializeGrid eight) 2 3 blank 0).
  - apply (bool_decide_unpack _). vm_compute. exact I.
  - reflexivity.
  - reflexivity.
  - reflexivity.
  - simpl. lia.
Defined.

Lemma stroke_paints_witness :
  ∃ g',
    stroke eight (initializeGrid eight) 0 2 3 [(3, 3); (4, 3)]
      = Some (g', draw_mode_of (state blank)) ∧
    wf_grid eight g' ∧
    grid_get g' 3 2 =
      Some (mkCell (JNum (draw_mode_of (state blank))) 0 (previousStates blank) true) ∧
    ∀ y x c, grid_get (initializeGrid eight) y x = Some c → (x, y) ≠ (2, 3) →
      ∃ c', grid_get g' y x = Some c' ∧
            if bool_decide ((x, y) ∈ [(3, 3); (4, 3)])
            then state c' = JNum (draw_mode_of (state blank)) ∧
                 painted (draw_mode_of (state blank)) c c'
            else c' = c.
Proof.
  apply (stroke_paints eight (initializeGrid eight) 0 2 3 [(3, 3); (4, 3)] blank).
  - apply (bool_decide_unpack _). vm_compute. exact I.
  - reflexivity.
  - reflexivity.
Defined.

Lemma applyPattern_idempotent_witness :
  ∃ g1, applyPattern eight (initializeGrid eight) glider = Some g1 ∧
        applyPattern eight g1 glider = Some g1.
Proof.
  apply (applyPattern_idempotent eight (initializeGrid eight) glider
           [JNum 0; JNum 1; JNum 0]).
  - apply (bool_decide_unpack _). vm_compute. exact I.
  - reflexivity.
Defined.

Lemma applyPattern_keeps_invariant_witness :
  ∃ g1, applyPattern eight (initializeGrid eight) glider = Some g1 ∧
        grid_ok gameOfLife g1.
Proof.
  apply (applyPattern_keeps_invariant eight gameOfLife (initializeGrid eight) glider
           [JNum 0; JNum 1; JNum 0]).
  - apply (bool_decide_unpack _). vm_compute. exact I.
  - reflexivity.
  - unfold pattern_ok, glider.
    repeat (apply Forall_cons; split;
            [split; [reflexivity|];
             repeat (apply Forall_cons; split;
                     [eexists; split; [reflexivity|simpl; lia]|]);
             apply Forall_nil_2|]).
    apply Forall_nil_2.
  - apply grid_ok_initializeGrid. simpl. lia.
Defined.

Lemma export_is_bounding_box_witness :
  ∃ b p, exportCurrentPattern eight centered_glider = Some p ∧
         bounding_box centered_glider b ∧
         length p = Z.to_nat (box_height b) ∧
         Forall (λ prow, length prow = Z.to_nat (box_width b)) p ∧
         ∀ i j, 0 ≤ i < box_height b → 0 ≤ j < box_width b →
                pattern_value p i j
                = JSON_elem (state_at centered_glider (minY b + i) (minX b + j)).
Proof.
  apply (export_is_bounding_box eight centered_glider 3 4).
  - apply (bool_decide_unpack _). vm_compute. exact I.
  - exists alive. split; [reflexivity|]. exists (Fin 1). reflexivity.
Defined.

Lemma export_of_dead_grid_witness :
  exportCurrentPattern eight (initializeGrid eight) = Some [] ∧
  pattern_bounds eight (initializeGrid eight) = Some (mkBounds 8 8 0 0).
Proof.
  apply (export_of_dead_grid eight (initializeGrid eight)).
  - apply (bool_decide_unpack _). vm_compute. exact I.
  - simpl. lia.
  - apply all_dead_initializeGrid.
Defined.


Lemma presets_keep_invariant_witness :
  let r := applyRulePreset "coral" multicolor in
  0 ≤ surviveMin r ≤ surviveMax r ∧ surviveMax r ≤ 8 ∧
  0 < birthMin r ≤ birthMax r ∧ birthMax r ≤ 8 ∧ 1 ≤ states r ≤ 5 ∧
  neighborhood r = neighborhood multicolor ∧ wrapping r = wrapping multicolor ∧
  ∃ g', computeNextGeneration true eight r defaultColors (initializeGrid eight) = Some g' ∧
        grid_ok r g'.
Proof.
  apply (presets_keep_invariant "coral" (mkPreset 4 8 3 3 1) multicolor true eight
           defaultColors (initializeGrid eight)).
  - reflexivity.
  - apply (bool_decide_unpack _). vm_compute. exact I.
  - apply grid_ok_initializeGrid. simpl. lia.
Defined.

Lemma cell_size_fits_witness :
  let s := newCellSize (mkGridSize 100 100) 800 650 in
  2 ≤ s ∧
  (2 < s → 100 * s ≤ 800 ∧ 100 * s ≤ 650) ∧
  (∀ k, 100 * k ≤ 800 → 100 * k ≤ 650 → k ≤ s).
Proof.
  apply (cell_size_fits (mkGridSize 100 100) 800 650).
  - simpl. lia.
  - simpl. lia.
Defined.

Lemma incremental_redraw_after_step_witness :
  ∃ g' ops ops',
    computeNextGeneration true eight gameOfLife defaultColors centered_glider = Some g' ∧
    drawGrid false defaultColors g' 0 0 8 8 = Some ops ∧
    drawGrid true defaultColors g' 0 0 8 8 = Some ops' ∧
    (∀ y x c, grid_get g' y x = Some c → is_Some (positive (state c)) →
              changed c = true) ∧
    ∀ y x, canvas_after ops y x = canvas_after ops' y x ∧
           canvas_after ops' y x =
             if bool_decide (0 ≤ y < 8 ∧ 0 ≤ x < 8)
             then shown defaultColors g' y x else None.
Proof.
  apply (incremental_redraw_after_step true eight gameOfLife defaultColors
           centered_glider 0 0 8 8).
  - apply (bool_decide_unpack _). vm_compute. exact I.
  - lia.
  - simpl. lia.
  - lia.
  - simpl. lia.
Defined.

Lemma stamped_pattern_not_drawn_witness :
  ∃ g' ops',
    applyPattern eight (initializeGrid eight) glider = Some g' ∧
    drawGrid false defaultColors g' 0 0 8 8 = Some [] ∧
    drawGrid true defaultColors g' 0 0 8 8 = Some ops' ∧
    ∀ y x, canvas_after ops' y x =
           if bool_decide (0 ≤ y < 8 ∧ 0 ≤ x < 8)
           then shown defaultColors g' y x else None.
Proof.
  apply (stamped_pattern_not_drawn eight defaultColors (initializeGrid eight) glider
           [JNum 0; JNum 1; JNum 0] 0 0 8 8).
  - apply (bool_decide_unpack _). vm_compute. exact I.
  - apply no_flags_initializeGrid.
  - reflexivity.
  - lia.
  - simpl. lia.
  - lia.
  - simpl. lia.
Defined.

Lemma randomFill_establishes_invariant_witness :
  ∃ g', randomFill eight multicolor centered_glider (λ y x, (Z.even (y + x), 2))
        = Some g' ∧
        wf_grid eight g' ∧ grid_ok multicolor g' ∧
        ∀ y x c, grid_get centered_glider y x = Some c →
          ∃ c' s, grid_get g' y x = Some c' ∧
                  state c' = JNum s ∧ age c' = 0 ∧
                  changed c' = changed c ∧
                  previousStates c' = previousStates c ∧
                  (s = 0 ↔ Z.even (y + x) = false).
Proof.
  apply (randomFill_establishes_invariant eight multicolor centered_glider
           (λ y x, (Z.even (y + x), 2))).
  - apply (bool_decide_unpack _). vm_compute. exact I.
  - simpl. lia.
  - intros y x. simpl. lia.
Defined.

